(** * Journiv import pipeline: archive validation, streaming extraction,
      media validation, checksums and filename sanitisation.

    A shallow embedding of
      - [app/utils/import_export/media_handler.py]  (class [MediaHandler])
      - [app/utils/import_export/zip_handler.py]    (class [ZipHandler])
    together with the properties the design document states about them.

    Conventions of the embedding
      - a Python [str] is a list of Unicode code points ([list N]);
        [len] is the length of that list, the UTF-8 size is [utf8_len];
      - [bytes] is a list of byte values;
      - a [pathlib] path is an anchor flag and a list of components;
      - the file system is a finite map from absolute paths to nodes, and the
        code that touches it is written in a state-and-exception monad;
      - library functions whose tables are not part of the repository
        ([str.lower], libmagic, [mimetypes], SHA-256) are parameters. *)

From Stdlib Require Import ZArith Lia String Ascii Sorting.Sorted.
From Equations Require Import Equations.
From stdpp Require Import base tactics option list gmap.

Open Scope Z_scope.

(** ** Python strings *)

Abbreviation str := (list N) (only parsing).

Definition lit (s : string) : list N :=
  N_of_ascii <$> list_ascii_of_string s.

Definition ch_slash : N := 47%N.
Definition ch_dot : N := 46%N.
Definition ch_space : N := 32%N.
Definition ch_underscore : N := 95%N.

(** [len(s.encode(utf-8))] *)
Definition utf8_width (c : N) : nat :=
  if (c <? 128)%N then 1%nat
  else if (c <? 2048)%N then 2%nat
  else if (c <? 65536)%N then 3%nat else 4%nat.

Definition utf8_len (s : str) : nat := sum_list (utf8_width <$> s).

(** [s.startswith(p)], [s.endswith(p)], [sub in s] *)
Fixpoint startswith (s p : str) : bool :=
  match p, s with
  | [], _ => true
  | _ :: _, [] => false
  | b :: p', a :: s' => if N.eqb a b then startswith s' p' else false
  end.

Definition endswith (s p : str) : bool := startswith (reverse s) (reverse p).

Fixpoint str_contains (s sub : str) : bool :=
  startswith s sub ||
  match s with
  | [] => false
  | _ :: s' => str_contains s' sub
  end.

(** [s.split(sep)] for a one-character separator *)
Fixpoint split_on (sep : N) (s : str) : list (list N) :=
  match s with
  | [] => [[]]
  | c :: s' =>
      if N.eqb c sep then [] :: split_on sep s'
      else match split_on sep s' with
           | [] => [[c]]
           | w :: ws => (c :: w) :: ws
           end
  end.

(** [s.replace(old, new)] for one-character [old] and [new] *)
Definition replace_char (old new : N) (s : str) : list N :=
  (λ c, if N.eqb c old then new else c) <$> s.

(** [s.strip(chars)] *)
Fixpoint lstrip (chars : str) (s : str) : list N :=
  match s with
  | [] => []
  | c :: s' => if bool_decide (c ∈ chars) then lstrip chars s' else s
  end.

Definition rstrip (chars : str) (s : str) : list N :=
  reverse (lstrip chars (reverse s)).

Definition str_strip (chars : str) (s : str) : list N :=
  rstrip chars (lstrip chars s).

(** [s.rfind(c)]: index of the last occurrence *)
Fixpoint rfind (c : N) (s : str) : option nat :=
  match s with
  | [] => None
  | x :: s' =>
      match rfind c s' with
      | Some i => Some (S i)
      | None => if N.eqb x c then Some 0%nat else None
      end
  end.

(** [s[:m]] with Python's reading of a negative bound *)
Definition slice_to (m : Z) (s : str) : list N :=
  if 0 <=? m then take (Z.to_nat m) s
  else take (Z.to_nat (Z.of_nat (length s) + m)) s.

(** ** pathlib (POSIX flavour) *)

(** The components kept by [PurePosixPath(s)]: empty and dot components
    are dropped when the string is parsed. *)
Definition pure_parts (s : str) : list (list N) :=
  filter (λ w, w ≠ [] ∧ w ≠ [ch_dot]) (split_on ch_slash s).

(** [Path(s).name] *)
Definition path_name (s : str) : list N := List.last (pure_parts s) [].

(** [suffix] and [stem] of a final component:
    [i = name.rfind('.')], an extension exists iff [0 < i < len(name) - 1]. *)
Definition name_suffix (name : str) : list N :=
  match rfind ch_dot name with
  | Some i =>
      if bool_decide (0 < i < length name - 1)%nat then drop i name else []
  | None => []
  end.

Definition name_stem (name : str) : list N :=
  match rfind ch_dot name with
  | Some i =>
      if bool_decide (0 < i < length name - 1)%nat then take i name else name
  | None => name
  end.

(** Resolved absolute paths: the components below the root, without dot
    and dot-dot components.  The file systems considered here have no
    symbolic links, so [Path.resolve()] is the lexical normalisation. *)
Abbreviation apath := (list (list N)) (only parsing).

Record path := Path { is_abs : bool; parts : list (list N) }.

Definition parse_path (s : str) : path :=
  Path (startswith s [ch_slash]) (pure_parts s).

Definition of_apath (p : apath) : path := Path true p.

(** [p / q]: an absolute right operand replaces the left one. *)
Definition joinpath (p q : path) : path :=
  if is_abs q then q else Path (is_abs p) (parts p ++ parts q).

(** [p.relative_to(q)]; [None] stands for the [ValueError] pathlib raises. *)
Definition relative_to (p q : path) : option path :=
  if bool_decide (is_abs p = is_abs q ∧ parts q `prefix_of` parts p)
  then Some (Path false (drop (length (parts q)) (parts p)))
  else None.

Definition normalize (comps : list (list N)) : list (list N) :=
  foldl (λ acc c, if bool_decide (c = [ch_dot; ch_dot])
                  then removelast acc else acc ++ [c]) [] comps.

(** [(root / q).resolve()] for a resolved [root]. *)
Definition resolve_under (root : apath) (q : path) : list (list N) :=
  normalize (parts (joinpath (of_apath root) q)).

Definition parent (p : apath) : list (list N) := removelast p.

(** [str(p)] *)
Definition path_str (p : apath) : list N :=
  match p with
  | [] => [ch_slash]
  | _ => concat ((λ c, ch_slash :: c) <$> p)
  end.

(** ** Exceptions *)

Inductive exn_class :=
  | BadZipFile | OSError | RuntimeError | ValueError | OtherException.

(** [IOError] is an alias of [OSError]. *)
Definition IOError : exn_class := OSError.

(** The messages the two handlers build, kept structured. *)
Inductive message :=
  | Text (s : list N)
  | ZipCorrupted
  | ZipTooLarge (total_size max_size_mb : Z)
  | UnsafePath (filename : list N)
  | NotInSubpath (filename : list N)
  | MissingJson (source_type : option (list N))
  | DataFileNotFound (data_file : list (list N))
  | InvalidZip (cause : message)
  | ExtractionFailed (cause : message)
  | CorruptedFileInZip (bad_file : list N)
  | MissingRootJson
  | MissingDataJson
  | UnsafePathInZip (filename : list N)
  | FileSystemError (cause : message)
  | RuntimeErrorDuringValidation (cause : message)
  | ValidationError (cause : message)
  | FileNotFound (file_path : list (list N))
  | SizeExceeds (max_size_mb : Z)
  | MimeNotAllowed (mime_type : list N)
  | ExtensionNotAllowed (file_ext : list N)
  | FileIsValid
  | ValidationFailed (cause : message)
  | MediaValidationFailed (filename : list N) (error_msg : message).

Record exn := Exn { exn_cls : exn_class; exn_msg : message }.

#[global] Instance exn_class_eq_dec : EqDecision exn_class.
Proof. solve_decision. Defined.

(** ** State and exceptions *)

Definition SE (S A : Type) : Type := S → S * (exn + A).

Definition ret {S A} (a : A) : SE S A := λ s, (s, inr a).
Definition raise {S A} (e : exn) : SE S A := λ s, (s, inl e).
Definition bind {S A B} (c : SE S A) (k : A → SE S B) : SE S B :=
  λ s, match c s with
       | (s', inr a) => k a s'
       | (s', inl e) => (s', inl e)
       end.
Definition get_state {S} : SE S S := λ s, (s, inr s).
Definition modify {S} (f : S → S) : SE S unit := λ s, (f s, inr tt).
Definition lift {S A} (r : exn + A) : SE S A := λ s, (s, r).
(** [try: c except Exception as e: h e] *)
Definition try_except {S A} (c : SE S A) (h : exn → SE S A) : SE S A :=
  λ s, match c s with
       | (s', inr a) => (s', inr a)
       | (s', inl e) => h e s'
       end.

Declare Scope se_scope.
Delimit Scope se_scope with se.
Notation "x <- c ;; k" := (bind c (λ x, k))
  (at level 100, c at next level, right associativity) : se_scope.
Notation "c ;; k" := (bind c (λ _, k))
  (at level 100, right associativity) : se_scope.
Open Scope se_scope.

(** [for x in l: body x], threading an accumulator *)
Fixpoint for_each {S A B} (l : list A) (body : A → B → SE S B) (acc : B)
  : SE S B :=
  match l with
  | [] => ret acc
  | x :: l' => acc' <- body x acc ;; for_each l' body acc'
  end.

(** ** File system *)

Inductive node := File (data : list Byte.byte) | Dir.

Record world := World {
  fs : gmap (list (list N)) node;
  calls : list (Z * Z)          (* what the progress callback received *)
}.

Definition set_fs (f : gmap (list (list N)) node → gmap (list (list N)) node)
  (w : world) : world := World (f (fs w)) (calls w).
Definition log_call (c : Z * Z) (w : world) : world :=
  World (fs w) (calls w ++ [c]).

(** The node at a path; the root is always a directory. *)
Definition node_at (m : gmap (list (list N)) node) (p : apath) : option node :=
  match p with [] => Some Dir | _ => m !! p end.

Definition is_file (o : option node) : bool :=
  match o with Some (File _) => true | _ => false end.
Definition is_dir_node (o : option node) : bool :=
  match o with Some Dir => true | _ => false end.

(** The non-empty prefixes of a path, shortest first. *)
Definition ancestors_or_self (p : apath) : list (list (list N)) :=
  (λ n, take n p) <$> seq 1 (length p).

(** What the code needs from the platform and from the settings module. *)
Record Platform := {
  (** [str.lower] *)
  str_lower : list N → list N;
  (** [import magic; magic.from_file(str(p), mime=True)] on what is stored
      at [p]; [inl] when the import or the call raises. *)
  magic_from_file : list (list N) → option node → exn + list N;
  (** [mimetypes.guess_type(s)[0]] *)
  guess_type : list N → option (list N);
  (** an OS fault (other than absence) that [stat] on the path meets *)
  stat_fault : list (list N) → option exn;
  (** an OS fault that [unlink] on an existing file meets *)
  unlink_fault : list (list N) → option exn;
  (** [st_size] the platform reports for a directory *)
  dir_st_size : Z;
  (** [settings.allowed_media_types], [settings.allowed_file_extensions] *)
  allowed_media_types : list (list N);
  allowed_file_extensions : list (list N)
}.

Section FileSystem.
Context (P : Platform).

Definition os_stat (p : apath) : SE world (option node) :=
  w <- get_state ;;
  match stat_fault P p with
  | Some e => raise e
  | None => ret (node_at (fs w) p)
  end.

(** [p.exists()] *)
Definition path_exists (p : apath) : SE world bool :=
  n <- os_stat p ;; ret (bool_decide (is_Some n)).

Definition node_size (n : node) : Z :=
  match n with
  | File d => Z.of_nat (length d)
  | Dir => dir_st_size P
  end.

(** [p.stat().st_size] *)
Definition stat_size (p : apath) : SE world Z :=
  n <- os_stat p ;;
  match n with
  | None => raise (Exn OSError (FileNotFound p))
  | Some n => ret (node_size n)
  end.

(** [p.mkdir(parents=True, exist_ok=True)] *)
Definition mkdir_p (p : apath) : SE world unit :=
  w <- get_state ;;
  if existsb (λ q, is_file (fs w !! q)) (ancestors_or_self p)
  then raise (Exn OSError (Text (path_str p)))
  else modify (set_fs (λ m, foldr (λ q m', <[q := Dir]> m') m
                                  (ancestors_or_self p))).

(** [with open(p, 'wb') as dest: shutil.copyfileobj(source, dest)] *)
Definition write_file (p : apath) (data : list Byte.byte) : SE world unit :=
  w <- get_state ;;
  if is_dir_node (node_at (fs w) p)
     || negb (is_dir_node (node_at (fs w) (parent p)))
  then raise (Exn OSError (Text (path_str p)))
  else modify (set_fs (λ m, <[p := File data]> m)).

(** [p.unlink()] *)
Definition unlink (p : apath) : SE world unit :=
  w <- get_state ;;
  match unlink_fault P p with
  | Some e => raise e
  | None =>
      if is_file (node_at (fs w) p)
      then modify (set_fs (λ m, delete p m))
      else raise (Exn OSError (Text (path_str p)))
  end.

(** [list(d.glob(pattern))] for the pattern star-dot-json: the children of
    [d] whose name ends in dot-json, in the enumeration order of the map
    (the order of a directory scan is not specified). *)
Definition glob_json (d : apath) : SE world (list (list (list N))) :=
  w <- get_state ;;
  ret (filter (λ q, q ≠ [] ∧ parent q = d
                    ∧ endswith (List.last q []) (lit ".json") = true)
              (fst <$> map_to_list (fs w))).

End FileSystem.

(** ** Binary streams and hashing *)

(** A seekable binary stream: its bytes and the read position. *)
Record BinaryIO := Stream { buf : list Byte.byte; pos : nat }.

(** [f.read(n)] *)
Definition read (n : nat) (f : BinaryIO) : list Byte.byte * BinaryIO :=
  let chunk := take n (drop (pos f) (buf f)) in
  (chunk, Stream (buf f) (pos f + length chunk)).
Definition tell (f : BinaryIO) : nat := pos f.
Definition seek (p : nat) (f : BinaryIO) : BinaryIO := Stream (buf f) p.

(** [hashlib.sha256]: a hash object is made, fed and asked for its digest. *)
Record Hasher := {
  hstate : Type;
  sha256 : hstate;
  update : hstate → list Byte.byte → hstate;
  hexdigest : hstate → list N
}.

(** [hashlib.sha256(data)] *)
Definition sha256_of (H : Hasher) (data : list Byte.byte) : hstate H :=
  update H (sha256 H) data.

Definition chunk_size : nat := Z.to_nat 8192.

Definition inspect {A : Type} (x : A) : { y : A | x = y } :=
  exist _ x eq_refl.

(** [for chunk in iter(lambda: f.read(size), b""): h.update(chunk)] *)
Equations? update_from (H : Hasher) (size : nat) (h : hstate H)
  (f : BinaryIO) : hstate H * BinaryIO
  by wf (length (buf f) - pos f)%nat lt :=
  update_from H size h f with inspect (fst (read size f)) => {
    | exist _ nil _ => (h, snd (read size f));
    | exist _ (cons c cs) E =>
        update_from H size (update H h (cons c cs)) (snd (read size f)) }.
Proof.
  unfold read in *; cbn [fst snd buf pos] in *.
  pose proof (f_equal length E) as Hl.
  rewrite length_take, length_drop in Hl.
  rewrite E. cbn [length] in *. lia.
Qed.

Module MediaHandler.

(** *** Checksums *)

(** [open(file_path, "rb")] *)
Definition open_rb (file_path : apath) : SE world BinaryIO :=
  w <- get_state ;;
  match node_at (fs w) file_path with
  | Some (File d) => ret (Stream d 0)
  | Some Dir => raise (Exn OSError (Text (path_str file_path)))
  | None => raise (Exn OSError (FileNotFound file_path))
  end.

Definition calculate_checksum (H : Hasher) (file_path : apath)
  : SE world (list N) :=
  let sha256_hash := sha256 H in
  f <- open_rb file_path ;;
  let sha256_hash := fst (update_from H chunk_size sha256_hash f) in
  ret (hexdigest H sha256_hash).

Definition calculate_checksum_from_bytes (H : Hasher)
  (data : list Byte.byte) : list N :=
  hexdigest H (sha256_of H data).

(** The stream is the caller's: the result pairs the digest with the
    stream as the call leaves it. *)
Definition calculate_checksum_from_stream (H : Hasher) (stream : BinaryIO)
  : list N * BinaryIO :=
  let sha256_hash := sha256 H in
  let original_position := tell stream in
  let stream := seek 0 stream in
  let '(sha256_hash, stream) := update_from H chunk_size sha256_hash stream in
  let stream := seek original_position stream in
  (hexdigest H sha256_hash, stream).

(** *** Type and size policy *)

Definition validate_media_type (mime_type : str)
  (allowed_types : list (list N)) : bool :=
  if bool_decide (mime_type = []) then false
  else if bool_decide (mime_type ∈ allowed_types) then true
  else
    let category := List.hd [] (split_on ch_slash mime_type) in
    let wildcard := category ++ lit "/*" in
    bool_decide (wildcard ∈ allowed_types).

Definition validate_file_size (file_size max_size_mb : Z) : bool :=
  let max_bytes := max_size_mb * 1024 * 1024 in
  file_size <=? max_bytes.

(** *** sanitize_filename *)

(** The characters less-than, greater-than, colon, double quote, bar,
    question mark, star, backslash, slash and NUL. *)
Definition dangerous_chars : list N :=
  [60; 62; 58; 34; 124; 63; 42; 92; 47; 0]%N.

Definition sanitize_filename (filename : str) : list N :=
  (* Remove path components *)
  let filename := path_name filename in
  (* Remove dangerous characters *)
  let filename :=
    foldl (λ filename char, replace_char char ch_underscore filename)
          filename dangerous_chars in
  (* Remove leading/trailing dots and spaces *)
  let filename := str_strip (lit ". ") filename in
  (* Ensure filename is not empty *)
  let filename :=
    if bool_decide (filename = []) then lit "unnamed" else filename in
  (* Limit length *)
  let max_length := 255 in
  if Z.of_nat (length filename) >? max_length then
    (* Preserve extension *)
    let stem := name_stem (path_name filename) in
    let suffix := name_suffix (path_name filename) in
    let max_stem_length := max_length - Z.of_nat (length suffix) in
    slice_to max_stem_length stem ++ suffix
  else filename.

(** The name as it stands when the length limit is reached. *)
Definition cleaned_name (filename : str) : list N :=
  let filename := path_name filename in
  let filename :=
    foldl (λ filename char, replace_char char ch_underscore filename)
          filename dangerous_chars in
  let filename := str_strip (lit ". ") filename in
  if bool_decide (filename = []) then lit "unnamed" else filename.

(** *** detect_mime and validate_media *)

Section WithPlatform.
Context (P : Platform).

Definition default_mime : list N := lit "application/octet-stream".

Definition detect_mime (file_path : apath) (w : world) : list N :=
  match magic_from_file P file_path (node_at (fs w) file_path) with
  | inr mime_type => mime_type
  | inl _ =>
      (* Fallback to mimetypes guess *)
      match guess_type P (path_str file_path) with
      | Some mime_type =>
          if bool_decide (mime_type = []) then default_mime else mime_type
      | None => default_mime
      end
  end.

Definition verdict : Type := bool * list N * list N * message.

(** The body of the [try] block. *)
Definition validate_media_checks (file_path : apath) (max_size_mb : Z)
  (allowed_types allowed_extensions : list (list N)) : SE world verdict :=
  (* 1. Check file size *)
  ex <- path_exists P file_path ;;
  if negb ex then
    ret (false, lit "unknown", lit "not_found", FileNotFound file_path)
  else
  file_size <- stat_size P file_path ;;
  if negb (validate_file_size file_size max_size_mb) then
    ret (false, lit "unknown", lit "size", SizeExceeds max_size_mb)
  else
  (* 2. Check MIME type *)
  w <- get_state ;;
  let mime_type := detect_mime file_path w in
  if negb (validate_media_type mime_type allowed_types) then
    ret (false, mime_type, lit "format", MimeNotAllowed mime_type)
  else
  (* 3. Check file extension *)
  let file_ext := str_lower P (name_suffix (List.last file_path [])) in
  if negb (bool_decide (allowed_extensions = []))
     && negb (bool_decide (file_ext ∈ allowed_extensions)) then
    ret (false, mime_type, lit "extension", ExtensionNotAllowed file_ext)
  else
    ret (true, mime_type, lit "none", FileIsValid).

Definition validate_media (file_path : apath) (max_size_mb : Z)
  (allowed_types allowed_extensions : list (list N)) (w : world)
  : verdict :=
  match validate_media_checks file_path max_size_mb
          allowed_types allowed_extensions w with
  | (_, inr r) => r
  | (_, inl e) =>
      (false, lit "unknown", lit "error", ValidationFailed (exn_msg e))
  end.

End WithPlatform.

End MediaHandler.

(** ** ZIP archives *)

(** Reading a member either delivers its bytes, or fails the integrity check
    ([BadZipFile], for instance on a wrong CRC-32), or raises something
    else (an encrypted member, an unsupported compression method). *)
Inductive member_check := MemberOk | MemberBad | MemberRaises (e : exn).

Record ZipInfo := {
  filename : list N;
  file_size : Z;                 (* declared uncompressed size *)
  data : list Byte.byte;         (* the bytes the member delivers *)
  check : member_check
}.

(** [zipfile.ZipFile(zip_path, 'r')]: the constructor raises or gives the
    archive, seen through [infolist()]. *)
Definition archive : Type := exn + list ZipInfo.

Definition is_dir (info : ZipInfo) : bool := endswith (filename info) [ch_slash].

Definition namelist (entries : list ZipInfo) : list (list N) :=
  filename <$> entries.

(** [getinfo(name)]: the name table keeps the last entry of a name. *)
Definition getinfo (entries : list ZipInfo) (name : str) : option ZipInfo :=
  List.find (λ i, bool_decide (filename i = name)) (reverse entries).

(** [testzip()]: members are opened by name, in archive order; the first
    one failing the integrity check is named, other exceptions escape. *)
Fixpoint testzip_from (all rest : list ZipInfo) : exn + option (list N) :=
  match rest with
  | [] => inr None
  | zinfo :: rest' =>
      match check <$> getinfo all (filename zinfo) with
      | Some MemberBad => inr (Some (filename zinfo))
      | Some (MemberRaises e) => inl e
      | _ => testzip_from all rest'
      end
  end.

Definition testzip (entries : list ZipInfo) : exn + option (list N) :=
  testzip_from entries entries.

(** [enumerate(l, start)] *)
Fixpoint enumerate {A} (start : Z) (l : list A) : list (Z * A) :=
  match l with
  | [] => []
  | x :: l' => (start, x) :: enumerate (start + 1) l'
  end.

Definition sum_sizes (entries : list ZipInfo) : Z :=
  foldr Z.add 0 (file_size <$> entries).

Module ZipHandler.

(** *** validate_zip_structure *)

Record validation := Validation {
  valid : bool;
  has_data_file : bool;
  has_media : bool;
  v_file_count : Z;
  v_total_size : Z;
  errors : list message
}.

Definition set_valid (b : bool) (r : validation) : validation :=
  Validation b (has_data_file r) (has_media r) (v_file_count r)
             (v_total_size r) (errors r).
Definition set_has_data_file (b : bool) (r : validation) : validation :=
  Validation (valid r) b (has_media r) (v_file_count r)
             (v_total_size r) (errors r).
Definition set_has_media (b : bool) (r : validation) : validation :=
  Validation (valid r) (has_data_file r) b (v_file_count r)
             (v_total_size r) (errors r).
Definition set_file_count (n : Z) (r : validation) : validation :=
  Validation (valid r) (has_data_file r) (has_media r) n
             (v_total_size r) (errors r).
Definition set_total_size (n : Z) (r : validation) : validation :=
  Validation (valid r) (has_data_file r) (has_media r) (v_file_count r)
             n (errors r).
Definition append_error (m : message) (r : validation) : validation :=
  Validation (valid r) (has_data_file r) (has_media r) (v_file_count r)
             (v_total_size r) (errors r ++ [m]).

Definition is_dayone (source_type : option (list N)) : bool :=
  bool_decide (source_type = Some (lit "dayone")).

(** The body of the [try] block; the state is the [result] dictionary. *)
Definition validate_zip_checks (zip : archive)
  (source_type : option (list N)) : SE validation unit :=
  zipf <- lift zip ;;
  (* Test ZIP integrity *)
  bad_file <- lift (testzip zipf) ;;
  match bad_file with
  | Some bad =>
      modify (set_valid false) ;;
      modify (append_error (CorruptedFileInZip bad))
      (* return result *)
  | None =>
      (* Check contents *)
      let file_list := namelist zipf in
      modify (set_file_count (Z.of_nat (length file_list))) ;;
      modify (set_total_size (sum_sizes zipf)) ;;
      (* Check for data file based on source type *)
      (if is_dayone source_type then
         let root_json_files :=
           filter (λ f, endswith f (lit ".json") = true
                        ∧ str_contains f [ch_slash] = false) file_list in
         if negb (bool_decide (root_json_files = [])) then
           modify (set_has_data_file true)
         else
           modify (set_valid false) ;;
           modify (append_error MissingRootJson)
       else
         if bool_decide (lit "data.json" ∈ file_list) then
           modify (set_has_data_file true)
         else
           modify (set_valid false) ;;
           modify (append_error MissingDataJson)) ;;
      (* Check for media directory *)
      let media_files :=
        if is_dayone source_type then
          filter (λ f, startswith f (lit "photos/") = true
                       ∨ startswith f (lit "Photos/") = true
                       ∨ startswith f (lit "videos/") = true
                       ∨ startswith f (lit "Videos/") = true) file_list
        else
          filter (λ f, startswith f (lit "media/") = true) file_list in
      modify (set_has_media (bool_decide (0 < length media_files)%nat)) ;;
      (* Check for path traversal *)
      for_each file_list
        (λ filename (_ : unit),
           if str_contains filename (lit "..")
              || startswith filename [ch_slash] then
             modify (set_valid false) ;;
             modify (append_error (UnsafePathInZip filename))
           else ret tt) tt
  end.

Definition initial_result : validation :=
  Validation true false false 0 0 [].

(** The [except] clauses, in their order. *)
Definition validation_handler (e : exn) : SE validation unit :=
  modify (set_valid false) ;;
  match exn_cls e with
  | BadZipFile => modify (append_error (InvalidZip (exn_msg e)))
  | OSError => modify (append_error (FileSystemError (exn_msg e)))
  | RuntimeError =>
      modify (append_error (RuntimeErrorDuringValidation (exn_msg e)))
  | _ => modify (append_error (ValidationError (exn_msg e)))
  end.

Definition validate_zip_structure (zip : archive)
  (source_type : option (list N)) : validation * (exn + unit) :=
  (try_except (validate_zip_checks zip source_type) validation_handler ;;
   ret tt) initial_result.

(** *** stream_extract *)

Record extraction := Extraction {
  data_file : list (list N);
  media_dir : option (list (list N));
  total_size : Z;
  file_count : Z;
  warnings : list message;
  warning_categories : gmap (list N) Z
}.

Definition cat_map : gmap (list N) (list N) :=
  list_to_map
    [ (lit "size", lit "Skipped due to size");
      (lit "format", lit "Skipped due to format");
      (lit "extension", lit "Skipped due to extension");
      (lit "not_found", lit "Skipped (not found)");
      (lit "error", lit "Skipped (error)") ].

(** [cat_map.get(category, f"Skipped ({category})")] *)
Definition display_category (category : list N) : list N :=
  default (lit "Skipped (" ++ category ++ lit ")") (cat_map !! category).

(** [d[k] = d.get(k, 0) + 1] *)
Definition bump (k : list N) (d : gmap (list N) Z) : gmap (list N) Z :=
  <[k := default 0 (d !! k) + 1]> d.

(** [with zipf.open(info) as source:
       with open(target_path, 'wb') as dest:
         shutil.copyfileobj(source, dest)] *)
Section WithPlatform.
Context (P : Platform).

Definition copy_member (info : ZipInfo) (target_path : apath)
  : SE world unit :=
  match check info with
  | MemberRaises e => raise e
  | MemberOk => write_file target_path (data info)
  | MemberBad =>
      write_file target_path (data info) ;;
      raise (Exn BadZipFile (Text (filename info)))
  end.

Definition is_media (source_type : option (list N)) (info : ZipInfo)
  : bool :=
  if is_dayone source_type then
    existsb (λ p, startswith (str_lower P (filename info)) p)
            [lit "photos/"; lit "videos/"]
  else startswith (filename info) (lit "media/").

(** The directory an entry is routed to and its resolved path there. *)
Definition route (extract_to : apath) (media_dest : option (list (list N)))
  (source_type : option (list N)) (info : ZipInfo)
  : exn + (list (list N) * list (list N)) :=
  match (if is_media source_type info then media_dest else None) with
  | Some media_dest =>
      (* Zero-copy: Write directly to final destination *)
      let target_dir := media_dest in
      match (if is_dayone source_type
             then Some (parse_path (filename info))
             else relative_to (parse_path (filename info))
                              (parse_path (lit "media"))) with
      | Some relative_path =>
          inr (target_dir, resolve_under media_dest relative_path)
      | None => inl (Exn ValueError (NotInSubpath (filename info)))
      end
  | None =>
      (* Extract data.json and other files to temp *)
      let target_dir := extract_to in
      inr (target_dir,
           resolve_under extract_to (parse_path (filename info)))
  end.

(** The validation of a media file that was just written (lines
    401-444): a rejected file costs a warning, a count under its
    category, and is removed at once; a failure of the removal is
    logged and otherwise ignored. *)
Definition remove_invalid (target_path : apath) : SE world unit :=
  try_except
    (ex <- path_exists P target_path ;;
     if ex then unlink P target_path else ret tt)
    (λ cleanup_exc, ret tt).

Definition check_extracted_media (max_size_mb : Z) (info : ZipInfo)
  (target_path : apath) (acc : list message * gmap (list N) Z)
  : SE world (list message * gmap (list N) Z) :=
  w <- get_state ;;
  let '(is_valid, mime_type, category, error_msg) :=
    MediaHandler.validate_media P target_path max_size_mb
      (allowed_media_types P) (allowed_file_extensions P) w in
  if negb is_valid then
    let warning_msg := MediaValidationFailed (filename info) error_msg in
    let warnings := fst acc ++ [warning_msg] in
    (* Categorize warnings using structured metadata *)
    let warning_categories :=
      bump (display_category category) (snd acc) in
    (* Remove invalid file immediately *)
    remove_invalid target_path ;;
    ret (warnings, warning_categories)
  else ret acc.

(** One turn of the loop over [enumerate(entries, start=1)]; the
    accumulator holds [warnings] and [warning_categories]. *)
Definition extract_entry (extract_to : apath)
  (media_dest : option (list (list N))) (max_size_mb : Z)
  (validate_media progress_callback : bool)
  (source_type : option (list N)) (total_files : Z)
  (entry : Z * ZipInfo) (acc : list message * gmap (list N) Z)
  : SE world (list message * gmap (list N) Z) :=
  let (idx, info) := entry in
  (* Skip directory entries *)
  if is_dir info then ret acc
  else
  let is_media_file := is_media source_type info in
  r <- lift (route extract_to media_dest source_type info) ;;
  let (target_dir, target_path) := (r : list (list N) * list (list N)) in
  (* Path traversal check *)
  if negb (bool_decide (target_dir `prefix_of` target_path)) then
    raise (Exn ValueError (UnsafePath (filename info)))
  else
  (* Extract single file to appropriate destination *)
  mkdir_p (parent target_path) ;;
  copy_member info target_path ;;
  (* Validate media files using centralized MediaHandler *)
  acc <-
    (if is_media_file && validate_media then
       check_extracted_media max_size_mb info target_path acc
     else ret acc) ;;
  (* Report progress *)
  (if progress_callback then modify (log_call (idx, total_files))
   else ret tt) ;;
  ret acc.

(** The loop over a list of numbered entries. *)
Definition extract_entries (extract_to : apath)
  (media_dest : option (list (list N))) (max_size_mb : Z)
  (validate_media progress_callback : bool)
  (source_type : option (list N)) (total_files : Z)
  (entries : list (Z * ZipInfo)) (acc : list message * gmap (list N) Z)
  : SE world (list message * gmap (list N) Z) :=
  for_each entries
    (extract_entry extract_to media_dest max_size_mb validate_media
       progress_callback source_type total_files) acc.

(** What follows the loop (lines 455-480): the data file and the media
    directory are looked up and the result is built. *)
Definition finish (extract_to : apath)
  (media_dest : option (list (list N))) (source_type : option (list N))
  (total_size : Z) (entries : list ZipInfo)
  (acc : list message * gmap (list N) Z) : SE world extraction :=
  found <-
    (if is_dayone source_type then
       root_json_files <- glob_json extract_to ;;
       ret (List.hd_error root_json_files, extract_to)
     else
       ret (Some (extract_to ++ [lit "data.json"]),
            extract_to ++ [lit "media"])) ;;
  let (data_file, media_dir) :=
    (found : option (list (list N)) * list (list N)) in
  media_dir <-
    match media_dest with
    | Some md =>
        ex <- path_exists P md ;;
        ret (if ex then md else media_dir)
    | None => ret media_dir
    end ;;
  match data_file with
  | None => raise (Exn ValueError (MissingJson source_type))
  | Some data_file =>
      ex <- path_exists P data_file ;;
      if negb ex then
        raise (Exn ValueError (DataFileNotFound data_file))
      else
      media_ex <- path_exists P media_dir ;;
      ret (Extraction data_file
             (if media_ex then Some media_dir else None)
             total_size (Z.of_nat (length entries))
             (fst acc) (snd acc))
  end.

(** The body of the [try] block. *)
Definition stream_extract_body (zip : archive) (extract_to : apath)
  (media_dest : option (list (list N))) (max_size_mb : Z)
  (validate_media progress_callback : bool)
  (source_type : option (list N)) : SE world extraction :=
  zipf <- lift zip ;;
  (* Same validation as extract_zip() *)
  bad <- lift (testzip zipf) ;;
  if bool_decide (is_Some bad) then
    raise (Exn ValueError ZipCorrupted)
  else
  (* Check total size *)
  let total_size := sum_sizes zipf in
  let max_bytes := max_size_mb * 1024 * 1024 in
  if total_size >? max_bytes then
    raise (Exn ValueError (ZipTooLarge total_size max_size_mb))
  else
  (* Ensure extract_to exists *)
  mkdir_p extract_to ;;
  (* Get file list *)
  let entries := zipf in
  let total_files := Z.of_nat (length entries) in
  (* Extract files one by one *)
  acc <- extract_entries extract_to media_dest max_size_mb
           validate_media progress_callback source_type total_files
           (enumerate 1 entries) ([], ∅) ;;
  (* Return same structure as extract_zip() *)
  finish extract_to media_dest source_type total_size entries acc.

(** The two [except] clauses around the body: [BadZipFile] becomes a
    [ValueError], every other exception an [IOError]. *)
Definition reraise {A} (e : exn) : SE world A :=
  match exn_cls e with
  | BadZipFile => raise (Exn ValueError (InvalidZip (exn_msg e)))
  | _ => raise (Exn IOError (ExtractionFailed (exn_msg e)))
  end.

Definition stream_extract (zip : archive) (extract_to : apath)
  (media_dest : option (list (list N))) (max_size_mb : Z)
  (validate_media progress_callback : bool)
  (source_type : option (list N)) : SE world extraction :=
  try_except
    (stream_extract_body zip extract_to media_dest max_size_mb
       validate_media progress_callback source_type)
    reraise.

(** The state of an extraction after the staging directory is made and
    the entries [pre], the first ones of the archive, are done. *)
Definition extract_prefix (extract_to : apath)
  (media_dest : option (list (list N))) (max_size_mb : Z)
  (validate_media progress_callback : bool)
  (source_type : option (list N)) (total_files : Z)
  (pre : list ZipInfo) : SE world (list message * gmap (list N) Z) :=
  mkdir_p extract_to ;;
  extract_entries extract_to media_dest max_size_mb validate_media
    progress_callback source_type total_files (enumerate 1 pre) ([], ∅).

End WithPlatform.

End ZipHandler.

(** ** Vocabulary of the properties *)

(** A name is trimmed when it neither starts nor ends with a character of
    the set. *)
Definition trimmed (chars s : list N) : Prop :=
  (∀ c, head s = Some c → c ∉ chars) ∧ (∀ c, last s = Some c → c ∉ chars).

(** What [sanitize_filename] does to one character. *)
Definition subst_dangerous (ch : N) : N :=
  if bool_decide (ch ∈ MediaHandler.dangerous_chars)
  then ch_underscore else ch.

(** The names [sanitize_filename] leaves as they are. *)
Definition clean (r : list N) : Prop :=
  r ≠ [] ∧ Forall (λ ch, ch ∉ MediaHandler.dangerous_chars) r
  ∧ trimmed [ch_dot; ch_space] r ∧ (length r ≤ 255)%nat.

(** The length limit of [sanitize_filename] (lines 228-234). *)
Definition limit_length (c : list N) : list N :=
  if Z.of_nat (length c) >? 255 then
    slice_to (255 - Z.of_nat (length (name_suffix (path_name c))))
             (name_stem (path_name c)) ++ name_suffix (path_name c)
  else c.

(** The names on which the length limit leaves a clean name: at most 255
    characters, or an extension of 1 to 254 characters, or no extension and
    no space as 255th character. *)
Definition limit_is_clean (c : list N) : Prop :=
  (length c ≤ 255)%nat
  ∨ (0 < length (name_suffix c) < 255)%nat
  ∨ (name_suffix c = [] ∧ c !! 254%nat ≠ Some ch_space).

(** A hash object that only collects what it is fed. *)
Definition collecting_hasher : Hasher :=
  {| hstate := list Byte.byte; sha256 := []; update := app;
     hexdigest := fmap Byte.to_N |}.

(** Computations that never raise, and computations that keep a property
    of the state whatever their outcome. *)
Definition no_raise {S A} (c : SE S A) : Prop :=
  ∀ s, ∃ s' a, c s = (s', inr a).

Definition preserves {S A} (I : S → Prop) (c : SE S A) : Prop :=
  ∀ s s' r, I s → c s = (s', r) → I s'.

(** A path at which the file system holds nothing. *)
Definition absent (t : list (list N)) (w : world) : Prop :=
  node_at (fs w) t = None.

(** The callback has received exactly the calls [c]. *)
Definition calls_are (c : list (Z * Z)) (w : world) : Prop := calls w = c.

(** What the handlers of [validate_zip_structure] append for an
    exception. *)
Definition error_for (e : exn) : message :=
  match exn_cls e with
  | BadZipFile => InvalidZip (exn_msg e)
  | OSError => FileSystemError (exn_msg e)
  | RuntimeError => RuntimeErrorDuringValidation (exn_msg e)
  | _ => ValidationError (exn_msg e)
  end.

(** An entry that is a directory entry, or is not routed at or below [t],
    leaves [t] alone. *)
Definition writes_elsewhere (P : Platform) (extract_to : list (list N))
  (media_dest : option (list (list N))) (source_type : option (list N))
  (t : list (list N)) (info : ZipInfo) : Prop :=
  is_dir info = true
  ∨ ∀ target_dir target_path,
      ZipHandler.route P extract_to media_dest source_type info
        = inr (target_dir, target_path) →
      ¬ t `prefix_of` target_path.

(** One call of the callback for each numbered entry that is not a
    directory entry. *)
Definition progress_of (total_files : Z) (entries : list (Z * ZipInfo))
  : list (Z * Z) :=
  (λ e, (e.1, total_files)) <$> filter (λ e, is_dir e.2 = false) entries.

(** ** A concrete platform and sample archives *)

Module Sample.

(** [str.lower] on the ASCII letters. *)
Definition ascii_lower (s : list N) : list N :=
  (λ c, if ((65 <=? c) && (c <=? 90))%N then (c + 32)%N else c) <$> s.

(** Sniffing that knows the JPEG magic number, and guessing that knows
    the [.jpg] extension. *)
Definition is_jpeg (d : list Byte.byte) : bool :=
  match d with
  | b1 :: b2 :: _ => Byte.eqb b1 Byte.xff && Byte.eqb b2 Byte.xd8
  | _ => false
  end.

Definition sniff (p : list (list N)) (n : option node) : exn + list N :=
  match n with
  | Some (File d) =>
      if is_jpeg d then inr (lit "image/jpeg")
      else inr (lit "application/octet-stream")
  | _ => inl (Exn OtherException (Text (lit "cannot open")))
  end.

Definition guess (s : list N) : option (list N) :=
  if endswith s (lit ".jpg") then Some (lit "image/jpeg") else None.

Definition platform : Platform := {|
  str_lower := ascii_lower;
  magic_from_file := sniff;
  guess_type := guess;
  stat_fault := λ _, None;
  unlink_fault := λ _, None;
  dir_st_size := 4096;
  allowed_media_types := [lit "image/*"; lit "video/*"; lit "audio/*"];
  allowed_file_extensions := [lit ".jpg"; lit ".png"; lit ".mp4"]
|}.

(** The same platform without libmagic. *)
Definition platform_without_magic : Platform := {|
  str_lower := ascii_lower;
  magic_from_file := λ _ _, inl (Exn OtherException (Text (lit "magic")));
  guess_type := guess;
  stat_fault := λ _, None;
  unlink_fault := λ _, None;
  dir_st_size := 4096;
  allowed_media_types := [lit "image/*"; lit "video/*"; lit "audio/*"];
  allowed_file_extensions := [lit ".jpg"; lit ".png"; lit ".mp4"]
|}.

Definition member (name : string) (d : list Byte.byte) : ZipInfo :=
  {| filename := lit name; file_size := Z.of_nat (length d);
     data := d; check := MemberOk |}.

Definition jpeg : list Byte.byte := [Byte.xff; Byte.xd8; Byte.xff; Byte.xe0].
Definition text : list Byte.byte := [Byte.x68; Byte.x69].
Definition json : list Byte.byte := [Byte.x7b; Byte.x7d].

Definition staging : list (list N) := [lit "tmp"; lit "import"].
Definition empty_world : world := World ∅ [].

End Sample.

(** ** More of the two handlers and of their callers *)

(** *** Vocabulary *)

(** A path at or above one of the two roots of an extraction. *)
Definition above_root (extract_to : list (list N))
  (media_dest : option (list (list N))) (p : list (list N)) : Prop :=
  p `prefix_of` extract_to ∨ ∃ m, media_dest = Some m ∧ p `prefix_of` m.

(** What may happen at a path: nothing, or a missing directory is made,
    and that only when [allowed] holds. *)
Definition kept_or_made (allowed : Prop) (before : option node)
  (p : list (list N)) (w : world) : Prop :=
  fs w !! p = before
  ∨ (before = None ∧ fs w !! p = Some Dir ∧ allowed).

(** The sum of the counts of a histogram. *)
Definition total_count (d : gmap (list N) Z) : Z :=
  map_fold (λ _ v s, v + s) 0 d.

(** The accumulator of the extraction loop holds as many warnings as its
    histogram counts. *)
Definition warnings_counted (acc : list message * gmap (list N) Z) : Prop :=
  total_count acc.2 = Z.of_nat (length acc.1).

(** The test of the path traversal scan of [validate_zip_structure]. *)
Definition unsafe_name (f : list N) : bool :=
  str_contains f (lit "..") || startswith f [ch_slash].

(** The error for an archive without a data file. *)
Definition missing_data_error (source_type : option (list N)) : message :=
  if ZipHandler.is_dayone source_type then MissingRootJson
  else MissingDataJson.

(** The archive holds a data file for the source type: [data.json], or
    for a Day One archive a [.json] file at the top level. *)
Definition has_data_entry (source_type : option (list N))
  (names : list (list N)) : Prop :=
  if ZipHandler.is_dayone source_type
  then ∃ f, f ∈ names ∧ endswith f (lit ".json") = true
            ∧ str_contains f [ch_slash] = false
  else lit "data.json" ∈ names.

(** ** ZipHandler.extract_zip *)

Module ExtractZip.
Import ZipHandler.

(** The dictionary [extract_zip] returns. *)
Record extracted := Extracted {
  data_file : list (list N);
  media_dir : option (list (list N));
  total_size : Z;
  file_count : Z
}.

Section WithLibrary.
Context (P : Platform).
(** [zipf.extractall(extract_to)] of the [zipfile] library. *)
Context (extractall : list ZipInfo → list (list N) → SE world unit).

(** The scan for path traversal: every entry of the archive, directory
    entries included, before anything is extracted. *)
Definition check_paths (extract_to : apath) (entries : list ZipInfo)
  : SE world unit :=
  for_each entries
    (λ info (_ : unit),
       (* Build extraction path and normalize *)
       let extract_path :=
         resolve_under extract_to (parse_path (filename info)) in
       (* Ensure it is within extract_to *)
       if negb (bool_decide (extract_to `prefix_of` extract_path)) then
         raise (Exn ValueError (UnsafePath (filename info)))
       else ret tt) tt.

(** The body of the [try] block. *)
Definition extract_zip_body (zip : archive) (extract_to : apath)
  (max_size_mb : Z) (source_type : option (list N))
  : SE world extracted :=
  zipf <- lift zip ;;
  (* Validate ZIP *)
  bad <- lift (testzip zipf) ;;
  if bool_decide (is_Some bad) then
    raise (Exn ValueError ZipCorrupted)
  else
  (* Check total uncompressed size *)
  let total_size := sum_sizes zipf in
  let max_bytes := max_size_mb * 1024 * 1024 in
  if total_size >? max_bytes then
    raise (Exn ValueError (ZipTooLarge total_size max_size_mb))
  else
  (* Ensure extract_to directory exists *)
  mkdir_p extract_to ;;
  (* Check for path traversal attacks *)
  check_paths extract_to zipf ;;
  (* Extract all files *)
  extractall zipf extract_to ;;
  (* Find data file and media directory *)
  found <-
    (if is_dayone source_type then
       root_json_files <- glob_json extract_to ;;
       ret (List.hd_error root_json_files, extract_to)
     else
       ret (Some (extract_to ++ [lit "data.json"]),
            extract_to ++ [lit "media"])) ;;
  let (data_file, media_dir) :=
    (found : option (list (list N)) * list (list N)) in
  match data_file with
  | None => raise (Exn ValueError (MissingJson source_type))
  | Some data_file =>
      ex <- path_exists P data_file ;;
      if negb ex then
        raise (Exn ValueError (DataFileNotFound data_file))
      else
      media_ex <- path_exists P media_dir ;;
      ret (Extracted data_file
             (if media_ex then Some media_dir else None)
             total_size (Z.of_nat (length zipf)))
  end.

(** The two [except] clauses are those of [stream_extract]. *)
Definition extract_zip (zip : archive) (extract_to : apath)
  (max_size_mb : Z) (source_type : option (list N))
  : SE world extracted :=
  try_except (extract_zip_body zip extract_to max_size_mb source_type)
    reraise.

End WithLibrary.

End ExtractZip.

(** ** UploadManager.process_upload *)

Module UploadManager.
Import ZipHandler.

(** [fastapi.UploadFile]: the name the client sent and the file object. *)
Record UploadFile := {
  upload_filename : option (list N);
  upload_file : BinaryIO
}.

(** The [detail] of the exceptions [process_upload] raises. *)
Inductive detail :=
  | MustBeZip
  | FileTooLarge (max_size_mb : Z)
  | InvalidZipFile (errors : list message)
  | ProcessingError.

Record HTTPException := HTTP { status_code : Z; http_detail : detail }.

(** The loop that saves the upload in chunks and counts its bytes: what
    was written, the count, and whether the limit was exceeded. *)
Equations? save_chunks (size : nat) (max_size_mb : Z)
  (written : list Byte.byte) (total_size : Z) (f : BinaryIO)
  : list Byte.byte * Z * bool
  by wf (length (buf f) - pos f)%nat lt :=
  save_chunks size max_size_mb written total_size f
    with inspect (fst (read size f)) => {
    | exist _ nil _ => (written, total_size, false);
    | exist _ (cons c cs) E =>
        let total_size := total_size + Z.of_nat (length (cons c cs)) in
        if negb (MediaHandler.validate_file_size total_size max_size_mb)
        then (written, total_size, true)
        else save_chunks size max_size_mb (written ++ cons c cs)
               total_size (snd (read size f)) }.
Proof.
  unfold read in *; cbn [fst snd buf pos] in *.
  pose proof (f_equal length E) as Hl.
  rewrite length_take, length_drop in Hl.
  rewrite E. cbn [length] in *. lia.
Qed.

(** 1MB chunks *)
Definition upload_chunk_size : nat := Z.to_nat (1024 * 1024).

Section WithSettings.
Context (P : Platform).
(** [settings.import_temp_dir], [settings.import_export_max_file_size_mb],
    the string of the [uuid.uuid4()] drawn by the call, and the reader of
    the [zipfile] library. *)
Context (import_temp_dir : list (list N)).
Context (import_export_max_file_size_mb : Z).
Context (file_id : list N).
Context (zipfile : list Byte.byte → archive).

(** [p.unlink(missing_ok=True)] *)
Definition unlink_missing_ok (p : apath) : SE world unit :=
  w <- get_state ;;
  match unlink_fault P p with
  | Some e => raise e
  | None =>
      match node_at (fs w) p with
      | None => ret tt
      | Some (File _) => modify (set_fs (λ m, delete p m))
      | Some Dir => raise (Exn OSError (Text (path_str p)))
      end
  end.

(** [zipfile.ZipFile(zip_path, 'r')] *)
Definition open_zip (w : world) (zip_path : apath) : archive :=
  match node_at (fs w) zip_path with
  | Some (File d) => zipfile d
  | _ => inl (Exn OSError (FileNotFound zip_path))
  end.

Definition upload_dir : list (list N) := import_temp_dir ++ [lit "uploads"].

(** [upload_dir / f"{file_id}_{safe_filename}"] *)
Definition upload_path (filename : list N) : list (list N) :=
  let safe_filename :=
    MediaHandler.sanitize_filename
      (if bool_decide (filename = []) then lit "import.zip"
       else filename) in
  parts (joinpath (of_apath upload_dir)
           (parse_path (file_id ++ lit "_" ++ safe_filename))).

(** The body of the [try] block.  An [HTTPException] raised there is
    the left summand of the result: the first [except] clause passes it
    on as it is. *)
Definition save_and_validate (file : UploadFile) (source_type : list N)
  (upload_path : apath) : SE world (HTTPException + list (list N)) :=
  let max_size_mb := import_export_max_file_size_mb in
  (* with open(upload_path, "wb") as buffer: the file is made or
     emptied when it is opened; what the loop has written is in the file
     when the block is left *)
  write_file upload_path [] ;;
  let '(written, total_size, too_large) :=
    save_chunks upload_chunk_size max_size_mb [] 0 (upload_file file) in
  write_file upload_path written ;;
  if (too_large : bool) then
    (* Clean up partial file *)
    unlink_missing_ok upload_path ;;
    ret (inl (HTTP 413 (FileTooLarge max_size_mb)))
  else
  (* Validate ZIP structure *)
  w <- get_state ;;
  let validation :=
    (validate_zip_structure (open_zip w upload_path)
       (Some (str_lower P source_type))).1 in
  if negb (valid validation) then
    (* Clean up invalid file *)
    unlink_missing_ok upload_path ;;
    ret (inl (HTTP 400 (InvalidZipFile (errors validation))))
  else ret (inr upload_path).

(** The result is the saved path or the [HTTPException] raised; any
    other exception that escapes is on the left. *)
Definition process_upload (file : UploadFile) (source_type : list N)
  : SE world (HTTPException + list (list N)) :=
  (* Validate filename *)
  match upload_filename file with
  | None => ret (inl (HTTP 400 MustBeZip))
  | Some filename =>
      if bool_decide (filename = [])
         || negb (endswith (str_lower P filename) (lit ".zip")) then
        ret (inl (HTTP 400 MustBeZip))
      else
      (* Create temp upload directory *)
      mkdir_p upload_dir ;;
      (* Generate unique filename *)
      let upload_path := upload_path filename in
      try_except (save_and_validate file source_type upload_path)
        (λ e,
           (* Clean up on unexpected error *)
           ex <- path_exists P upload_path ;;
           (if ex then unlink_missing_ok upload_path else ret tt) ;;
           ret (inl (HTTP 500 ProcessingError)))
  end.

End WithSettings.

End UploadManager.

(** ** cli/streaming: stream_file *)

(** [while True: chunk = f.read(size); if not chunk: break; yield chunk]:
    the chunks the generator yields, in order. *)
Equations? read_chunks (size : nat) (f : BinaryIO) : list (list Byte.byte)
  by wf (length (buf f) - pos f)%nat lt :=
  read_chunks size f with inspect (fst (read size f)) => {
    | exist _ nil _ => nil;
    | exist _ (cons c cs) E =>
        cons (cons c cs) (read_chunks size (snd (read size f))) }.
Proof.
  unfold read in *; cbn [fst snd buf pos] in *.
  pose proof (f_equal length E) as Hl.
  rewrite length_take, length_drop in Hl.
  rewrite E. cbn [length] in *. lia.
Qed.

(** The length [f.read(n)] reads for an integer [n], on a buffered
    binary file: [-1] reads to the end of the file, which is a read of as
    many bytes as the file holds; a length below [-1] is refused with a
    [ValueError]. *)
Definition read_size (n : Z) (f : BinaryIO) : exn + nat :=
  if n <? -1 then
    inl (Exn ValueError
           (Text (lit "read length must be non-negative or -1")))
  else if n <? 0 then inr (length (buf f))
  else inr (Z.to_nat n).

(** The chunks [stream_file(file_path, chunk_size)] yields.  The length
    is the same at every turn of the loop, so a length that [read]
    refuses is refused at the first turn, before any chunk is yielded. *)
Definition stream_file (file_path : apath) (chunk_size : Z)
  : SE world (list (list Byte.byte)) :=
  f <- MediaHandler.open_rb file_path ;;
  size <- lift (read_size chunk_size f) ;;
  ret (read_chunks size f).

(** ** utils/quill_delta *)

(** The values of a decoded JSON payload. *)
#[local] Unset Elimination Schemes.
Inductive pyval :=
  | PNone
  | PBool (b : bool)
  | PInt (n : Z)
  | PStr (s : list N)
  | PList (l : list pyval)
  | PDict (d : gmap (list N) pyval).
#[local] Set Elimination Schemes.

Module QuillDelta.

(** The text an op inserts, if it inserts text. *)
Definition inserted_text (op : pyval) : option (list N) :=
  match op with
  | PDict op =>
      match op !! lit "insert" with
      | Some (PStr insert) => Some insert
      | _ => None
      end
  | _ => None
  end.

Definition extract_plain_text (delta : pyval) : list N :=
  match delta with
  | PDict delta =>
      match delta !! lit "ops" with
      | Some (PList ops) => concat (omap inserted_text ops)
      | _ => []
      end
  | _ => []
  end.

Definition wrap_plain_text (text : option (list N)) : pyval :=
  let safe_text := default [] text in
  if bool_decide (safe_text ≠ []) then
    PDict {[ lit "ops" :=
               PList [PDict {[ lit "insert" := PStr safe_text ]}] ]}
  else PDict {[ lit "ops" := PList [] ]}.

Definition media_keys : list (list N) :=
  [lit "image"; lit "video"; lit "audio"].

(** Replace IDs *)
Definition replace_ids (id_map : gmap (list N) (list N))
  (insert : gmap (list N) pyval) : gmap (list N) pyval :=
  foldl (λ updated_insert key,
           match updated_insert !! key with
           | Some (PStr value) =>
               match id_map !! value with
               | Some new => <[key := PStr new]> updated_insert
               | None => updated_insert
               end
           | _ => updated_insert
           end) insert media_keys.

(** The loop that looks for the first media key of an embed, in the
    order image, video, audio: the dictionary [sanitized] when one is
    found. *)
Fixpoint first_media (updated_insert : gmap (list N) pyval)
  (keys : list (list N)) : option (gmap (list N) pyval) :=
  match keys with
  | [] => None
  | key :: keys' =>
      match updated_insert !! key with
      | Some v => Some {[ key := v ]}
      | None => first_media updated_insert keys'
      end
  end.

(** Sanitize: ensure only one key remains.  An embed with several keys
    and no media key is left as it is. *)
Definition sanitize_embed (updated_insert : gmap (list N) pyval)
  : gmap (list N) pyval :=
  if bool_decide (1 < size updated_insert)%nat then
    match first_media updated_insert media_keys with
    | Some sanitized => sanitized
    | None => updated_insert
    end
  else updated_insert.

(** One turn of the loop over the ops. *)
Definition update_op (id_map : gmap (list N) (list N)) (op : pyval)
  : pyval :=
  match op with
  | PDict o =>
      match o !! lit "insert" with
      | Some (PDict insert) =>
          let updated_insert := sanitize_embed (replace_ids id_map insert) in
          PDict (<[lit "insert" := PDict updated_insert]> o)
      | _ => op
      end
  | _ => op
  end.

Definition replace_media_ids (delta : pyval)
  (id_map : gmap (list N) (list N)) : pyval :=
  match delta with
  | PDict delta =>
      match delta !! lit "ops" with
      | Some (PList ops) =>
          PDict {[ lit "ops" := PList (update_op id_map <$> ops) ]}
      | _ => PDict {[ lit "ops" := PList [] ]}
      end
  | _ => PDict {[ lit "ops" := PList [] ]}
  end.

End QuillDelta.

(** ** import_export/progress_utils *)

Module ProgressUtils.

(** The attributes of the job record the callback reads and writes. *)
Record Job := {
  processed_items : Z;
  total_items : Z;
  progress : option Z
}.

(** The job, the snapshots committed to the database so far, and the
    three variables of the closure. *)
Record tracker := Tracker {
  job : Job;
  committed : list Job;
  last_committed_progress : Z;
  last_committed_percentage : Z;
  zero_total_committed : bool
}.

Section WithJobModel.
(** [job.set_progress], a method of the job model. *)
Context (set_progress : Z → Job → Job).
(** [int(processed / total * progress_range)] in floating point. *)
Context (scaled : Z → Z → Z → Z).

(** [job.progress or start_progress] *)
Definition progress_or (j : Job) (start_progress : Z) : Z :=
  match progress j with
  | Some p => if p =? 0 then start_progress else p
  | None => start_progress
  end.

(** The state of a new callback. *)
Definition create_throttled_progress_callback (j : Job) (db : list Job)
  (start_progress : Z) : tracker :=
  Tracker j db 0 start_progress false.

Definition handle_progress
  (start_progress end_progress commit_interval percentage_threshold : Z)
  (processed total : Z) (t : tracker) : tracker :=
  let progress_range := end_progress - start_progress in
  let j := {| processed_items := processed; total_items := total;
              progress := progress (job t) |} in
  if 0 <? total then
    (* Reset zero_total flag when we have a valid total *)
    let zero_total_committed := false in
    (* Calculate progress within the range *)
    let calculated_progress :=
      start_progress + scaled processed total progress_range in
    (* Ensure progress never decreases *)
    let current_progress := progress_or j start_progress in
    let new_progress := Z.max current_progress calculated_progress in
    (* Clamp to end_progress to avoid exceeding range *)
    let new_progress := Z.min new_progress end_progress in
    let j := set_progress new_progress j in
    let should_commit :=
      (commit_interval <=? processed - last_committed_progress t)
      || (percentage_threshold
          <=? new_progress - last_committed_percentage t)
      || (processed =? total) in
    if should_commit then
      Tracker j (committed t ++ [j]) processed new_progress
        zero_total_committed
    else
      Tracker j (committed t) (last_committed_progress t)
        (last_committed_percentage t) zero_total_committed
  else
    (* No total yet, ensure we are at least at start_progress.
       Only commit once for zero-total case *)
    if negb (zero_total_committed t) then
      let current_progress := progress_or j start_progress in
      let j := if current_progress <? start_progress
               then set_progress start_progress j else j in
      Tracker j (committed t ++ [j]) (last_committed_progress t)
        (last_committed_percentage t) true
    else
      Tracker j (committed t) (last_committed_progress t)
        (last_committed_percentage t) (zero_total_committed t).

(** The callback called on a sequence of (processed, total) pairs. *)
Definition handle_all
  (start_progress end_progress commit_interval percentage_threshold : Z)
  (calls : list (Z * Z)) (t : tracker) : tracker :=
  foldl (λ t c, handle_progress start_progress end_progress
                  commit_interval percentage_threshold c.1 c.2 t)
        t calls.

End WithJobModel.

End ProgressUtils.

(** ** MediaHandler: the table of supported types *)

Module MediaTypes.

(** Extension to MIME type mapping *)
Definition MIME_TYPE_MAP : list (list N * list N) :=
  [ (lit ".jpg", lit "image/jpeg"); (lit ".jpeg", lit "image/jpeg");
    (lit ".png", lit "image/png"); (lit ".gif", lit "image/gif");
    (lit ".webp", lit "image/webp"); (lit ".bmp", lit "image/bmp");
    (lit ".tiff", lit "image/tiff"); (lit ".svg", lit "image/svg+xml");
    (lit ".heic", lit "image/heic");
    (lit ".mp4", lit "video/mp4"); (lit ".avi", lit "video/x-msvideo");
    (lit ".mov", lit "video/quicktime"); (lit ".webm", lit "video/webm");
    (lit ".mkv", lit "video/x-matroska"); (lit ".flv", lit "video/x-flv");
    (lit ".m4v", lit "video/x-m4v"); (lit ".wmv", lit "video/x-ms-wmv");
    (lit ".mp3", lit "audio/mpeg"); (lit ".wav", lit "audio/wav");
    (lit ".ogg", lit "audio/ogg"); (lit ".m4a", lit "audio/mp4");
    (lit ".aac", lit "audio/aac"); (lit ".flac", lit "audio/flac");
    (lit ".wma", lit "audio/x-ms-wma") ].

(** [set(cls.MIME_TYPE_MAP.values())], as the list of the values *)
Definition get_supported_mime_types : list (list N) := MIME_TYPE_MAP.*2.

Definition is_supported_media_type (P : Platform)
  (mime_type : option (list N)) : bool :=
  match mime_type with
  | None => false
  | Some mime_type =>
      if bool_decide (mime_type = []) then false
      else
        let supported_types := get_supported_mime_types in
        bool_decide (str_lower P mime_type ∈ supported_types)
  end.

(** [guess_media_type(filename)]: the guessed type and the lower-case
    extension, each of which may be missing. *)
Definition guess_media_type (P : Platform) (filename : list N)
  : option (list N) * option (list N) :=
  let mime_type := guess_type P filename in
  let extension := str_lower P (name_suffix (path_name filename)) in
  (mime_type, if bool_decide (extension = []) then None else Some extension).

End MediaTypes.

(** ** More sample data *)

Module Fixtures.
Import Sample.

(** An [extractall] that writes nothing. *)
Definition no_extractall (entries : list ZipInfo) (d : list (list N))
  : SE world unit := ret tt.

(** A reader that finds one member, [data.json], in every file. *)
Definition one_member (d : list Byte.byte) : archive :=
  inr [member "data.json" d].

(** A reader that finds no archive in any file. *)
Definition no_archive (d : list Byte.byte) : archive :=
  inl (Exn BadZipFile (Text (lit "File is not a zip file"))).

Definition upload (name : string) (d : list Byte.byte)
  : UploadManager.UploadFile :=
  {| UploadManager.upload_filename := Some (lit name);
     UploadManager.upload_file := Stream d 0 |}.

(** A platform whose libmagic answers with the empty string. *)
Definition platform_with_empty_magic : Platform := {|
  str_lower := ascii_lower;
  magic_from_file := λ _ _, inr [];
  guess_type := guess;
  stat_fault := λ _, None;
  unlink_fault := λ _, None;
  dir_st_size := 4096;
  allowed_media_types := [lit "image/*"; lit "video/*"; lit "audio/*"];
  allowed_file_extensions := [lit ".jpg"; lit ".png"; lit ".mp4"]
|}.

(** A setter that stores the progress it is given. *)
Definition store_progress (n : Z) (j : ProgressUtils.Job)
  : ProgressUtils.Job :=
  {| ProgressUtils.processed_items := ProgressUtils.processed_items j;
     ProgressUtils.total_items := ProgressUtils.total_items j;
     ProgressUtils.progress := Some n |}.

(** Integer scaling in place of the floating point one. *)
Definition scaled_floor (processed total range : Z) : Z :=
  processed * range / total.

Definition new_job : ProgressUtils.Job :=
  {| ProgressUtils.processed_items := 0;
     ProgressUtils.total_items := 0;
     ProgressUtils.progress := None |}.

End Fixtures.

(** * Properties *)

(** ** Strings *)

Section StringFacts.
Implicit Types (s w chars : list N) (c sep : N).

Lemma split_on_nonempty sep s : split_on sep s ≠ [].
Proof.
  destruct s as [|c s]; simpl; [done|].
  destruct (N.eqb c sep); [done|]. by destruct (split_on sep s).
Qed.

Lemma split_on_no_sep sep s w : w ∈ split_on sep s → sep ∉ w.
Proof.
  revert w. induction s as [|c s IH]; simpl; intros w Hw.
  - apply list_elem_of_singleton in Hw as ->. apply not_elem_of_nil.
  - destruct (N.eqb_spec c sep) as [->|Hne].
    + apply elem_of_cons in Hw as [->|Hw]; [apply not_elem_of_nil|by apply IH].
    + destruct (split_on sep s) as [|w0 ws] eqn:E.
      * apply list_elem_of_singleton in Hw as ->.
        rewrite list_elem_of_singleton. congruence.
      * apply elem_of_cons in Hw as [->|Hw].
        -- rewrite not_elem_of_cons. split; [congruence|].
           apply IH. left.
        -- apply IH. by right.
Qed.

Lemma split_on_id sep s : sep ∉ s → split_on sep s = [s].
Proof.
  induction s as [|c s IH]; simpl; intros Hs; [done|].
  apply not_elem_of_cons in Hs as [Hc Hs].
  destruct (N.eqb_spec c sep) as [->|_]; [done|]. by rewrite IH.
Qed.

Lemma lstrip_suffix chars s : lstrip chars s `suffix_of` s.
Proof.
  induction s as [|c s IH]; simpl; [done|].
  case_bool_decide; [by apply suffix_cons_r|done].
Qed.

Lemma lstrip_head chars s c : head (lstrip chars s) = Some c → c ∉ chars.
Proof.
  induction s as [|x s IH]; simpl; [done|].
  case_bool_decide; [done|]. simpl. congruence.
Qed.

Lemma lstrip_id chars s :
  (∀ c, head s = Some c → c ∉ chars) → lstrip chars s = s.
Proof.
  destruct s as [|x s]; simpl; [done|]. intros H.
  rewrite bool_decide_false; [done|]. by apply H.
Qed.

Lemma rstrip_prefix chars s : rstrip chars s `prefix_of` s.
Proof.
  unfold rstrip. destruct (lstrip_suffix chars (reverse s)) as [k Hk].
  exists (reverse k). apply (inj reverse).
  by rewrite reverse_app, !reverse_involutive.
Qed.

Lemma rstrip_last chars s c : last (rstrip chars s) = Some c → c ∉ chars.
Proof.
  unfold rstrip. rewrite last_reverse. apply lstrip_head.
Qed.

Lemma rstrip_id chars s :
  (∀ c, last s = Some c → c ∉ chars) → rstrip chars s = s.
Proof.
  intros H. unfold rstrip. rewrite lstrip_id, reverse_involutive; [done|].
  intros c. rewrite head_reverse. apply H.
Qed.

Lemma str_strip_id chars s : trimmed chars s → str_strip chars s = s.
Proof.
  intros [Hh Hl]. unfold str_strip. by rewrite lstrip_id, rstrip_id.
Qed.

Lemma str_strip_trimmed chars s : trimmed chars (str_strip chars s).
Proof.
  unfold str_strip. split; intros c Hc.
  - destruct (rstrip_prefix chars (lstrip chars s)) as [k Hk].
    destruct (rstrip chars (lstrip chars s)) as [|x r] eqn:E; [done|].
    simpl in Hc. injection Hc as ->.
    apply (lstrip_head chars s). by rewrite Hk.
  - by apply rstrip_last in Hc.
Qed.

Lemma str_strip_sublist chars s ch : ch ∈ str_strip chars s → ch ∈ s.
Proof.
  unfold str_strip. intros H.
  destruct (rstrip_prefix chars (lstrip chars s)) as [k Hk].
  destruct (lstrip_suffix chars s) as [k' Hk'].
  rewrite Hk', Hk. set_solver.
Qed.

Lemma rfind_None c s : rfind c s = None ↔ c ∉ s.
Proof.
  induction s as [|x s IH]; simpl.
  - split; [intros _; apply not_elem_of_nil|done].
  - rewrite not_elem_of_cons. destruct (rfind c s) as [i|].
    + split; [done|]. intros [_ H]. by apply IH in H.
    + destruct (N.eqb_spec x c) as [->|Hne].
      * split; [done|]. by intros [? _].
      * split; [|done]. intros _. split; [congruence|]. by apply IH.
Qed.

Lemma rfind_Some c s i : rfind c s = Some i → s !! i = Some c.
Proof.
  revert i. induction s as [|x s IH]; simpl; intros i; [done|].
  destruct (rfind c s) as [j|].
  - intros [= <-]. simpl. by apply IH.
  - destruct (N.eqb_spec x c) as [->|Hne]; [|done]. by intros [= <-].
Qed.

Lemma name_stem_suffix s : name_stem s ++ name_suffix s = s.
Proof.
  unfold name_stem, name_suffix. destruct (rfind ch_dot s) as [i|].
  - case_bool_decide; [apply take_drop|apply app_nil_r].
  - apply app_nil_r.
Qed.

(** A trimmed name that contains a dot has an extension. *)
Lemma name_suffix_nil_no_dot s :
  trimmed [ch_dot; ch_space] s → name_suffix s = [] → ch_dot ∉ s.
Proof.
  intros [Hh Hl] Hs. unfold name_suffix in Hs.
  destruct (rfind ch_dot s) as [i|] eqn:E; [|by apply rfind_None].
  exfalso. pose proof (rfind_Some _ _ _ E) as Hi.
  pose proof (lookup_lt_Some _ _ _ Hi) as Hlt.
  case_bool_decide as Hb.
  - apply (f_equal length) in Hs. rewrite length_drop in Hs. simpl in Hs. lia.
  - assert (i = 0 ∨ i = length s - 1)%nat as [->| ->] by lia.
    + destruct s as [|x s]; [done|]. simpl in Hi. injection Hi as ->.
      apply (Hh ch_dot); [done|]. set_solver.
    + replace (length s - 1)%nat with (pred (length s)) in Hi by lia.
      rewrite <- last_lookup in Hi.
      apply (Hl ch_dot); [done|]. set_solver.
Qed.

Lemma name_suffix_head s c :
  head (name_suffix s) = Some c → c = ch_dot.
Proof.
  unfold name_suffix. destruct (rfind ch_dot s) as [i|] eqn:E; [|done].
  case_bool_decide; [|done].
  rewrite head_lookup, lookup_drop, Nat.add_0_r.
  rewrite (rfind_Some _ _ _ E). congruence.
Qed.

Lemma name_suffix_stem_nonempty s :
  name_suffix s ≠ [] → name_stem s ≠ [].
Proof.
  unfold name_suffix, name_stem. destruct (rfind ch_dot s) as [i|]; [|done].
  case_bool_decide as Hb; [|done]. intros _ Ht.
  apply (f_equal length) in Ht. rewrite length_take in Ht. simpl in Ht. lia.
Qed.

End StringFacts.

(** ** sanitize_filename *)

Section Sanitize.
Import MediaHandler.
Implicit Types (s c r : list N).

Lemma sanitize_filename_unfold s :
  sanitize_filename s = limit_length (cleaned_name s).
Proof. reflexivity. Qed.

(** Replacing characters one after the other is the same as substituting
    all of them at once, when the replacement is not itself replaced. *)
Lemma replace_all_fmap (ds : list N) (new : N) s :
  new ∉ ds →
  foldl (λ filename char, replace_char char new filename) s ds
  = (λ ch, if bool_decide (ch ∈ ds) then new else ch) <$> s.
Proof.
  revert s. induction ds as [|d ds IH]; intros s Hnew; cbn [foldl].
  - rewrite <- (list_fmap_id s) at 1. apply list_fmap_ext.
    intros _ ch _. rewrite bool_decide_false; [done|apply not_elem_of_nil].
  - apply not_elem_of_cons in Hnew as [Hd Hds].
    rewrite IH by done. unfold replace_char.
    rewrite <- list_fmap_compose. apply list_fmap_ext. intros _ ch _.
    unfold compose. destruct (N.eqb_spec ch d) as [->|Hne].
    + rewrite bool_decide_false by done.
      rewrite bool_decide_true; [done|left].
    + destruct (decide (ch ∈ ds)) as [Hin|Hout].
      * rewrite !bool_decide_true; [done|by right|done].
      * rewrite !bool_decide_false; [done| |done].
        rewrite not_elem_of_cons. done.
Qed.

Lemma underscore_safe : ch_underscore ∉ dangerous_chars.
Proof.
  unfold dangerous_chars, ch_underscore.
  rewrite !elem_of_cons, elem_of_nil. intuition discriminate.
Qed.

Lemma replace_dangerous_fmap s :
  foldl (λ filename char, replace_char char ch_underscore filename)
        s dangerous_chars = subst_dangerous <$> s.
Proof. apply replace_all_fmap, underscore_safe. Qed.

Lemma subst_dangerous_safe ch : subst_dangerous ch ∉ dangerous_chars.
Proof.
  unfold subst_dangerous. case_bool_decide; [|done].
  apply underscore_safe.
Qed.

Lemma subst_dangerous_id ch : ch ∉ dangerous_chars → subst_dangerous ch = ch.
Proof. intros H. unfold subst_dangerous. by rewrite bool_decide_false. Qed.

Lemma unnamed_clean : clean (lit "unnamed").
Proof.
  split; [done|]. split; [|split].
  - apply Forall_forall. intros ch Hch Hd. revert Hch Hd. vm_compute lit.
    unfold dangerous_chars. rewrite !elem_of_cons, !elem_of_nil.
    intros [->|[->|[->|[->|[->|[->|[->|[]]]]]]]]; intuition discriminate.
  - split; intros ch [= <-]; rewrite !elem_of_cons, elem_of_nil;
      intuition discriminate.
  - vm_compute. lia.
Qed.

(** What holds of the name before the length limit. *)
Lemma cleaned_name_props s :
  let c := cleaned_name s in
  c ≠ [] ∧ Forall (λ ch, ch ∉ dangerous_chars) c
  ∧ trimmed [ch_dot; ch_space] c.
Proof.
  unfold cleaned_name. cbv zeta. rewrite replace_dangerous_fmap.
  change (lit ". ") with [ch_dot; ch_space].
  case_bool_decide as He.
  - destruct unnamed_clean as (? & ? & ? & _). done.
  - split; [done|]. split; [|apply str_strip_trimmed].
    apply Forall_forall. intros ch Hch.
    apply str_strip_sublist in Hch.
    apply list_elem_of_fmap in Hch as (x & -> & _).
    apply subst_dangerous_safe.
Qed.

Lemma slash_dangerous : ch_slash ∈ dangerous_chars.
Proof. unfold dangerous_chars, ch_slash. set_solver. Qed.

Lemma path_name_id c :
  c ≠ [] → Forall (λ ch, ch ∉ dangerous_chars) c
  → trimmed [ch_dot; ch_space] c → path_name c = c.
Proof.
  intros Hne Hsafe [Hh _]. unfold path_name, pure_parts.
  rewrite split_on_id.
  - rewrite filter_cons_True; [done|]. split; [done|].
    intros ->. apply (Hh ch_dot); [done|]. set_solver.
  - intros Hin. rewrite Forall_forall in Hsafe.
    apply (Hsafe _ Hin), slash_dangerous.
Qed.

(** A clean name is a fixed point. *)
Lemma sanitize_filename_clean r : clean r → sanitize_filename r = r.
Proof.
  intros (Hne & Hsafe & Htrim & Hlen).
  rewrite sanitize_filename_unfold.
  assert (cleaned_name r = r) as ->.
  { unfold cleaned_name. cbv zeta. rewrite path_name_id by done.
    rewrite replace_dangerous_fmap.
    assert (subst_dangerous <$> r = r) as ->.
    { rewrite <- (list_fmap_id r) at 2. apply list_fmap_ext.
      intros i ch Hi. apply subst_dangerous_id.
      rewrite Forall_forall in Hsafe. apply Hsafe.
      by apply list_elem_of_lookup_2 in Hi. }
    change (lit ". ") with [ch_dot; ch_space].
    rewrite str_strip_id by done. by rewrite bool_decide_false. }
  unfold limit_length.
  destruct (Z.gtb_spec (Z.of_nat (length r)) 255); [lia|done].
Qed.

Lemma limit_length_short c : (length c ≤ 255)%nat → limit_length c = c.
Proof.
  intros H. unfold limit_length.
  destruct (Z.gtb_spec (Z.of_nat (length c)) 255); [lia|done].
Qed.

Lemma limit_length_long c :
  c ≠ [] → Forall (λ ch, ch ∉ dangerous_chars) c
  → trimmed [ch_dot; ch_space] c → (255 < length c)%nat →
  limit_length c =
    slice_to (255 - Z.of_nat (length (name_suffix c))) (name_stem c)
    ++ name_suffix c.
Proof.
  intros Hne Hsafe Htrim H. unfold limit_length.
  rewrite path_name_id by done.
  destruct (Z.gtb_spec (Z.of_nat (length c)) 255); [done|lia].
Qed.

Lemma limit_length_clean c :
  c ≠ [] → Forall (λ ch, ch ∉ dangerous_chars) c
  → trimmed [ch_dot; ch_space] c → limit_is_clean c
  → clean (limit_length c).
Proof.
  intros Hne Hsafe Htrim Hcond.
  destruct (decide (length c ≤ 255)%nat) as [Hshort|Hlong].
  { rewrite limit_length_short by done. done. }
  destruct Hcond as [?|Hcond]; [lia|].
  rewrite limit_length_long by (done || lia).
  pose proof (name_stem_suffix c) as Hsplit.
  pose proof (f_equal length Hsplit) as Hlen. rewrite length_app in Hlen.
  destruct Htrim as [Hh Hl].
  destruct Hcond as [[Hs1 Hs2]|[Hnil H254]].
  - (* an extension of 1 to 254 characters *)
    unfold slice_to.
    destruct (Z.leb_spec 0 (255 - Z.of_nat (length (name_suffix c))));
      [|lia].
    remember (Z.to_nat (255 - Z.of_nat (length (name_suffix c)))) as m
      eqn:Em.
    assert (Hm : (0 < m < length (name_stem c))%nat) by lia.
    destruct (name_stem c) as [|x stem] eqn:Est; [simpl in Hm; lia|].
    destruct m as [|m']; [lia|].
    split; [done|]. split; [|split; [split|]].
    + apply Forall_app. split.
      * apply Forall_take. rewrite <- Hsplit in Hsafe.
        by apply Forall_app in Hsafe as [? _].
      * rewrite <- Hsplit in Hsafe. by apply Forall_app in Hsafe as [_ ?].
    + intros ch Hch. apply Hh. rewrite <- Hsplit. exact Hch.
    + intros ch Hch. apply Hl. rewrite <- Hsplit.
      destruct (name_suffix c) as [|y suf] eqn:Esuf; [simpl in Hs1; lia|].
      rewrite last_app_cons in Hch. by rewrite last_app_cons.
    + rewrite length_app, length_take. lia.
  - (* no extension: the name holds no dot *)
    pose proof (name_suffix_nil_no_dot c (conj Hh Hl) Hnil) as Hdot.
    rewrite Hnil in *. rewrite app_nil_r in *. rewrite Hsplit.
    change (slice_to _ c) with (take 255%nat c).
    assert (Hlt : length (take 255%nat c) = 255%nat)
      by (rewrite length_take; lia).
    split; [|split; [|split; [split|]]].
    + intros E. rewrite E in Hlt. done.
    + by apply Forall_take.
    + intros ch Hch. apply Hh.
      rewrite head_lookup in Hch |- *.
      by rewrite lookup_take_lt in Hch by lia.
    + intros ch Hch.
      rewrite last_lookup, Hlt in Hch.
      rewrite lookup_take_lt in Hch by lia.
      change (Init.Nat.pred 255) with 254%nat in Hch.
      rewrite !not_elem_of_cons. split; [|split; [|apply not_elem_of_nil]].
      * intros ->. apply Hdot. by apply list_elem_of_lookup_2 in Hch.
      * intros ->. done.
    + lia.
Qed.

End Sanitize.

Section SanitizeClaims.
Import MediaHandler.
Implicit Types (s c r : list N).

Lemma cleaned_name_unfold s :
  cleaned_name s =
    let t := str_strip [ch_dot; ch_space] (subst_dangerous <$> path_name s) in
    if bool_decide (t = []) then lit "unnamed" else t.
Proof. unfold cleaned_name. cbv zeta. by rewrite replace_dangerous_fmap. Qed.

Lemma path_name_no_slash s : ch_slash ∉ path_name s.
Proof.
  unfold path_name, pure_parts.
  destruct (filter _ (split_on ch_slash s)) as [|w ws] eqn:E using rev_ind.
  - simpl. apply not_elem_of_nil.
  - rewrite last_last. apply (split_on_no_sep ch_slash s).
    assert (Hin : w ∈ ws ++ [w]) by set_solver.
    rewrite <- E in Hin. by apply list_elem_of_filter in Hin as [_ ?].
Qed.

Lemma slice_to_prefix m s : slice_to m s `prefix_of` s.
Proof. unfold slice_to. destruct (0 <=? m); apply prefix_take. Qed.

Lemma utf8_len_ascii r :
  Forall (λ ch, (ch < 128)%N) r → utf8_len r = length r.
Proof.
  unfold utf8_len. induction 1 as [|ch r Hch _ IH]; [done|].
  cbn [fmap list_fmap sum_list length]. fold (fmap utf8_width r).
  rewrite IH. unfold utf8_width.
  destruct (N.ltb_spec ch 128); [done|lia].
Qed.

Lemma limit_length_props c :
  c ≠ [] → Forall (λ ch, ch ∉ dangerous_chars) c
  → trimmed [ch_dot; ch_space] c →
  limit_length c ≠ [] ∧ Forall (λ ch, ch ∉ dangerous_chars) (limit_length c).
Proof.
  intros Hne Hsafe Htrim.
  destruct (decide (length c ≤ 255)%nat) as [Hshort|Hlong].
  { by rewrite limit_length_short. }
  rewrite limit_length_long by (done || lia).
  pose proof (name_stem_suffix c) as Hsplit.
  set (m := 255 - Z.of_nat (length (name_suffix c))).
  destruct (slice_to_prefix m (name_stem c)) as [k Hk].
  split.
  - destruct (name_suffix c) as [|y suf] eqn:Esuf.
    + rewrite app_nil_r in *. subst m.
      change (slice_to _ (name_stem c)) with (take 255%nat (name_stem c)).
      rewrite Hsplit. intros E. apply (f_equal length) in E.
      rewrite length_take in E. cbn [length] in E. lia.
    + intros E. by apply app_eq_nil in E as [_ ?].
  - rewrite <- Hsplit, Hk in Hsafe.
    rewrite !Forall_app in Hsafe. apply Forall_app. tauto.
Qed.

(** C7 (as amended).  The name is the last path component, with every
    dangerous character replaced by an underscore and the leading and
    trailing dots and spaces removed, or [unnamed] when nothing is left;
    the result is never empty and holds no dangerous character; a name
    of at most 255 characters is returned as it is, and a longer one whose
    extension is shorter than 255 characters is cut to exactly 255
    characters by shortening the stem, the extension being kept.  The
    bound counts characters: it is a bound in bytes for ASCII names. *)
Theorem sanitize_filename_spec s :
  let name := path_name s in
  let stripped :=
    str_strip [ch_dot; ch_space] (subst_dangerous <$> name) in
  let c := if bool_decide (stripped = []) then lit "unnamed" else stripped in
  let r := sanitize_filename s in
  (ch_slash ∉ name)
  ∧ trimmed [ch_dot; ch_space] stripped
  ∧ r ≠ []
  ∧ Forall (λ ch, ch ∉ dangerous_chars) r
  ∧ ((length c ≤ 255)%nat → r = c)
  ∧ ((255 < length c)%nat → (length (name_suffix c) < 255)%nat →
       length r = 255%nat
       ∧ ∃ stem', stem' `prefix_of` name_stem c
                  ∧ r = stem' ++ name_suffix c)
  ∧ (Forall (λ ch, (ch < 128)%N) r → utf8_len r = length r).
Proof.
  intros name stripped c r.
  assert (Hc : cleaned_name s = c) by apply cleaned_name_unfold.
  assert (Hr : r = limit_length c).
  { unfold r. by rewrite sanitize_filename_unfold, Hc. }
  destruct (cleaned_name_props s) as (Hne & Hsafe & Htrim).
  cbv zeta in Hne, Hsafe, Htrim. rewrite Hc in Hne, Hsafe, Htrim.
  destruct (limit_length_props c Hne Hsafe Htrim) as [Hrne Hrsafe].
  split; [apply path_name_no_slash|].
  split; [apply str_strip_trimmed|].
  split; [by rewrite Hr|]. split; [by rewrite Hr|].
  split; [intros Hshort; by rewrite Hr, limit_length_short|].
  split; [|apply utf8_len_ascii].
  intros Hlong Hsuf. rewrite Hr, limit_length_long by done.
  pose proof (name_stem_suffix c) as Hsplit.
  pose proof (f_equal length Hsplit) as Hlen. rewrite length_app in Hlen.
  split.
  - unfold slice_to.
    destruct (Z.leb_spec 0 (255 - Z.of_nat (length (name_suffix c))));
      [|lia].
    rewrite length_app, length_take. lia.
  - eexists. split; [apply slice_to_prefix|done].
Qed.

(** C7 as stated fails: 128 copies of U+00E9 pass unchanged and take 256
    bytes in UTF-8. *)
Lemma sanitize_filename_exceeds_255_bytes :
  (255 < utf8_len (sanitize_filename (replicate 128 233%N)))%nat.
Proof. vm_compute. lia. Qed.

(** The length limit itself is missed when the extension is 255
    characters or longer: the stem bound turns negative. *)
Example sanitize_filename_long_extension :
  length (sanitize_filename (lit "a." ++ replicate 300 98%N)) = 301%nat.
Proof. vm_compute. reflexivity. Qed.

(** Where the length limit leaves a clean name a second pass changes
    nothing: on every input whose name, before the length limit, has at
    most 255 characters, or has an extension of 1 to 254 characters, or
    has no extension and no space as its 255th character. *)
Lemma sanitize_filename_idempotent s :
  limit_is_clean (cleaned_name s) →
  sanitize_filename (sanitize_filename s) = sanitize_filename s.
Proof.
  intros Hcond. apply sanitize_filename_clean.
  rewrite sanitize_filename_unfold.
  destruct (cleaned_name_props s) as (Hne & Hsafe & Htrim).
  by apply limit_length_clean.
Qed.

Lemma sanitize_filename_idempotent_witness :
  let s := replicate 300 97%N ++ lit ".txt" in
  limit_is_clean (cleaned_name s)
  ∧ sanitize_filename (sanitize_filename s) = sanitize_filename s.
Proof.
  intros s.
  assert (H : limit_is_clean (cleaned_name s)).
  { right. left. vm_compute. lia. }
  split; [exact H|]. exact (sanitize_filename_idempotent s H).
Defined.

(** C8.  The code breaks the claim.  At a name of 254 letters, a space
    and one more letter the first pass cuts the name to 255 characters
    after it has removed leading and trailing dots and spaces, so that
    its result ends in a space; the second pass removes that space:
    [sanitize_filename] applied to its own output changes it. *)
Theorem sanitize_filename_not_idempotent :
  let s := replicate 254 97%N ++ lit " b" in
  sanitize_filename s = replicate 254 97%N ++ [ch_space]
  ∧ sanitize_filename (sanitize_filename s) = replicate 254 97%N
  ∧ sanitize_filename (sanitize_filename s) ≠ sanitize_filename s.
Proof.
  intros s. split; [vm_compute; reflexivity|].
  split; [vm_compute; reflexivity|].
  intros H. apply (f_equal length) in H. vm_compute in H. discriminate.
Qed.

End SanitizeClaims.

(** ** Checksums *)

Section Checksums.
Import MediaHandler.
Context (H : Hasher).
(** The contract of a [hashlib] object: feeding it piece by piece is
    feeding it the concatenation, and feeding it nothing changes nothing. *)
Hypothesis update_app :
  ∀ h a b, update H (update H h a) b = update H h (a ++ b).
Hypothesis update_nil : ∀ h, update H h [] = h.

Lemma take_drop_length {A} (n : nat) (l : list A) :
  take n l ++ drop (length (take n l)) l = l.
Proof.
  rewrite length_take. destruct (decide (n ≤ length l)%nat).
  - rewrite Nat.min_l by done. apply take_drop.
  - rewrite Nat.min_r by lia. rewrite take_ge by lia.
    rewrite drop_all. apply app_nil_r.
Qed.

(** The chunked loop feeds the rest of the stream and leaves the position
    at the end (or where it was, if that was already beyond the end). *)
Lemma update_from_spec (size : nat) h f :
  (0 < size)%nat →
  update_from H size h f =
    (update H h (drop (pos f) (buf f)),
     Stream (buf f) (pos f `max` length (buf f))).
Proof.
  intros Hsize. funelim (update_from H size h f).
  - (* the read returned nothing *)
    clear Heqcall.
    match goal with E : fst (read _ _) = [] |- _ => rename E into Hread end.
    unfold read in *. cbn [fst snd] in *.
    assert (Hd : drop (pos f) (buf f) = []).
    { destruct (drop (pos f) (buf f)) eqn:Ed; [done|].
      destruct size; [lia|]. discriminate Hread. }
    rewrite Hd, update_nil. f_equal.
    apply (f_equal length) in Hd. rewrite length_drop in Hd.
    rewrite take_nil. cbn [length] in *. f_equal. lia.
  - (* a chunk was read *)
    clear Heqcall.
    match goal with
    | IH : _ → update_from _ _ _ _ = (_, _) |- _ =>
        rewrite IH by done; clear IH
    end.
    match goal with
    | E : fst (read _ _) = _ :: _ |- _ => rename E into Hread
    end.
    unfold read in *. cbn [fst snd buf pos] in *.
    rewrite Hread. rewrite update_app. f_equal.
    + f_equal. rewrite <- Hread, <- drop_drop. apply take_drop_length.
    + f_equal. pose proof (f_equal length Hread) as Hl.
      rewrite length_take, length_drop in Hl. cbn [length] in *. lia.
Qed.

Lemma chunk_size_pos : (0 < chunk_size)%nat.
Proof. unfold chunk_size. lia. Qed.

(** C6.  The checksum of a file is the same computed from its path, from
    its bytes and from a stream over its bytes at any position, and the
    stream is handed back at the position it came with. *)
Theorem checksum_agreement (w : world) (file_path : list (list N))
  (content : list Byte.byte) (position : nat) :
  node_at (fs w) file_path = Some (File content) →
  let stream := Stream content position in
  calculate_checksum H file_path w
    = (w, inr (calculate_checksum_from_bytes H content))
  ∧ fst (calculate_checksum_from_stream H stream)
    = calculate_checksum_from_bytes H content
  ∧ snd (calculate_checksum_from_stream H stream) = stream.
Proof.
  intros Hfile stream. repeat split.
  - unfold calculate_checksum, open_rb, bind, get_state, ret.
    rewrite Hfile. rewrite update_from_spec by apply chunk_size_pos. done.
  - unfold calculate_checksum_from_stream.
    rewrite update_from_spec by apply chunk_size_pos. done.
  - unfold calculate_checksum_from_stream.
    rewrite update_from_spec by apply chunk_size_pos. done.
Qed.

End Checksums.

Lemma checksum_agreement_witness :
  let w := World {[ [lit "a.bin"] := File [Byte.x01; Byte.x02; Byte.x03] ]} [] in
  let stream := Stream [Byte.x01; Byte.x02; Byte.x03] 2 in
  MediaHandler.calculate_checksum collecting_hasher [lit "a.bin"] w
    = (w, inr (MediaHandler.calculate_checksum_from_bytes collecting_hasher
                 [Byte.x01; Byte.x02; Byte.x03]))
  ∧ fst (MediaHandler.calculate_checksum_from_stream collecting_hasher stream)
    = MediaHandler.calculate_checksum_from_bytes collecting_hasher
        [Byte.x01; Byte.x02; Byte.x03]
  ∧ snd (MediaHandler.calculate_checksum_from_stream collecting_hasher stream)
    = stream.
Proof.
  intros w stream.
  apply (checksum_agreement collecting_hasher
           (λ h a b, eq_sym (app_assoc h a b)) (λ h, app_nil_r h)
           w [lit "a.bin"] [Byte.x01; Byte.x02; Byte.x03] 2%nat).
  vm_compute. reflexivity.
Defined.

(** ** validate_media and detect_mime *)

Section MediaValidation.
Import MediaHandler.
Context (P : Platform).
Implicit Types (w : world) (file_path : list (list N)).

Lemma validate_media_type_spec (mime_type : list N) allowed_types :
  validate_media_type mime_type allowed_types = true ↔
    mime_type ≠ []
    ∧ (mime_type ∈ allowed_types
       ∨ List.hd [] (split_on ch_slash mime_type) ++ lit "/*"
           ∈ allowed_types).
Proof.
  unfold validate_media_type.
  destruct (decide (mime_type = [])) as [->|Hne].
  { rewrite bool_decide_true by done. split; [done|]. by intros [? _]. }
  rewrite bool_decide_false by done.
  destruct (decide (mime_type ∈ allowed_types)) as [Hin|Hout].
  { rewrite bool_decide_true by done. split; [|done]. intros _.
    split; [done|by left]. }
  rewrite bool_decide_false by done. rewrite bool_decide_eq_true.
  split; [intros ?; split; [done|by right]|].
  intros [_ [?|?]]; done.
Qed.

(** The checks, with the monad unfolded. *)
Lemma validate_media_checks_unfold file_path (max_size_mb : Z)
  (allowed_types allowed_extensions : list (list N)) w :
  validate_media_checks P file_path max_size_mb allowed_types
    allowed_extensions w =
  match stat_fault P file_path with
  | Some e => (w, inl e)
  | None =>
      match node_at (fs w) file_path with
      | None =>
          (w, inr (false, lit "unknown", lit "not_found",
                   FileNotFound file_path))
      | Some n =>
          if negb (validate_file_size (node_size P n) max_size_mb) then
            (w, inr (false, lit "unknown", lit "size",
                     SizeExceeds max_size_mb))
          else
            let mime := detect_mime P file_path w in
            let ext := str_lower P (name_suffix (List.last file_path [])) in
            if negb (validate_media_type mime allowed_types) then
              (w, inr (false, mime, lit "format", MimeNotAllowed mime))
            else if negb (bool_decide (allowed_extensions = []))
                    && negb (bool_decide (ext ∈ allowed_extensions)) then
              (w, inr (false, mime, lit "extension",
                       ExtensionNotAllowed ext))
            else (w, inr (true, mime, lit "none", FileIsValid))
      end
  end.
Proof.
  cbv beta iota zeta delta
    [validate_media_checks path_exists stat_size os_stat bind get_state
     ret raise].
  destruct (stat_fault P file_path); [done|]. cbv beta iota.
  destruct (node_at (fs w) file_path) as [n|] eqn:En; cbv beta iota.
  - rewrite (bool_decide_true (is_Some (Some n))) by (by eexists).
    cbn [negb]. cbv beta iota. rewrite En.
    destruct (validate_file_size _ _); cbn [negb]; cbv beta iota;
      try done;
      destruct (validate_media_type (detect_mime P file_path w) _);
      cbn [negb]; cbv beta iota; try done;
      destruct (_ && _); done.
  - rewrite (bool_decide_false (is_Some None)); [done|]. by intros [? ?].
Qed.

(** C5.  The checks run in the order existence, size, detected type,
    extension; the first one that fails decides the category; a file
    that passes all of them is valid and carries the detected type; an
    exception raised by a check is turned into the category [error]. *)
Theorem validate_media_ordered_checks file_path (max_size_mb : Z)
  (allowed_types allowed_extensions : list (list N)) w :
  let result :=
    validate_media P file_path max_size_mb allowed_types
      allowed_extensions w in
  let mime := detect_mime P file_path w in
  let ext := str_lower P (name_suffix (List.last file_path [])) in
  (∀ w' e,
     validate_media_checks P file_path max_size_mb allowed_types
       allowed_extensions w = (w', inl e) →
     result = (false, lit "unknown", lit "error",
               ValidationFailed (exn_msg e)))
  ∧ (∀ e, stat_fault P file_path = Some e →
       result = (false, lit "unknown", lit "error",
                 ValidationFailed (exn_msg e)))
  ∧ (stat_fault P file_path = None →
     (node_at (fs w) file_path = None →
        result = (false, lit "unknown", lit "not_found",
                  FileNotFound file_path))
     ∧ ∀ n, node_at (fs w) file_path = Some n →
         let size := node_size P n in
         (size > max_size_mb * 1024 * 1024 →
            result = (false, lit "unknown", lit "size",
                      SizeExceeds max_size_mb))
         ∧ (size ≤ max_size_mb * 1024 * 1024 →
            (validate_media_type mime allowed_types = false →
               result = (false, mime, lit "format", MimeNotAllowed mime))
            ∧ (validate_media_type mime allowed_types = true →
               (allowed_extensions ≠ [] ∧ ext ∉ allowed_extensions →
                  result = (false, mime, lit "extension",
                            ExtensionNotAllowed ext))
               ∧ (allowed_extensions = [] ∨ ext ∈ allowed_extensions →
                  result = (true, mime, lit "none", FileIsValid)))))
  ∧ (∀ m, validate_media_type m allowed_types = true ↔
       m ≠ []
       ∧ (m ∈ allowed_types
          ∨ List.hd [] (split_on ch_slash m) ++ lit "/*" ∈ allowed_types)).
Proof.
  intros result mime ext. subst result. unfold validate_media.
  split; [|split; [|split]].
  - intros w' e Hraise. by rewrite Hraise.
  - intros e He. by rewrite validate_media_checks_unfold, He.
  - intros He. rewrite validate_media_checks_unfold, He. split.
    + by intros ->.
    + intros n ->. fold mime. fold ext. cbv zeta.
      unfold validate_file_size. split.
      * intros Hbig.
        destruct (Z.leb_spec (node_size P n) (max_size_mb * 1024 * 1024));
          [lia|done].
      * intros Hok.
        destruct (Z.leb_spec (node_size P n) (max_size_mb * 1024 * 1024));
          [|lia].
        cbn [negb]. cbv zeta. fold mime. fold ext.
        split; [by intros ->|]. intros ->. cbn [negb]. split.
        -- intros [Hne Hout]. by rewrite !bool_decide_false.
        -- intros [-> | Hin].
           ++ by rewrite (bool_decide_true ([] = [])).
           ++ rewrite (bool_decide_true (ext ∈ allowed_extensions)) by done.
              by rewrite andb_false_r.
  - intros m. apply validate_media_type_spec.
Qed.

(** C10 (as amended).  [detect_mime] is total.  When content sniffing
    answers, the answer is returned as it is.  When sniffing is
    unavailable or raises, the result is the guess from the name, or the
    generic type if there is no guess or an empty one: it is never
    empty.  So the detected type is empty only if libmagic answers with
    the empty string.  [validate_media] reports the detected type
    whenever it reaches the type check; an empty type fails that check,
    so a file that passes it carries a non-empty type. *)
Theorem detect_mime_empty_only_if_sniffed_empty file_path w :
  (∀ m, magic_from_file P file_path (node_at (fs w) file_path) = inr m →
     detect_mime P file_path w = m)
  ∧ (∀ e, magic_from_file P file_path (node_at (fs w) file_path) = inl e →
       detect_mime P file_path w ≠ []
       ∧ (∀ m, guess_type P (path_str file_path) = Some m → m ≠ [] →
            detect_mime P file_path w = m)
       ∧ (guess_type P (path_str file_path) = None
          ∨ guess_type P (path_str file_path) = Some [] →
          detect_mime P file_path w = lit "application/octet-stream"))
  ∧ (detect_mime P file_path w = []
     ↔ magic_from_file P file_path (node_at (fs w) file_path) = inr [])
  ∧ (∀ max_size_mb allowed_types allowed_extensions,
       let r := validate_media P file_path max_size_mb allowed_types
                  allowed_extensions w in
       (r.1.2 ∈ [lit "format"; lit "extension"; lit "none"] →
          r.1.1.2 = detect_mime P file_path w)
       ∧ (r.1.2 ∈ [lit "extension"; lit "none"] → r.1.1.2 ≠ [])
       ∧ (r.1.2 ∈ [lit "format"; lit "extension"; lit "none"] →
          detect_mime P file_path w = [] →
          r = (false, [], lit "format", MimeNotAllowed []))).
Proof.
  assert (Hfall : ∀ e,
    magic_from_file P file_path (node_at (fs w) file_path) = inl e →
    detect_mime P file_path w ≠ []).
  { intros e He. unfold detect_mime. rewrite He.
    destruct (guess_type P _) as [m|]; [|done]. by case_bool_decide. }
  split; [|split; [|split]].
  - intros m Hm. unfold detect_mime. by rewrite Hm.
  - intros e He. split; [by eapply Hfall|].
    unfold detect_mime. rewrite He. split.
    + intros m -> Hm. by rewrite bool_decide_false.
    + intros [-> | ->]; done.
  - destruct (magic_from_file P file_path _) as [e|m] eqn:Em.
    + split; [|done]. intros Hd. by apply (Hfall e) in Hd.
    + unfold detect_mime. rewrite Em. split; [by intros ->|].
      by intros [= ->].
  - intros max_size_mb allowed_types allowed_extensions r.
    subst r. unfold validate_media.
    rewrite validate_media_checks_unfold.
    assert (Hno : ∀ x : list N,
              x = lit "error" ∨ x = lit "not_found" ∨ x = lit "size" →
              x ∈ [lit "format"; lit "extension"; lit "none"] → False).
    { intros x Hx Hin. rewrite !elem_of_cons, elem_of_nil in Hin.
      destruct Hx as [->|[->| ->]]; vm_compute in Hin;
        intuition discriminate. }
    assert (Hno' : ∀ x : list N,
              x = lit "error" ∨ x = lit "not_found" ∨ x = lit "size"
              ∨ x = lit "format" →
              x ∈ [lit "extension"; lit "none"] → False).
    { intros x Hx Hin. rewrite !elem_of_cons, elem_of_nil in Hin.
      destruct Hx as [->|[->|[->| ->]]]; vm_compute in Hin;
        intuition discriminate. }
    destruct (stat_fault P file_path).
    { cbn [fst snd]. split; [|split].
      - intros Hin. exfalso. eapply Hno; [|exact Hin]. eauto.
      - intros Hin. exfalso. eapply Hno'; [|exact Hin]. eauto.
      - intros Hin. exfalso. eapply Hno; [|exact Hin]. eauto. }
    destruct (node_at (fs w) file_path) as [n|].
    2:{ cbn [fst snd]. split; [|split].
      - intros Hin. exfalso. eapply Hno; [|exact Hin]. eauto.
      - intros Hin. exfalso. eapply Hno'; [|exact Hin]. eauto.
      - intros Hin. exfalso. eapply Hno; [|exact Hin]. eauto. }
    destruct (validate_file_size _ _); cbn [negb].
    2:{ cbn [fst snd]. split; [|split].
      - intros Hin. exfalso. eapply Hno; [|exact Hin]. eauto.
      - intros Hin. exfalso. eapply Hno'; [|exact Hin]. eauto.
      - intros Hin. exfalso. eapply Hno; [|exact Hin]. eauto. }
    cbv zeta.
    destruct (validate_media_type _ _) eqn:Etype; cbn [negb].
    + apply validate_media_type_spec in Etype as [Hne _].
      destruct (_ && _); cbn [fst snd]; by repeat split.
    + cbn [fst snd]. split; [done|]. split.
      * intros Hin. exfalso. eapply Hno'; [|exact Hin]. eauto 6.
      * intros _ ->. done.
Qed.

End MediaValidation.

Section DetectMimeSamples.
Import MediaHandler Sample Fixtures.

(** C10 as stated fails: when libmagic answers with the empty string,
    that is the detected type, and [validate_media] reports it at the
    type check. *)
Lemma detect_mime_empty_when_sniffed_empty :
  let p := staging ++ [lit "a.jpg"] in
  let w := World {[ p := File jpeg ]} [] in
  detect_mime platform_with_empty_magic p w = []
  ∧ validate_media platform_with_empty_magic p 10
      (allowed_media_types platform_with_empty_magic)
      (allowed_file_extensions platform_with_empty_magic) w
    = (false, [], lit "format", MimeNotAllowed []).
Proof. intros p w. split; vm_compute; reflexivity. Qed.

(** Without libmagic the type comes from the name. *)
Example detect_mime_guessed :
  detect_mime platform_without_magic (staging ++ [lit "a.jpg"]) empty_world
  = lit "image/jpeg".
Proof. vm_compute. reflexivity. Qed.

Lemma detect_mime_empty_only_if_sniffed_empty_witness :
  let p := staging ++ [lit "notes.bin"] in
  detect_mime platform_without_magic p empty_world ≠ []
  ∧ detect_mime platform_without_magic p empty_world
    = lit "application/octet-stream".
Proof.
  intros p.
  destruct (detect_mime_empty_only_if_sniffed_empty platform_without_magic
              p empty_world) as (_ & Hfallback & _).
  destruct (Hfallback (Exn OtherException (Text (lit "magic"))) eq_refl)
    as (Hne & _ & Hgeneric).
  split; [exact Hne|]. apply Hgeneric. left. vm_compute. reflexivity.
Defined.

End DetectMimeSamples.

(** The detected type of a JPEG file, and of a file nothing is known
    about on a platform without libmagic. *)
Example detect_mime_sniffed :
  let p := Sample.staging ++ [lit "a.bin"] in
  MediaHandler.detect_mime Sample.platform p
    (World {[ p := File Sample.jpeg ]} [])
  = lit "image/jpeg".
Proof. vm_compute. reflexivity. Qed.

Example detect_mime_fallback :
  MediaHandler.detect_mime Sample.platform_without_magic
    (Sample.staging ++ [lit "notes.bin"]) Sample.empty_world
  = lit "application/octet-stream".
Proof. vm_compute. reflexivity. Qed.

(** A file that sniffs as [application/octet-stream] is rejected for its
    format when only [image/jpeg] is allowed. *)
Example validate_media_format_rejected :
  let p := Sample.staging ++ [lit "a.jpg"] in
  MediaHandler.validate_media Sample.platform p 10 [lit "image/jpeg"] []
    (World {[ p := File Sample.text ]} [])
  = (false, lit "application/octet-stream", lit "format",
     MimeNotAllowed (lit "application/octet-stream")).
Proof. vm_compute. reflexivity. Qed.

(** ** Computations that do not raise *)

Section NoRaise.
Context {S : Type}.

Lemma no_raise_ret {A} (a : A) : no_raise (ret a : SE S A).
Proof. intros s. by exists s, a. Qed.

Lemma no_raise_modify (f : S → S) : no_raise (modify f).
Proof. intros s. by exists (f s), tt. Qed.

Lemma no_raise_get : no_raise (get_state : SE S S).
Proof. intros s. by exists s, s. Qed.

Lemma no_raise_bind {A B} (c : SE S A) (k : A → SE S B) :
  no_raise c → (∀ a, no_raise (k a)) → no_raise (bind c k).
Proof.
  intros Hc Hk s. unfold bind. destruct (Hc s) as (s' & a & ->).
  apply Hk.
Qed.

Lemma no_raise_if {A} (b : bool) (c1 c2 : SE S A) :
  no_raise c1 → no_raise c2 → no_raise (if b then c1 else c2).
Proof. by destruct b. Qed.

Lemma no_raise_for_each {A B} (l : list A) (body : A → B → SE S B) acc :
  (∀ x b, no_raise (body x b)) → no_raise (for_each l body acc).
Proof.
  intros Hbody. revert acc. induction l as [|x l IH]; intros acc; simpl.
  - apply no_raise_ret.
  - apply no_raise_bind; [apply Hbody|apply IH].
Qed.

Lemma no_raise_try_except {A} (c : SE S A) (h : exn → SE S A) :
  (∀ e, no_raise (h e)) → no_raise (try_except c h).
Proof.
  intros Hh s. unfold try_except. destruct (c s) as [s' [e|a]].
  - apply Hh.
  - by exists s', a.
Qed.
End NoRaise.

(** ** validate_zip_structure *)

Section ZipValidation.
Import ZipHandler.

Lemma validation_handler_result e r :
  validation_handler e r
  = (append_error (error_for e) (set_valid false r), inr tt).
Proof. unfold validation_handler, error_for. by destruct (exn_cls e). Qed.

Lemma validation_handler_no_raise e : no_raise (validation_handler e).
Proof.
  intros r. rewrite validation_handler_result. by eexists _, _.
Qed.

(** The function never raises, whatever the archive. *)
Lemma validate_zip_structure_no_raise zip source_type :
  (validate_zip_structure zip source_type).2 = inr tt.
Proof.
  unfold validate_zip_structure.
  assert (Hn : no_raise
            (try_except (validate_zip_checks zip source_type)
               validation_handler ;; ret tt)).
  { apply no_raise_bind; [|intros; apply no_raise_ret].
    apply no_raise_try_except, validation_handler_no_raise. }
  destruct (Hn initial_result) as (r & [] & ->). done.
Qed.

(** C9.  [validate_zip_structure] always returns its result record and
    never raises; an exception met while opening or testing the archive
    leaves [valid] false and one more error message; a member failing the
    integrity test ends the validation at once, with that member named
    and both counters still zero. *)
Theorem validate_zip_structure_total (zip : archive)
  (source_type : option (list N)) :
  let result := (validate_zip_structure zip source_type).1 in
  (validate_zip_structure zip source_type).2 = inr tt
  ∧ (∀ e, zip = inl e ∨ (∃ zipf, zip = inr zipf ∧ testzip zipf = inl e) →
       valid result = false ∧ errors result = [error_for e])
  ∧ (∀ zipf bad_file, zip = inr zipf → testzip zipf = inr (Some bad_file) →
       result = Validation false false false 0 0
                  [CorruptedFileInZip bad_file]).
Proof.
  cbv zeta. unfold validate_zip_structure.
  destruct zip as [e0|zipf].
  { (* the archive does not open *)
    cbv beta iota delta
      [bind try_except validate_zip_checks lift ret fst snd].
    rewrite validation_handler_result. cbn [fst snd].
    split; [done|]. split.
    - intros e [[= <-]|(? & [=] & _)]. done.
    - intros ? ? [=]. }
  destruct (testzip zipf) as [e1|[bad|]] eqn:Etest.
  - (* the integrity test raises *)
    cbv beta iota delta
      [bind try_except validate_zip_checks lift ret fst snd].
    rewrite Etest. cbv beta iota.
    rewrite validation_handler_result. cbn [fst snd].
    split; [done|]. split.
    + intros e [[=]|(z & [= <-] & Hz)].
      rewrite Etest in Hz. by injection Hz as <-.
    + intros z b [= <-]. by rewrite Etest.
  - (* a member fails the integrity test *)
    cbv beta iota delta
      [bind try_except validate_zip_checks lift ret modify fst snd].
    rewrite Etest. cbv beta iota. cbn [fst snd].
    split; [done|]. split.
    + intros e [[=]|(z & [= <-] & Hz)]. by rewrite Etest in Hz.
    + intros z b [= <-]. rewrite Etest. by intros [= <-].
  - (* the archive is sound *)
    split; [apply validate_zip_structure_no_raise|]. split.
    + intros e [[=]|(z & [= <-] & Hz)]. by rewrite Etest in Hz.
    + intros z b [= <-]. by rewrite Etest.
Qed.

End ZipValidation.

(** ** Reasoning about state-and-exception computations *)

Section Monad.
Context {S : Type}.
Implicit Types (I : S → Prop).

Lemma bind_assoc {A B C} (c : SE S A) (k : A → SE S B) (k' : B → SE S C) s :
  bind (bind c k) k' s = bind c (λ a, bind (k a) k') s.
Proof. unfold bind. by destruct (c s) as [s' [e|a]]. Qed.

Lemma bind_run {A B} (c : SE S A) (k : A → SE S B) s s' a :
  c s = (s', inr a) → bind c k s = k a s'.
Proof. intros H. unfold bind. by rewrite H. Qed.

Lemma bind_raise {A B} (c : SE S A) (k : A → SE S B) s s' e :
  c s = (s', inl e) → bind c k s = (s', inl e).
Proof. intros H. unfold bind. by rewrite H. Qed.

Lemma bind_from {A B} (c c' : SE S A) (k : A → SE S B) s s' :
  c s = c' s' → bind c k s = bind c' k s'.
Proof. intros H. unfold bind. by rewrite H. Qed.

Lemma for_each_app {A B} (l1 l2 : list A) (body : A → B → SE S B) acc s :
  for_each (l1 ++ l2) body acc s
  = bind (for_each l1 body acc) (for_each l2 body) s.
Proof.
  revert acc s. induction l1 as [|x l1 IH]; intros acc s; simpl.
  - done.
  - rewrite bind_assoc.
    destruct (body x acc s) as [s' [e|a]] eqn:E.
    + by rewrite !(bind_raise _ _ _ _ _ E).
    + rewrite !(bind_run _ _ _ _ _ E). apply IH.
Qed.

Lemma preserves_ret {A} I (a : A) : preserves I (ret a : SE S A).
Proof. intros s s' r Hs [= <- _]. done. Qed.

Lemma preserves_raise {A} I e : preserves I (raise e : SE S A).
Proof. intros s s' r Hs [= <- _]. done. Qed.

Lemma preserves_lift {A} I (x : exn + A) : preserves I (lift x : SE S A).
Proof. intros s s' r Hs [= <- _]. done. Qed.

Lemma preserves_get I : preserves I (get_state : SE S S).
Proof. intros s s' r Hs [= <- _]. done. Qed.

Lemma preserves_modify I (f : S → S) :
  (∀ s, I s → I (f s)) → preserves I (modify f).
Proof. intros Hf s s' r Hs [= <- _]. by apply Hf. Qed.

Lemma preserves_bind {A B} I (c : SE S A) (k : A → SE S B) :
  preserves I c → (∀ a, preserves I (k a)) → preserves I (bind c k).
Proof.
  intros Hc Hk s s' r Hs. unfold bind.
  destruct (c s) as [s1 [e|a]] eqn:Ec.
  - intros [= <- _]. by eapply Hc.
  - intros Hka. eapply Hk; [|exact Hka]. by eapply Hc.
Qed.

(** A computation that starts by reading the state. *)
Lemma preserves_bind_get {B} I (k : S → SE S B) :
  (∀ s, I s → preserves I (k s)) → preserves I (bind get_state k).
Proof. intros Hk s s' r Hs. unfold bind, get_state. by apply Hk. Qed.

(** A computation that starts from a value that may be an exception. *)
Lemma preserves_bind_lift {A B} I (x : exn + A) (k : A → SE S B) :
  (∀ a, x = inr a → preserves I (k a)) → preserves I (bind (lift x) k).
Proof.
  intros Hk s s' r Hs. unfold bind, lift. destruct x as [e|a].
  - intros [= <- _]. done.
  - by apply Hk.
Qed.

Lemma preserves_try_except {A} I (c : SE S A) (h : exn → SE S A) :
  preserves I c → (∀ e, preserves I (h e)) → preserves I (try_except c h).
Proof.
  intros Hc Hh s s' r Hs. unfold try_except.
  destruct (c s) as [s1 [e|a]] eqn:Ec.
  - intros He. eapply Hh; [|exact He]. by eapply Hc.
  - intros [= <- _]. by eapply Hc.
Qed.

Lemma preserves_for_each {A B} I (l : list A) (body : A → B → SE S B) acc :
  Forall (λ x, ∀ b, preserves I (body x b)) l →
  preserves I (for_each l body acc).
Proof.
  intros Hl. revert acc. induction Hl as [|x l Hx _ IH]; intros acc; simpl.
  - apply preserves_ret.
  - apply preserves_bind; [apply Hx|apply IH].
Qed.

End Monad.

Section FileSystemFacts.
Context (P : Platform).
Implicit Types (t p : list (list N)) (w : world).

Lemma absent_lookup t w : absent t w ↔ t ≠ [] ∧ fs w !! t = None.
Proof.
  unfold absent, node_at. destruct t.
  - split; [done|]. by intros [? _].
  - split; [done|]. by intros [_ ?].
Qed.

Lemma ancestors_or_self_prefix p q :
  q ∈ ancestors_or_self p → q `prefix_of` p.
Proof.
  unfold ancestors_or_self. intros (n & -> & _)%list_elem_of_fmap.
  apply prefix_take.
Qed.

Lemma insert_dirs_lookup (keys : list (list (list N)))
  (m : gmap (list (list N)) node) t :
  t ∉ keys → foldr (λ q m', <[q := Dir]> m') m keys !! t = m !! t.
Proof.
  induction keys as [|k keys IH]; simpl; [done|].
  intros [Hk Hks]%not_elem_of_cons. rewrite lookup_insert_ne by done.
  by apply IH.
Qed.

Lemma preserves_os_stat I p : preserves I (os_stat P p).
Proof.
  unfold os_stat. apply preserves_bind_get. intros s _.
  destruct (stat_fault P p); [apply preserves_raise|apply preserves_ret].
Qed.

Lemma preserves_path_exists I p : preserves I (path_exists P p).
Proof.
  apply preserves_bind; [apply preserves_os_stat|].
  intros; apply preserves_ret.
Qed.

Lemma preserves_stat_size I p : preserves I (stat_size P p).
Proof.
  apply preserves_bind; [apply preserves_os_stat|].
  intros [n|]; [apply preserves_ret|apply preserves_raise].
Qed.

Lemma preserves_glob_json I d : preserves I (glob_json d).
Proof.
  apply preserves_bind_get. intros; apply preserves_ret.
Qed.

Lemma mkdir_p_absent t p : ¬ t `prefix_of` p → preserves (absent t) (mkdir_p p).
Proof.
  intros Hp. unfold mkdir_p. apply preserves_bind_get. intros s _.
  destruct (existsb _ _); [apply preserves_raise|].
  apply preserves_modify. intros w. rewrite !absent_lookup.
  intros [Hne Hw]. split; [done|]. cbn [fs set_fs].
  rewrite insert_dirs_lookup; [done|].
  intros Hin. by apply Hp, ancestors_or_self_prefix.
Qed.

Lemma write_file_absent t p data :
  t ≠ p → preserves (absent t) (write_file p data).
Proof.
  intros Hp. unfold write_file. apply preserves_bind_get. intros s _.
  destruct (_ || _); [apply preserves_raise|].
  apply preserves_modify. intros w. rewrite !absent_lookup.
  intros [Hne Hw]. split; [done|]. cbn [fs set_fs].
  by rewrite lookup_insert_ne.
Qed.

Lemma unlink_absent t p : preserves (absent t) (unlink P p).
Proof.
  unfold unlink. apply preserves_bind_get. intros s _.
  destruct (unlink_fault P p); [apply preserves_raise|].
  destruct (is_file _); [|apply preserves_raise].
  apply preserves_modify. intros w. rewrite !absent_lookup.
  intros [Hne Hw]. split; [done|]. cbn [fs set_fs].
  rewrite lookup_delete. by case_decide.
Qed.

Lemma log_call_absent t c w : absent t w → absent t (log_call c w).
Proof. done. Qed.

End FileSystemFacts.

(** ** stream_extract *)

Section StreamExtract.
Import ZipHandler.
Context (P : Platform).
Implicit Types (w : world) (t : list (list N)) (info : ZipInfo)
  (acc : list message * gmap (list N) Z).

Lemma enumerate_app {A} (k : Z) (l1 l2 : list A) :
  enumerate k (l1 ++ l2)
  = enumerate k l1 ++ enumerate (k + Z.of_nat (length l1)) l2.
Proof.
  revert k. induction l1 as [|x l1 IH]; intros k; simpl.
  - by rewrite Z.add_0_r.
  - rewrite IH. do 3 f_equal. lia.
Qed.

Lemma enumerate_snd {A} (k : Z) (l : list A) : (enumerate k l).*2 = l.
Proof. revert k. induction l as [|x l IH]; intros k; simpl; by f_equal. Qed.

(** *** What an extraction leaves untouched *)

Lemma remove_invalid_absent t p :
  preserves (absent t) (remove_invalid P p).
Proof.
  apply preserves_try_except; [|intros; apply preserves_ret].
  apply preserves_bind; [apply preserves_path_exists|].
  intros [|]; [apply unlink_absent|apply preserves_ret].
Qed.

Lemma check_extracted_media_absent t max_size_mb info p acc :
  preserves (absent t) (check_extracted_media P max_size_mb info p acc).
Proof.
  unfold check_extracted_media. apply preserves_bind_get. intros w _.
  destruct (MediaHandler.validate_media _ _ _ _ _ _)
    as [[[is_valid mime] category] msg].
  destruct is_valid; cbn [negb]; [apply preserves_ret|].
  apply preserves_bind; [apply remove_invalid_absent|].
  intros; apply preserves_ret.
Qed.

Lemma copy_member_absent t info p :
  t ≠ p → preserves (absent t) (copy_member info p).
Proof.
  intros Hp. unfold copy_member. destruct (check info).
  - by apply write_file_absent.
  - apply preserves_bind; [by apply write_file_absent|].
    intros; apply preserves_raise.
  - apply preserves_raise.
Qed.

Lemma extract_entry_absent t extract_to media_dest max_size_mb
  validate_media progress_callback source_type total_files idx info acc :
  writes_elsewhere P extract_to media_dest source_type t info →
  preserves (absent t)
    (extract_entry P extract_to media_dest max_size_mb validate_media
       progress_callback source_type total_files (idx, info) acc).
Proof.
  intros Helse. unfold extract_entry.
  destruct (is_dir info) eqn:Edir; [apply preserves_ret|].
  destruct Helse as [?|Helse]; [congruence|].
  apply preserves_bind_lift. intros [target_dir target_path] Eroute.
  case_bool_decide as Hsafe; cbn [negb]; [|apply preserves_raise].
  specialize (Helse _ _ Eroute).
  apply preserves_bind.
  { apply mkdir_p_absent. intros Hpre. apply Helse.
    etrans; [exact Hpre|]. unfold parent.
    destruct target_path as [|x l] using rev_ind; [done|].
    rewrite removelast_last. by apply prefix_app_r. }
  intros _. apply preserves_bind.
  { apply copy_member_absent. intros ->. by apply Helse. }
  intros _. apply preserves_bind.
  { destruct (_ && _); [apply check_extracted_media_absent
                       |apply preserves_ret]. }
  intros acc'. apply preserves_bind; [|intros; apply preserves_ret].
  destruct progress_callback; [|apply preserves_ret].
  apply preserves_modify. intros w. apply log_call_absent.
Qed.

Lemma extract_entries_absent t extract_to media_dest max_size_mb
  validate_media progress_callback source_type total_files
  (entries : list (Z * ZipInfo)) acc :
  Forall (writes_elsewhere P extract_to media_dest source_type t)
         entries.*2 →
  preserves (absent t)
    (extract_entries P extract_to media_dest max_size_mb validate_media
       progress_callback source_type total_files entries acc).
Proof.
  intros Hall. unfold extract_entries. apply preserves_for_each.
  rewrite Forall_fmap in Hall. eapply Forall_impl; [exact Hall|].
  intros [idx info] Hw b. by apply extract_entry_absent.
Qed.

(** Nothing that follows the loop writes to the file system. *)
Lemma finish_preserves (I : world → Prop) extract_to media_dest
  source_type total_size entries acc :
  preserves I
    (finish P extract_to media_dest source_type total_size entries acc).
Proof.
  unfold finish. apply preserves_bind.
  { destruct (is_dayone source_type); [|apply preserves_ret].
    apply preserves_bind; [apply preserves_glob_json|].
    intros; apply preserves_ret. }
  intros [data_file media_dir]. apply preserves_bind.
  { destruct media_dest; [|apply preserves_ret].
    apply preserves_bind; [apply preserves_path_exists|].
    intros; apply preserves_ret. }
  intros media_dir'. destruct data_file; [|apply preserves_raise].
  apply preserves_bind; [apply preserves_path_exists|].
  intros [|]; cbn [negb]; [|apply preserves_raise].
  apply preserves_bind; [apply preserves_path_exists|].
  intros; apply preserves_ret.
Qed.

Lemma reraise_preserves {A} (I : world → Prop) e :
  preserves I (reraise e : SE world A).
Proof. unfold reraise. destruct (exn_cls e); apply preserves_raise. Qed.

(** *** The run of stream_extract *)

(** On an archive that opens, passes the integrity test and respects the
    size limit, the body is the staging directory, the loop and the
    lookup of the results. *)
Lemma stream_extract_sound_archive zipf extract_to media_dest max_size_mb
  validate_media progress_callback source_type w :
  testzip zipf = inr None →
  sum_sizes zipf ≤ max_size_mb * 1024 * 1024 →
  stream_extract P (inr zipf) extract_to media_dest max_size_mb
    validate_media progress_callback source_type w
  = try_except
      (mkdir_p extract_to ;;
       acc <- extract_entries P extract_to media_dest max_size_mb
                validate_media progress_callback source_type
                (Z.of_nat (length zipf)) (enumerate 1 zipf) ([], ∅) ;;
       finish P extract_to media_dest source_type (sum_sizes zipf)
         zipf acc)
      reraise w.
Proof.
  intros Htest Hsize.
  unfold stream_extract, stream_extract_body, try_except.
  unfold bind at 1. unfold lift at 1. cbv beta iota.
  unfold bind at 1. unfold lift at 1. rewrite Htest. cbv beta iota.
  rewrite (bool_decide_false (is_Some None)) by (by intros [? ?]).
  cbv zeta.
  destruct (Z.gtb_spec (sum_sizes zipf) (max_size_mb * 1024 * 1024));
    [lia|done].
Qed.

(** The run up to an entry of the archive. *)
Lemma stream_extract_at_entry pre info post extract_to media_dest
  max_size_mb validate_media progress_callback source_type w w1 acc1 :
  let zipf := pre ++ info :: post in
  let total_files := Z.of_nat (length zipf) in
  testzip zipf = inr None →
  sum_sizes zipf ≤ max_size_mb * 1024 * 1024 →
  extract_prefix P extract_to media_dest max_size_mb validate_media
    progress_callback source_type total_files pre w = (w1, inr acc1) →
  stream_extract P (inr zipf) extract_to media_dest max_size_mb
    validate_media progress_callback source_type w
  = try_except
      (acc2 <- extract_entry P extract_to media_dest max_size_mb
                 validate_media progress_callback source_type total_files
                 (1 + Z.of_nat (length pre), info) acc1 ;;
       acc3 <- extract_entries P extract_to media_dest max_size_mb
                 validate_media progress_callback source_type total_files
                 (enumerate (1 + Z.of_nat (length pre) + 1) post) acc2 ;;
       finish P extract_to media_dest source_type (sum_sizes zipf)
         zipf acc3)
      reraise w1.
Proof.
  intros zipf total_files Htest Hsize Hpre.
  rewrite stream_extract_sound_archive by done.
  unfold try_except. f_equal.
  fold total_files. unfold zipf at 1. rewrite enumerate_app.
  cbn [enumerate]. unfold extract_entries at 1.
  rewrite <- bind_assoc.
  assert (Hrun :
    (mkdir_p extract_to ;;
     for_each
       (enumerate 1 pre
        ++ (1 + Z.of_nat (length pre), info)
           :: enumerate (1 + Z.of_nat (length pre) + 1) post)
       (extract_entry P extract_to media_dest max_size_mb validate_media
          progress_callback source_type total_files) ([], ∅)) w
    = (acc2 <- extract_entry P extract_to media_dest max_size_mb
                 validate_media progress_callback source_type total_files
                 (1 + Z.of_nat (length pre), info) acc1 ;;
       extract_entries P extract_to media_dest max_size_mb
         validate_media progress_callback source_type total_files
         (enumerate (1 + Z.of_nat (length pre) + 1) post) acc2) w1).
  { unfold extract_prefix, extract_entries in Hpre.
    unfold bind at 1.
    destruct (mkdir_p extract_to w) as [w0 [e|[]]] eqn:Emk.
    { rewrite (bind_raise _ _ _ _ _ Emk) in Hpre. discriminate. }
    rewrite (bind_run _ _ _ _ _ Emk) in Hpre.
    rewrite for_each_app, (bind_run _ _ _ _ _ Hpre). done. }
  rewrite (bind_from _ _ _ _ _ Hrun). by rewrite bind_assoc.
Qed.

End StreamExtract.

Section StreamExtractClaims.
Import ZipHandler.
Context (P : Platform).
Implicit Types (w : world) (t : list (list N)) (info : ZipInfo)
  (acc : list message * gmap (list N) Z).

(** *** The size limit *)

(** Everything before the size check leaves the world as it is. *)
Lemma stream_extract_oversize_untouched zipf extract_to media_dest
  max_size_mb validate_media progress_callback source_type w :
  sum_sizes zipf > max_size_mb * 1024 * 1024 →
  ∃ e, stream_extract P (inr zipf) extract_to media_dest max_size_mb
         validate_media progress_callback source_type w = (w, inl e).
Proof.
  intros Hsize.
  unfold stream_extract, stream_extract_body, try_except.
  unfold bind at 1. unfold lift at 1. cbv beta iota.
  unfold bind at 1. unfold lift at 1.
  destruct (testzip zipf) as [e|[bad|]]; cbv beta iota.
  - unfold reraise. destruct (exn_cls e); by eexists.
  - rewrite (bool_decide_true (is_Some (Some bad))) by (by eexists).
    by eexists.
  - rewrite (bool_decide_false (is_Some None)) by (by intros [? ?]).
    cbv zeta.
    destruct (Z.gtb_spec (sum_sizes zipf) (max_size_mb * 1024 * 1024));
      [|lia].
    by eexists.
Qed.

(** C4 (as amended).  An archive that passes the integrity test and whose
    declared sizes add up to more than [max_size_mb] MiB makes
    [stream_extract] fail with the too-large error, before anything is
    written: the file system and the progress record are unchanged.  (An
    oversize archive that fails the integrity test is left untouched as
    well, but is reported as corrupt.) *)
Theorem stream_extract_too_large zipf extract_to media_dest max_size_mb
  validate_media progress_callback source_type w :
  testzip zipf = inr None →
  sum_sizes zipf > max_size_mb * 1024 * 1024 →
  stream_extract P (inr zipf) extract_to media_dest max_size_mb
    validate_media progress_callback source_type w
  = (w, inl (Exn IOError
               (ExtractionFailed
                  (ZipTooLarge (sum_sizes zipf) max_size_mb)))).
Proof.
  intros Htest Hsize.
  unfold stream_extract, stream_extract_body, try_except.
  unfold bind at 1. unfold lift at 1. cbv beta iota.
  unfold bind at 1. unfold lift at 1. rewrite Htest. cbv beta iota.
  rewrite (bool_decide_false (is_Some None)) by (by intros [? ?]).
  cbv zeta.
  destruct (Z.gtb_spec (sum_sizes zipf) (max_size_mb * 1024 * 1024));
    [done|lia].
Qed.

(** *** Unsafe paths *)

(** An entry with a leading separator that is routed to the staging
    directory resolves to its own absolute path. *)
Lemma route_staging_absolute extract_to source_type info :
  startswith (filename info) [ch_slash] = true →
  route P extract_to None source_type info
  = inr (extract_to, normalize (pure_parts (filename info))).
Proof.
  intros Habs. unfold route.
  assert ((if is_media P source_type info then None else None)
          = (None : option (list (list N)))) as ->
    by (by destruct (is_media P source_type info)).
  unfold resolve_under, joinpath, parse_path. cbn [is_abs parts].
  by rewrite Habs.
Qed.

(** C1 (as amended).  When the extraction reaches a file entry whose
    resolved target lies outside the directory it is routed to,
    [stream_extract] fails with the unsafe-path error that names the
    entry, and the world is the one the earlier entries left: no
    directory is made and no byte is written for the entry.  The test is
    made on the resolved path, entry by entry, right before the write. *)
Theorem stream_extract_unsafe_path pre info post extract_to media_dest
  max_size_mb validate_media progress_callback source_type w w1 acc1
  target_dir target_path :
  let zipf := pre ++ info :: post in
  testzip zipf = inr None →
  sum_sizes zipf ≤ max_size_mb * 1024 * 1024 →
  extract_prefix P extract_to media_dest max_size_mb validate_media
    progress_callback source_type (Z.of_nat (length zipf)) pre w
    = (w1, inr acc1) →
  is_dir info = false →
  route P extract_to media_dest source_type info
    = inr (target_dir, target_path) →
  ¬ target_dir `prefix_of` target_path →
  stream_extract P (inr zipf) extract_to media_dest max_size_mb
    validate_media progress_callback source_type w
  = (w1, inl (Exn IOError (ExtractionFailed (UnsafePath (filename info))))).
Proof.
  intros zipf Htest Hsize Hpre Hdir Hroute Hout.
  rewrite (stream_extract_at_entry P pre info post _ _ _ _ _ _ w w1 acc1)
    by done.
  assert (Hstep :
    extract_entry P extract_to media_dest max_size_mb validate_media
      progress_callback source_type (Z.of_nat (length zipf))
      (1 + Z.of_nat (length pre), info) acc1 w1
    = (w1, inl (Exn ValueError (UnsafePath (filename info))))).
  { unfold extract_entry. rewrite Hdir.
    unfold bind at 1. unfold lift at 1. rewrite Hroute. cbv beta iota.
    by rewrite (bool_decide_false (target_dir `prefix_of` target_path)). }
  unfold try_except. by rewrite (bind_raise _ _ _ _ _ Hstep).
Qed.

(** *** Rejected media *)

Lemma write_file_written p data w w' :
  write_file p data w = (w', inr tt) →
  node_at (fs w') p = Some (File data).
Proof.
  unfold write_file, bind, get_state, modify, raise.
  destruct (is_dir_node (node_at (fs w) p)) eqn:Ed; [done|].
  destruct (negb _); [done|]. cbn [orb]. intros [= <-].
  unfold node_at in *. destruct p; [done|].
  cbn [fs set_fs]. apply lookup_insert_eq.
Qed.

Lemma copy_member_written info p w w' :
  copy_member info p w = (w', inr tt) →
  node_at (fs w') p = Some (File (data info)).
Proof.
  unfold copy_member. destruct (check info).
  - apply write_file_written.
  - unfold bind, raise. destruct (write_file _ _ _) as [? [?|?]]; done.
  - done.
Qed.

Lemma absent_delete p w : p ≠ [] → absent p (set_fs (delete p) w).
Proof.
  intros Hp. apply absent_lookup. split; [done|].
  cbn [fs set_fs]. apply lookup_delete_eq.
Qed.

(** A file that exists and may be examined and removed is gone after
    [remove_invalid]. *)
Lemma remove_invalid_removes p d w :
  stat_fault P p = None → unlink_fault P p = None →
  node_at (fs w) p = Some (File d) → p ≠ [] →
  remove_invalid P p w = (set_fs (delete p) w, inr tt).
Proof.
  intros Hstat Hunlink Hfile Hp.
  cbv beta iota zeta delta
    [remove_invalid try_except path_exists os_stat unlink bind get_state
     ret raise modify].
  rewrite Hstat. cbv beta iota. rewrite Hfile.
  rewrite (bool_decide_true (is_Some (Some (File d)))) by (by eexists).
  cbv beta iota. rewrite Hunlink, Hfile. done.
Qed.

Lemma bump_lookup (k : list N) (d : gmap (list N) Z) :
  bump k d !! k = Some (default 0 (d !! k) + 1).
Proof. apply lookup_insert_eq. Qed.

Lemma bump_lookup_ne (k k' : list N) (d : gmap (list N) Z) :
  k' ≠ k → bump k d !! k' = d !! k'.
Proof. intros H. unfold bump. by rewrite lookup_insert_ne. Qed.

(** The removal of a rejected file never raises: a failure to examine
    or to delete the file is caught. *)
Lemma remove_invalid_returns t w :
  remove_invalid P t w = ((remove_invalid P t w).1, inr tt).
Proof.
  unfold remove_invalid, try_except.
  destruct (bind _ _ w) as [w' [e|[]]]; done.
Qed.

(** C3 (as amended).  When the extraction reaches a media entry, writes
    it, and the validator rejects the written file, the turn of the loop
    appends exactly one warning, raises the count of the category label
    by one and leaves the other counts alone, whether or not the file
    can be removed.  On a platform that lets the file be examined and
    removed, the file is removed at once, and it is still absent when
    [stream_extract] returns or raises, provided no later entry of the
    archive is written at or below the same path. *)
Theorem rejected_media_is_removed pre info post extract_to media_dest
  max_size_mb progress_callback source_type w w1 acc1 w_written
  target_dir target_path mime category msg :
  let zipf := pre ++ info :: post in
  let total_files := Z.of_nat (length zipf) in
  let idx := 1 + Z.of_nat (length pre) in
  let label := display_category category in
  testzip zipf = inr None →
  sum_sizes zipf ≤ max_size_mb * 1024 * 1024 →
  extract_prefix P extract_to media_dest max_size_mb true
    progress_callback source_type total_files pre w = (w1, inr acc1) →
  is_dir info = false →
  is_media P source_type info = true →
  route P extract_to media_dest source_type info
    = inr (target_dir, target_path) →
  target_dir `prefix_of` target_path →
  (mkdir_p (parent target_path) ;; copy_member info target_path) w1
    = (w_written, inr tt) →
  MediaHandler.validate_media P target_path max_size_mb
    (allowed_media_types P) (allowed_file_extensions P) w_written
    = (false, mime, category, msg) →
  ∃ w2,
    extract_entry P extract_to media_dest max_size_mb true
      progress_callback source_type total_files (idx, info) acc1 w1
    = (w2, inr (acc1.1 ++ [MediaValidationFailed (filename info) msg],
                bump label acc1.2))
    ∧ bump label acc1.2 !! label = Some (default 0 (acc1.2 !! label) + 1)
    ∧ (∀ k, k ≠ label → bump label acc1.2 !! k = acc1.2 !! k)
    ∧ (stat_fault P target_path = None →
       unlink_fault P target_path = None →
       absent target_path w2
       ∧ (Forall (writes_elsewhere P extract_to media_dest source_type
                    target_path) post →
          absent target_path
            (stream_extract P (inr zipf) extract_to media_dest max_size_mb
               true progress_callback source_type w).1)).
Proof.
  intros zipf total_files idx label Htest Hsize Hpre Hdir Hmedia Hroute
    Hsafe Hwrite Hreject.
  (* the file is there once written *)
  assert (Hfile : node_at (fs w_written) target_path
                  = Some (File (data info))).
  { unfold bind in Hwrite.
    destruct (mkdir_p (parent target_path) w1) as [w0 [e|[]]]; [done|].
    by apply copy_member_written in Hwrite. }
  assert (Hne : target_path ≠ []).
  { intros ->. unfold bind in Hwrite.
    destruct (mkdir_p (parent []) w1) as [w0 [e|[]]]; [done|].
    unfold copy_member, write_file, bind, get_state, raise in Hwrite.
    cbn [node_at is_dir_node orb] in Hwrite.
    destruct (check info); done. }
  set (w_removed := (remove_invalid P target_path w_written).1).
  set (w2 := if progress_callback
             then log_call (idx, total_files) w_removed else w_removed).
  assert (Hstep :
    extract_entry P extract_to media_dest max_size_mb true
      progress_callback source_type total_files (idx, info) acc1 w1
    = (w2, inr (acc1.1 ++ [MediaValidationFailed (filename info) msg],
                bump label acc1.2))).
  { unfold extract_entry. rewrite Hdir.
    unfold bind at 1. unfold lift at 1. rewrite Hroute. cbv beta iota.
    rewrite (bool_decide_true (target_dir `prefix_of` target_path))
      by done.
    cbn [negb]. rewrite <- bind_assoc.
    rewrite (bind_run _ _ _ _ _ Hwrite).
    rewrite Hmedia. cbn [andb].
    unfold bind at 1. unfold check_extracted_media.
    unfold bind at 1. unfold get_state at 1. cbv beta iota.
    rewrite Hreject. cbn [negb].
    unfold bind at 1.
    rewrite (remove_invalid_returns target_path w_written).
    cbv beta iota. unfold ret at 1. cbv beta iota.
    unfold w2, w_removed. by destruct progress_callback. }
  exists w2. split; [exact Hstep|].
  split; [apply bump_lookup|]. split; [intros; by apply bump_lookup_ne|].
  intros Hstat Hunlink.
  assert (Habs : absent target_path w2).
  { unfold w2, w_removed.
    rewrite (remove_invalid_removes _ _ _ Hstat Hunlink Hfile Hne).
    cbn [fst]. destruct progress_callback; by apply absent_delete. }
  split; [exact Habs|].
  intros Hpost.
  rewrite (stream_extract_at_entry P pre info post _ _ _ _ _ _ w w1 acc1)
    by done.
  fold zipf total_files idx.
  destruct (try_except _ _ w1) as [wf rf] eqn:Erun. cbn [fst].
  revert Erun.
  unfold try_except. rewrite (bind_run _ _ _ _ _ Hstep).
  intros Erun.
  assert (Hrest : preserves (absent target_path)
    (try_except
       (acc3 <- extract_entries P extract_to media_dest max_size_mb true
                  progress_callback source_type total_files
                  (enumerate (idx + 1) post)
                  (acc1.1 ++ [MediaValidationFailed (filename info) msg],
                   bump label acc1.2) ;;
        finish P extract_to media_dest source_type (sum_sizes zipf)
          zipf acc3)
       reraise)).
  { apply preserves_try_except; [|intros; apply reraise_preserves].
    apply preserves_bind; [|intros; apply finish_preserves].
    apply extract_entries_absent. by rewrite enumerate_snd. }
  eapply Hrest; [exact Habs|]. unfold try_except. exact Erun.
Qed.

End StreamExtractClaims.

(** *** Progress *)

Section Progress.
Import ZipHandler.
Context (P : Platform).
Implicit Types (w : world) (info : ZipInfo)
  (acc : list message * gmap (list N) Z).

Lemma bind_inr_inv {S A B} (c : SE S A) (k : A → SE S B) s s' b :
  bind c k s = (s', inr b) →
  ∃ s1 a, c s = (s1, inr a) ∧ k a s1 = (s', inr b).
Proof.
  unfold bind. destruct (c s) as [s1 [e|a]]; [done|]. by exists s1, a.
Qed.

Lemma set_fs_calls c f w : calls_are c w → calls_are c (set_fs f w).
Proof. done. Qed.

Lemma mkdir_p_calls c p : preserves (calls_are c) (mkdir_p p).
Proof.
  unfold mkdir_p. apply preserves_bind_get. intros s _.
  destruct (existsb _ _); [apply preserves_raise|].
  apply preserves_modify. intros; by apply set_fs_calls.
Qed.

Lemma write_file_calls c p d : preserves (calls_are c) (write_file p d).
Proof.
  unfold write_file. apply preserves_bind_get. intros s _.
  destruct (_ || _); [apply preserves_raise|].
  apply preserves_modify. intros; by apply set_fs_calls.
Qed.

Lemma unlink_calls c p : preserves (calls_are c) (unlink P p).
Proof.
  unfold unlink. apply preserves_bind_get. intros s _.
  destruct (unlink_fault P p); [apply preserves_raise|].
  destruct (is_file _); [|apply preserves_raise].
  apply preserves_modify. intros; by apply set_fs_calls.
Qed.

Lemma copy_member_calls c info p :
  preserves (calls_are c) (copy_member info p).
Proof.
  unfold copy_member. destruct (check info).
  - apply write_file_calls.
  - apply preserves_bind; [apply write_file_calls|].
    intros; apply preserves_raise.
  - apply preserves_raise.
Qed.

Lemma check_extracted_media_calls c max_size_mb info p acc :
  preserves (calls_are c) (check_extracted_media P max_size_mb info p acc).
Proof.
  unfold check_extracted_media. apply preserves_bind_get. intros w _.
  destruct (MediaHandler.validate_media _ _ _ _ _ _)
    as [[[is_valid mime] category] msg].
  destruct is_valid; cbn [negb]; [apply preserves_ret|].
  apply preserves_bind; [|intros; apply preserves_ret].
  apply preserves_try_except; [|intros; apply preserves_ret].
  apply preserves_bind; [apply preserves_path_exists|].
  intros [|]; [apply unlink_calls|apply preserves_ret].
Qed.

(** A turn of the loop that ends normally has called the callback once,
    with the number of the entry, unless the entry is a directory. *)
Lemma extract_entry_calls extract_to media_dest max_size_mb validate_media
  source_type total_files idx info acc w w' acc' :
  extract_entry P extract_to media_dest max_size_mb validate_media true
    source_type total_files (idx, info) acc w = (w', inr acc') →
  calls w' = calls w ++ progress_of total_files [(idx, info)].
Proof.
  unfold extract_entry, progress_of.
  destruct (is_dir info) eqn:Edir.
  - intros [= <- _]. rewrite filter_cons_False, filter_nil; cbn [snd].
    + by rewrite app_nil_r.
    + by rewrite Edir.
  - rewrite filter_cons_True, filter_nil by done. cbn [fmap list_fmap fst].
    intros (w0 & [d p] & Hroute & Hrun)%bind_inr_inv.
    injection Hroute as <- _.
    destruct (negb _); [done|].
    apply bind_inr_inv in Hrun as (wa & [] & Hmk & Hrun).
    apply bind_inr_inv in Hrun as (wb & [] & Hcp & Hrun).
    apply bind_inr_inv in Hrun as (wc & acc2 & Hck & Hrun).
    apply bind_inr_inv in Hrun as (wd & [] & Hlog & Hrun).
    injection Hrun as <- _. injection Hlog as <-.
    cbn [calls log_call]. f_equal.
    apply (mkdir_p_calls (calls w)) in Hmk; [|done].
    apply (copy_member_calls (calls w)) in Hcp; [|done].
    assert (calls_are (calls w) wc) as ->; [|done].
    destruct (_ && _).
    + by apply (check_extracted_media_calls (calls w)) in Hck.
    + by injection Hck as <- _.
Qed.

Lemma extract_entries_calls extract_to media_dest max_size_mb
  validate_media source_type total_files
  (entries : list (Z * ZipInfo)) acc w w' acc' :
  extract_entries P extract_to media_dest max_size_mb validate_media true
    source_type total_files entries acc w = (w', inr acc') →
  calls w' = calls w ++ progress_of total_files entries.
Proof.
  unfold extract_entries.
  revert acc w. induction entries as [|[idx info] l IH]; intros acc w.
  - intros [= <- _]. by rewrite app_nil_r.
  - cbn [for_each].
    intros (w1 & acc1 & Hstep & Hrest)%bind_inr_inv.
    apply extract_entry_calls in Hstep. apply IH in Hrest.
    rewrite Hrest, Hstep, <- app_assoc. f_equal.
    unfold progress_of. rewrite <- fmap_app. f_equal.
    by rewrite <- filter_app.
Qed.

(** When [stream_extract] returns, the callback has received one call for
    each file entry, in archive order; the call for an entry carries the
    position of the entry among all the entries of the archive, and the
    number of all the entries, directory entries included. *)
Lemma stream_extract_progress zipf extract_to media_dest max_size_mb
  validate_media source_type w w' x :
  stream_extract P (inr zipf) extract_to media_dest max_size_mb
    validate_media true source_type w = (w', inr x) →
  calls w' = calls w
             ++ progress_of (Z.of_nat (length zipf)) (enumerate 1 zipf).
Proof.
  unfold stream_extract, try_except.
  destruct (stream_extract_body _ _ _ _ _ _ _ _) as [w1 [e|y]] eqn:Ebody.
  { unfold reraise. destruct (exn_cls e); done. }
  intros [= <- <-]. revert Ebody. unfold stream_extract_body.
  intros (w2 & z & Hz & Hrun)%bind_inr_inv. injection Hz as <- <-.
  apply bind_inr_inv in Hrun as (w3 & bad & Hbad & Hrun).
  injection Hbad as <- _.
  destruct (bool_decide _); [done|]. cbv zeta in Hrun.
  destruct (_ >? _); [done|].
  apply bind_inr_inv in Hrun as (w4 & [] & Hmk & Hrun).
  apply bind_inr_inv in Hrun as (w5 & acc & Hloop & Hfin).
  apply (mkdir_p_calls (calls w)) in Hmk; [|done].
  apply extract_entries_calls in Hloop.
  apply (finish_preserves P (calls_are (calls w5))) in Hfin; [|done].
  rewrite Hfin, Hloop. by rewrite Hmk.
Qed.

(** The calls come in strictly increasing order of [processed]. *)
Lemma progress_of_increasing total_files (k : Z) (l : list ZipInfo) :
  StronglySorted (λ a b, a.1 < b.1) (progress_of total_files (enumerate k l))
  ∧ Forall (λ a, k ≤ a.1) (progress_of total_files (enumerate k l)).
Proof.
  revert k. induction l as [|info l IH]; intros k.
  - split; constructor.
  - destruct (IH (k + 1)) as [Hs Hf]. unfold progress_of in *.
    cbn [enumerate]. destruct (is_dir info) eqn:Edir.
    + rewrite filter_cons_False by (cbn [snd]; by rewrite Edir).
      split; [done|]. eapply Forall_impl; [exact Hf|].
      intros; cbv beta in *; lia.
    + rewrite filter_cons_True by done. cbn [fmap list_fmap fst].
      split.
      * constructor; [done|]. eapply Forall_impl; [exact Hf|].
        intros; cbv beta in *; cbn [fst] in *; lia.
      * constructor; [cbn [fst]; lia|]. eapply Forall_impl; [exact Hf|].
        intros; cbv beta in *; lia.
Qed.


(** On an archive without directory entries the last call is
    [(N, N)], for the [N] entries there are. *)
Lemma progress_of_last_no_directories total_files (k : Z)
  (l : list ZipInfo) :
  l ≠ [] → Forall (λ i, is_dir i = false) l →
  last (progress_of total_files (enumerate k l))
  = Some (k + Z.of_nat (length l) - 1, total_files).
Proof.
  intros Hne Hall. revert k.
  induction Hall as [|info l Hinfo Hall IH]; intros k; [done|].
  unfold progress_of in *. cbn [enumerate].
  rewrite filter_cons_True by done. cbn [fmap list_fmap fst].
  rewrite last_cons. destruct l as [|info' l'].
  - cbn. do 2 f_equal. lia.
  - rewrite IH by done. do 2 f_equal. cbn [length]. lia.
Qed.

End Progress.

(** C2.  An archive with [data.json] followed by the directory entry
    [media/] is extracted without error, and the callback receives the
    single call [(1, 2)]: the last call is neither [(1, 1)], for the one
    file entry there is, nor a call with [processed = total]. *)
Theorem stream_extract_progress_trailing_directory :
  let zipf := [Sample.member "data.json" Sample.json;
               Sample.member "media/" []] in
  let run := ZipHandler.stream_extract Sample.platform (inr zipf)
               Sample.staging None 10 false true None Sample.empty_world in
  length (filter (λ i, is_dir i = false) zipf) = 1%nat
  ∧ (∃ x, run.2 = inr x)
  ∧ calls run.1 = [(1, 2)].
Proof.
  intros zipf run. split; [|split].
  - vm_compute. reflexivity.
  - vm_compute. eexists. reflexivity.
  - vm_compute. reflexivity.
Qed.

(** *** The claims on sample archives *)

Section Samples.
Import ZipHandler Sample.

Lemma stream_extract_too_large_witness :
  let zipf := [member "data.json" json; member "media/a.jpg" jpeg] in
  stream_extract platform (inr zipf) staging None 0 true true None
    empty_world
  = (empty_world,
     inl (Exn IOError (ExtractionFailed (ZipTooLarge (sum_sizes zipf) 0)))).
Proof.
  intros zipf.
  apply (stream_extract_too_large platform zipf staging None 0 true true
           None empty_world).
  - vm_compute. reflexivity.
  - vm_compute. reflexivity.
Defined.

(** C4 as stated fails: an oversize archive with a member that fails the
    integrity test is reported as corrupt, not as too large. *)
Lemma stream_extract_corrupt_before_too_large :
  let zipf := [ {| filename := lit "data.json"; file_size := 2;
                   data := json; check := MemberBad |} ] in
  sum_sizes zipf > 0 * 1024 * 1024
  ∧ stream_extract platform (inr zipf) staging None 0 true true None
      empty_world
    = (empty_world, inl (Exn IOError (ExtractionFailed ZipCorrupted))).
Proof. split; vm_compute; reflexivity. Qed.

Lemma stream_extract_unsafe_path_witness :
  let pre := [member "data.json" json] in
  let info := member "../../../etc/passwd" text in
  let w1 := (extract_prefix platform staging None 10 false true None 2
               pre empty_world).1 in
  stream_extract platform (inr (pre ++ [info])) staging None 10 false true
    None empty_world
  = (w1, inl (Exn IOError
                (ExtractionFailed
                   (UnsafePath (lit "../../../etc/passwd"))))).
Proof.
  intros pre info w1.
  apply (stream_extract_unsafe_path platform pre info [] staging None 10
           false true None empty_world w1 ([], ∅)
           staging [lit "etc"; lit "passwd"]).
  - vm_compute. reflexivity.
  - vm_compute. discriminate.
  - vm_compute. reflexivity.
  - vm_compute. reflexivity.
  - vm_compute. reflexivity.
  - intros [k Hk]. vm_compute in Hk. discriminate Hk.
Defined.

(** C1 as stated fails: a declared path with a parent-directory segment
    that stays inside the staging directory is extracted. *)
Lemma stream_extract_accepts_inner_dotdot :
  let zipf := [member "data.json" json; member "a/../b.txt" text] in
  let run := stream_extract platform (inr zipf) staging None 10 false true
               None empty_world in
  str_contains (lit "a/../b.txt") (lit "..") = true
  ∧ (∃ x, run.2 = inr x)
  ∧ fs run.1 !! (staging ++ [lit "b.txt"]) = Some (File text).
Proof.
  intros zipf run. split; [|split].
  - vm_compute. reflexivity.
  - vm_compute. eexists. reflexivity.
  - vm_compute. reflexivity.
Qed.

(** Directory entries are skipped without any test of their path. *)
Example stream_extract_skips_unsafe_directory :
  let zipf := [member "data.json" json; member "../outside/" []] in
  ∃ x, (stream_extract platform (inr zipf) staging None 10 false true
          None empty_world).2 = inr x.
Proof. vm_compute. eexists. reflexivity. Qed.

Lemma rejected_media_is_removed_witness :
  let pre := [member "data.json" json] in
  let info := member "media/e1/b.jpg" text in
  let post := [member "media/e1/a.jpg" jpeg] in
  let target := staging ++ [lit "media"; lit "e1"; lit "b.jpg"] in
  let run := stream_extract platform (inr (pre ++ info :: post)) staging
               None 10 true true None empty_world in
  absent target run.1
  ∧ ∃ x, run.2 = inr x
         ∧ warnings x
           = [MediaValidationFailed (lit "media/e1/b.jpg")
                (MimeNotAllowed (lit "application/octet-stream"))]
         ∧ warning_categories x !! lit "Skipped due to format" = Some 1.
Proof.
  intros pre info post target run.
  set (w1 := (extract_prefix platform staging None 10 true true None 3
                pre empty_world).1).
  set (w_written := ((mkdir_p (parent target) ;; copy_member info target)
                       w1).1).
  destruct (rejected_media_is_removed platform pre info post staging None
              10 true None empty_world w1 ([], ∅) w_written staging target
              (lit "application/octet-stream") (lit "format")
              (MimeNotAllowed (lit "application/octet-stream")))
    as (w2 & _ & _ & _ & Hremoved).
  - vm_compute. reflexivity.
  - vm_compute. discriminate.
  - vm_compute. reflexivity.
  - vm_compute. reflexivity.
  - vm_compute. reflexivity.
  - vm_compute. reflexivity.
  - by exists [lit "media"; lit "e1"; lit "b.jpg"].
  - vm_compute. reflexivity.
  - vm_compute. reflexivity.
  - destruct (Hremoved eq_refl eq_refl) as [_ Hreturn]. split.
    + apply Hreturn. constructor; [|constructor].
      right. intros d t Hroute. vm_compute in Hroute.
      injection Hroute as <- <-. intros [k Hk].
      vm_compute in Hk. discriminate Hk.
    + vm_compute. eexists. split; [reflexivity|]. split; reflexivity.
Defined.

(** C3 as stated fails: the rejected [media/a.jpg] is removed, and the
    next entry, a name that is not recognised as media but resolves to
    the same path, puts the same bytes back without validation. *)
Lemma rejected_media_written_again :
  let zipf := [member "data.json" json; member "media/a.jpg" text;
               member "./media/a.jpg" text] in
  let run := stream_extract platform (inr zipf) staging None 10 true false
               None empty_world in
  (∃ x, run.2 = inr x
        ∧ warnings x
          = [MediaValidationFailed (lit "media/a.jpg")
               (MimeNotAllowed (lit "application/octet-stream"))])
  ∧ fs run.1 !! (staging ++ [lit "media"; lit "a.jpg"]) = Some (File text).
Proof.
  intros zipf run. split.
  - vm_compute. eexists. split; reflexivity.
  - vm_compute. reflexivity.
Qed.

(** A removal that fails is ignored, and the rejected file stays. *)
Example rejected_media_kept_when_unlink_fails :
  let locked := {|
    str_lower := ascii_lower; magic_from_file := sniff;
    guess_type := guess; stat_fault := λ _, None;
    unlink_fault := λ _, Some (Exn OSError (Text (lit "locked")));
    dir_st_size := 4096;
    allowed_media_types := [lit "image/*"];
    allowed_file_extensions := [lit ".jpg"] |} in
  let zipf := [member "data.json" json; member "media/a.jpg" text] in
  let run := stream_extract locked (inr zipf) staging None 10 true false
               None empty_world in
  (∃ x, run.2 = inr x ∧ length (warnings x) = 1%nat)
  ∧ fs run.1 !! (staging ++ [lit "media"; lit "a.jpg"]) = Some (File text).
Proof.
  intros locked zipf run. split.
  - vm_compute. eexists. split; reflexivity.
  - vm_compute. reflexivity.
Qed.

End Samples.

(** * Properties of the other functions and of the callers *)

(** ** What stream_extract touches *)

Section Confinement.
Import ZipHandler.
Context (P : Platform).
Implicit Types (w : world) (p q t : list (list N)) (info : ZipInfo)
  (acc : list message * gmap (list N) Z).

Lemma insert_dirs_lookup_in (keys : list (list (list N)))
  (m : gmap (list (list N)) node) t :
  t ∈ keys → foldr (λ q m', <[q := Dir]> m') m keys !! t = Some Dir.
Proof.
  induction keys as [|k keys IH]; simpl; [by intros ?%elem_of_nil|].
  intros [->|Hin]%elem_of_cons; [apply lookup_insert_eq|].
  destruct (decide (k = t)) as [->|Hne]; [apply lookup_insert_eq|].
  rewrite lookup_insert_ne by done. by apply IH.
Qed.

Lemma existsb_false_elem {A} (f : A → bool) (l : list A) x :
  existsb f l = false → x ∈ l → f x = false.
Proof.
  induction l as [|y l IH]; simpl; [by intros _ ?%elem_of_nil|].
  intros [Hy Hl]%orb_false_iff [->|Hin]%elem_of_cons; [done|by apply IH].
Qed.

Lemma is_file_false (o : option node) :
  is_file o = false → o = None ∨ o = Some Dir.
Proof. destruct o as [[d|]|]; simpl; auto. discriminate. Qed.

Lemma mkdir_p_kept (allowed : Prop) before p q :
  (p `prefix_of` q → allowed) →
  preserves (kept_or_made allowed before p) (mkdir_p q).
Proof.
  intros Hq w w' r Hw. unfold mkdir_p, bind, get_state.
  cbv beta iota.
  destruct (existsb _ _) eqn:Efile; [by intros [= <- _]|].
  intros [= <- _]. unfold kept_or_made in *. cbn [fs set_fs].
  destruct (decide (p ∈ ancestors_or_self q)) as [Hin|Hout].
  - rewrite insert_dirs_lookup_in by done.
    pose proof (existsb_false_elem _ _ _ Efile Hin) as Hf.
    apply is_file_false in Hf.
    assert (allowed) by (by apply Hq, ancestors_or_self_prefix).
    destruct Hw as [Hw|(-> & Hw & _)]; [|by right].
    rewrite Hw in Hf. destruct Hf as [->| ->]; [by right|by left].
  - by rewrite insert_dirs_lookup.
Qed.

Lemma write_file_kept (allowed : Prop) before p q data :
  p ≠ q → preserves (kept_or_made allowed before p) (write_file q data).
Proof.
  intros Hp. unfold write_file. apply preserves_bind_get. intros s _.
  destruct (_ || _); [apply preserves_raise|].
  apply preserves_modify. intros w. unfold kept_or_made. cbn [fs set_fs].
  by rewrite lookup_insert_ne.
Qed.

Lemma unlink_kept (allowed : Prop) before p q :
  p ≠ q → preserves (kept_or_made allowed before p) (unlink P q).
Proof.
  intros Hp. unfold unlink. apply preserves_bind_get. intros s _.
  destruct (unlink_fault P q); [apply preserves_raise|].
  destruct (is_file _); [|apply preserves_raise].
  apply preserves_modify. intros w. unfold kept_or_made. cbn [fs set_fs].
  by rewrite lookup_delete_ne.
Qed.

Lemma remove_invalid_kept (allowed : Prop) before p q :
  p ≠ q → preserves (kept_or_made allowed before p) (remove_invalid P q).
Proof.
  intros Hp.
  apply preserves_try_except; [|intros; apply preserves_ret].
  apply preserves_bind; [apply preserves_path_exists|].
  intros [|]; [by apply unlink_kept|apply preserves_ret].
Qed.

Lemma check_extracted_media_kept (allowed : Prop) before p max_size_mb
  info q acc :
  p ≠ q →
  preserves (kept_or_made allowed before p)
    (check_extracted_media P max_size_mb info q acc).
Proof.
  intros Hp.
  unfold check_extracted_media. apply preserves_bind_get. intros w _.
  destruct (MediaHandler.validate_media _ _ _ _ _ _)
    as [[[is_valid mime] category] msg].
  destruct is_valid; cbn [negb]; [apply preserves_ret|].
  apply preserves_bind; [by apply remove_invalid_kept|].
  intros; apply preserves_ret.
Qed.

Lemma copy_member_kept (allowed : Prop) before p info q :
  p ≠ q → preserves (kept_or_made allowed before p) (copy_member info q).
Proof.
  intros Hp. unfold copy_member. destruct (check info).
  - by apply write_file_kept.
  - apply preserves_bind; [by apply write_file_kept|].
    intros; apply preserves_raise.
  - apply preserves_raise.
Qed.

(** The directory an entry is routed to is one of the two roots. *)
Lemma route_root extract_to media_dest source_type info d t :
  route P extract_to media_dest source_type info = inr (d, t) →
  d = extract_to ∨ media_dest = Some d.
Proof.
  unfold route. destruct (is_media P source_type info).
  - destruct media_dest as [m|]; [|intros [= <- _]; by left].
    destruct (if is_dayone source_type then _ else _);
      [|discriminate]. intros [= <- _]. by right.
  - intros [= <- _]. by left.
Qed.

Lemma parent_prefix p : parent p `prefix_of` p.
Proof.
  unfold parent. destruct p as [|x l] using rev_ind; [done|].
  rewrite removelast_last. by apply prefix_app_r.
Qed.

Lemma extract_entry_kept before p extract_to media_dest max_size_mb
  validate_media progress_callback source_type total_files idx info acc :
  ¬ extract_to `prefix_of` p →
  (∀ m, media_dest = Some m → ¬ m `prefix_of` p) →
  preserves (kept_or_made (above_root extract_to media_dest p) before p)
    (extract_entry P extract_to media_dest max_size_mb validate_media
       progress_callback source_type total_files (idx, info) acc).
Proof.
  intros He Hm. unfold extract_entry.
  destruct (is_dir info) eqn:Edir; [apply preserves_ret|].
  apply preserves_bind_lift. intros [target_dir target_path] Eroute.
  case_bool_decide as Hsafe; cbn [negb]; [|apply preserves_raise].
  assert (Hout : ¬ target_dir `prefix_of` p).
  { destruct (route_root _ _ _ _ _ _ Eroute) as [->|Hd]; [done|].
    by apply Hm. }
  assert (Habove : p `prefix_of` target_path →
                   above_root extract_to media_dest p).
  { intros Hp.
    destruct (prefix_weak_total _ _ _ Hp Hsafe) as [Hpd|Hdp]; [|done].
    destruct (route_root _ _ _ _ _ _ Eroute) as [->|Hd].
    - by left.
    - right. by exists target_dir. }
  assert (Hne : p ≠ target_path) by (by intros ->).
  apply preserves_bind.
  { apply mkdir_p_kept. intros Hpre. apply Habove.
    etrans; [exact Hpre|apply parent_prefix]. }
  intros _. apply preserves_bind; [by apply copy_member_kept|].
  intros _. apply preserves_bind.
  { destruct (_ && _); [by apply check_extracted_media_kept
                       |apply preserves_ret]. }
  intros acc'. apply preserves_bind; [|intros; apply preserves_ret].
  destruct progress_callback; [|apply preserves_ret].
  by apply preserves_modify.
Qed.

(** X1.  A path that is neither at nor below [extract_to] or [media_dest]
    is left as it was, whatever the archive holds and however the call
    ends; the one exception is a missing directory on the way down to
    one of the two roots, which is made. *)
Theorem stream_extract_confined zip extract_to media_dest max_size_mb
  validate_media progress_callback source_type p w w' r :
  ¬ extract_to `prefix_of` p →
  (∀ m, media_dest = Some m → ¬ m `prefix_of` p) →
  stream_extract P zip extract_to media_dest max_size_mb validate_media
    progress_callback source_type w = (w', r) →
  fs w' !! p = fs w !! p
  ∨ (fs w !! p = None ∧ fs w' !! p = Some Dir
     ∧ above_root extract_to media_dest p).
Proof.
  intros He Hm Hrun.
  assert (Hinv : preserves
    (kept_or_made (above_root extract_to media_dest p) (fs w !! p) p)
    (stream_extract P zip extract_to media_dest max_size_mb
       validate_media progress_callback source_type)).
  { apply preserves_try_except; [|intros; apply reraise_preserves].
    unfold stream_extract_body.
    apply preserves_bind_lift. intros zipf _.
    apply preserves_bind_lift. intros bad _.
    destruct (bool_decide _); [apply preserves_raise|].
    cbv zeta. destruct (_ >? _); [apply preserves_raise|].
    apply preserves_bind; [apply mkdir_p_kept; by left|].
    intros _. apply preserves_bind; [|intros; apply finish_preserves].
    unfold extract_entries. apply preserves_for_each.
    apply Forall_forall. intros [idx info] _ b.
    by apply extract_entry_kept. }
  specialize (Hinv w w' r (or_introl eq_refl) Hrun).
  destruct Hinv as [Hk|(Hb & Hd & Ha)]; [by left|by right].
Qed.

End Confinement.

(** ** What stream_extract returns *)

Section Returned.
Import ZipHandler.
Context (P : Platform).
Implicit Types (w : world) (p q t : list (list N)) (info : ZipInfo)
  (acc : list message * gmap (list N) Z).

Lemma bind_inl_inv {S A B} (c : SE S A) (k : A → SE S B) s s' e :
  bind c k s = (s', inl e) →
  c s = (s', inl e) ∨ ∃ s1 a, c s = (s1, inr a) ∧ k a s1 = (s', inl e).
Proof.
  unfold bind. destruct (c s) as [s1 [e1|a]]; intros H.
  - injection H as -> ->. by left.
  - right. by exists s1, a.
Qed.

(** A run of [stream_extract] that returns went through every stage. *)
Lemma stream_extract_returns zip extract_to media_dest max_size_mb
  validate_media progress_callback source_type w w' x :
  stream_extract P zip extract_to media_dest max_size_mb validate_media
    progress_callback source_type w = (w', inr x) →
  ∃ zipf w1 w2 acc,
    zip = inr zipf ∧ testzip zipf = inr None
    ∧ sum_sizes zipf ≤ max_size_mb * 1024 * 1024
    ∧ mkdir_p extract_to w = (w1, inr tt)
    ∧ extract_entries P extract_to media_dest max_size_mb validate_media
        progress_callback source_type (Z.of_nat (length zipf))
        (enumerate 1 zipf) ([], ∅) w1 = (w2, inr acc)
    ∧ finish P extract_to media_dest source_type (sum_sizes zipf) zipf acc
        w2 = (w', inr x).
Proof.
  unfold stream_extract, try_except.
  destruct (stream_extract_body _ _ _ _ _ _ _ _) as [w1 [e|y]] eqn:Ebody.
  { unfold reraise. destruct (exn_cls e); done. }
  intros [= <- <-]. revert Ebody. unfold stream_extract_body.
  intros (w2 & z & Hz & Hrun)%bind_inr_inv. injection Hz as <- ->.
  apply bind_inr_inv in Hrun as (w3 & bad & Hbad & Hrun).
  injection Hbad as <- Hbad.
  case_bool_decide as Hsome; [done|]. cbv zeta in Hrun.
  destruct (Z.gtb_spec (sum_sizes z) (max_size_mb * 1024 * 1024));
    [done|].
  apply bind_inr_inv in Hrun as (w4 & [] & Hmk & Hrun).
  apply bind_inr_inv in Hrun as (w5 & acc & Hloop & Hfin).
  exists z, w4, w5, acc. repeat split; try done.
  destruct bad; [|done]. exfalso. by apply Hsome.
Qed.

End Returned.

Section Returned2.
Import ZipHandler.
Context (P : Platform).
Implicit Types (w : world) (p q t : list (list N)) (info : ZipInfo)
  (acc : list message * gmap (list N) Z).

Lemma path_exists_inr p w w' b :
  path_exists P p w = (w', inr b) →
  w' = w ∧ b = bool_decide (is_Some (node_at (fs w) p)).
Proof.
  unfold path_exists, os_stat, bind, get_state. cbv beta iota.
  destruct (stat_fault P p); [done|]. unfold ret.
  by intros [= <- <-].
Qed.

Lemma hd_error_elem {A} (l : list A) x : List.hd_error l = Some x → x ∈ l.
Proof. destruct l; [done|]. intros [= ->]. apply list_elem_of_here. Qed.

(** What [finish] returns, read off its run. *)
Lemma finish_returns extract_to media_dest source_type total entries acc
  w w' x :
  finish P extract_to media_dest source_type total entries acc w
    = (w', inr x) →
  w' = w
  ∧ total_size x = total
  ∧ file_count x = Z.of_nat (length entries)
  ∧ warnings x = acc.1 ∧ warning_categories x = acc.2
  ∧ is_Some (node_at (fs w) (data_file x))
  ∧ (if is_dayone source_type
     then data_file x ≠ [] ∧ parent (data_file x) = extract_to
          ∧ endswith (List.last (data_file x) []) (lit ".json") = true
     else data_file x = extract_to ++ [lit "data.json"])
  ∧ (∀ d, media_dir x = Some d →
       is_Some (node_at (fs w) d)
       ∧ (media_dest = Some d
          ∨ d = (if is_dayone source_type then extract_to
                 else extract_to ++ [lit "media"]))).
Proof.
  unfold finish.
  intros (w1 & [df md] & Hfound & Hrun)%bind_inr_inv.
  apply bind_inr_inv in Hrun as (w2 & md' & Hmd & Hrun).
  destruct df as [df|]; [|done].
  apply bind_inr_inv in Hrun as (w3 & ex & Hex & Hrun).
  destruct ex; cbn [negb] in Hrun; [|done].
  apply bind_inr_inv in Hrun as (w4 & mex & Hmex & Hrun).
  injection Hrun as <- <-. cbn.
  apply path_exists_inr in Hex as [-> Hex].
  apply path_exists_inr in Hmex as [-> Hmex].
  symmetry in Hex. apply bool_decide_eq_true in Hex.
  assert (w2 = w1 ∧ (media_dest = Some md' ∨ md' = md)) as [-> Hmd'].
  { destruct media_dest as [m|].
    - apply bind_inr_inv in Hmd as (w5 & b & Hb & Hmd).
      apply path_exists_inr in Hb as [-> _]. injection Hmd as <- <-.
      split; [done|]. destruct b; [by left|by right].
    - injection Hmd as <- <-. split; [done|by right]. }
  assert (w1 = w ∧
    (if is_dayone source_type
     then df ≠ [] ∧ parent df = extract_to
          ∧ endswith (List.last df []) (lit ".json") = true
     else df = extract_to ++ [lit "data.json"])
    ∧ md = (if is_dayone source_type then extract_to
            else extract_to ++ [lit "media"])) as (-> & Hdf & ->).
  { destruct (is_dayone source_type).
    - apply bind_inr_inv in Hfound as (w5 & l & Hl & Hfound).
      unfold ret in Hfound. injection Hfound. intros <- Hhd <-.
      unfold glob_json, bind, get_state, ret in Hl.
      injection Hl as <- <-. split; [done|]. split; [|done].
      apply hd_error_elem in Hhd.
      by apply list_elem_of_filter in Hhd as [Hq _].
    - unfold ret in Hfound. by injection Hfound as <- <- <-. }
  do 7 (split; [done|]).
  intros d Hd. destruct mex; [|done]. injection Hd as <-.
  symmetry in Hmex. by apply bool_decide_eq_true in Hmex.
Qed.

(** X2.  The size and the count of a returned result are those of the
    archive: the size is the sum of the declared sizes and is within the
    limit, the count is the number of all entries, directory entries
    included. *)
Theorem stream_extract_totals zip extract_to media_dest max_size_mb
  validate_media progress_callback source_type w w' x :
  stream_extract P zip extract_to media_dest max_size_mb validate_media
    progress_callback source_type w = (w', inr x) →
  ∃ zipf, zip = inr zipf
    ∧ total_size x = sum_sizes zipf
    ∧ total_size x ≤ max_size_mb * 1024 * 1024
    ∧ file_count x = Z.of_nat (length zipf).
Proof.
  intros (zipf & w1 & w2 & acc & -> & _ & Hsize & _ & _ & Hfin)
    %stream_extract_returns.
  apply finish_returns in Hfin as (_ & Hts & Hfc & _).
  exists zipf. rewrite Hts. by repeat split.
Qed.

(** X3.  The data file of a returned result exists when [stream_extract]
    returns, and it lies directly in [extract_to]: it is [data.json]
    there, or for a Day One archive a file whose name ends in [.json].
    A media directory is reported only if it exists, and it is
    [media_dest], or [media] in [extract_to] ([extract_to] itself for a
    Day One archive). *)
Theorem stream_extract_result_exists zip extract_to media_dest max_size_mb
  validate_media progress_callback source_type w w' x :
  stream_extract P zip extract_to media_dest max_size_mb validate_media
    progress_callback source_type w = (w', inr x) →
  is_Some (node_at (fs w') (data_file x))
  ∧ (if is_dayone source_type
     then data_file x ≠ [] ∧ parent (data_file x) = extract_to
          ∧ endswith (List.last (data_file x) []) (lit ".json") = true
     else data_file x = extract_to ++ [lit "data.json"])
  ∧ (∀ d, media_dir x = Some d →
       is_Some (node_at (fs w') d)
       ∧ (media_dest = Some d
          ∨ d = (if is_dayone source_type then extract_to
                 else extract_to ++ [lit "media"]))).
Proof.
  intros (zipf & w1 & w2 & acc & -> & _ & Hsize & _ & _ & Hfin)
    %stream_extract_returns.
  by apply finish_returns in Hfin as (-> & _ & _ & _ & _ & Hdf & Hwhere & Hmd).
Qed.

End Returned2.

(** ** The warnings of stream_extract *)

Section Warnings.
Import ZipHandler.
Context (P : Platform).
Implicit Types (w : world) (p q t : list (list N)) (info : ZipInfo)
  (acc : list message * gmap (list N) Z).

Lemma total_count_insert (k : list N) (v : Z) (d : gmap (list N) Z) :
  total_count (<[k := v]> d) = v + total_count (delete k d).
Proof.
  unfold total_count. rewrite <- insert_delete_eq.
  rewrite map_fold_insert_L; [done| |apply lookup_delete_eq].
  intros; lia.
Qed.

Lemma total_count_lookup (k : list N) (d : gmap (list N) Z) :
  total_count d = default 0 (d !! k) + total_count (delete k d).
Proof.
  destruct (d !! k) as [v|] eqn:E; cbn [default].
  - unfold total_count.
    rewrite (map_fold_delete_L _ _ k v d); [done| |done].
    intros; lia.
  - by rewrite delete_id.
Qed.

Lemma total_count_bump (k : list N) (d : gmap (list N) Z) :
  total_count (bump k d) = total_count d + 1.
Proof.
  unfold bump. rewrite total_count_insert, (total_count_lookup k d). lia.
Qed.

(** The validation of one extracted file leaves the accumulator as it
    is or adds one warning for the entry, counted once. *)
Lemma check_extracted_media_acc max_size_mb info p acc w w' acc' :
  check_extracted_media P max_size_mb info p acc w = (w', inr acc') →
  acc' = acc
  ∨ ∃ msg category,
      acc' = (acc.1 ++ [MediaValidationFailed (filename info) msg],
              bump (display_category category) acc.2).
Proof.
  unfold check_extracted_media, bind at 1, get_state. cbv beta iota.
  destruct (MediaHandler.validate_media _ _ _ _ _ _)
    as [[[is_valid mime] category] msg].
  destruct is_valid; cbn [negb].
  - intros [= _ <-]. by left.
  - intros (w1 & [] & _ & Hret)%bind_inr_inv. injection Hret as _ <-.
    right. by exists msg, category.
Qed.

Lemma extract_entry_acc extract_to media_dest max_size_mb validate_media
  progress_callback source_type total_files idx info acc w w' acc' :
  extract_entry P extract_to media_dest max_size_mb validate_media
    progress_callback source_type total_files (idx, info) acc w
    = (w', inr acc') →
  acc' = acc
  ∨ (is_dir info = false ∧ is_media P source_type info = true
     ∧ validate_media = true
     ∧ ∃ msg category,
         acc' = (acc.1 ++ [MediaValidationFailed (filename info) msg],
                 bump (display_category category) acc.2)).
Proof.
  unfold extract_entry.
  destruct (is_dir info) eqn:Edir; [intros [= _ <-]; by left|].
  intros (w0 & [d p] & Hroute & Hrun)%bind_inr_inv.
  destruct (negb _); [done|].
  apply bind_inr_inv in Hrun as (wa & [] & Hmk & Hrun).
  apply bind_inr_inv in Hrun as (wb & [] & Hcp & Hrun).
  apply bind_inr_inv in Hrun as (wc & acc2 & Hck & Hrun).
  apply bind_inr_inv in Hrun as (wd & [] & Hlog & Hrun).
  injection Hrun as _ <-.
  destruct (is_media P source_type info); cbn [andb] in Hck;
    [|injection Hck as _ <-; by left].
  destruct validate_media; [|injection Hck as _ <-; by left].
  apply check_extracted_media_acc in Hck as [->|Hck]; [by left|].
  by right.
Qed.

Lemma extract_entries_acc (J : list message * gmap (list N) Z → Prop)
  extract_to media_dest max_size_mb validate_media progress_callback
  source_type total_files (entries : list (Z * ZipInfo)) acc w w' acc' :
  (∀ info msg category a,
     info ∈ entries.*2 → is_dir info = false →
     is_media P source_type info = true → validate_media = true →
     J a →
     J (a.1 ++ [MediaValidationFailed (filename info) msg],
        bump (display_category category) a.2)) →
  J acc →
  extract_entries P extract_to media_dest max_size_mb validate_media
    progress_callback source_type total_files entries acc w
    = (w', inr acc') →
  J acc'.
Proof.
  unfold extract_entries.
  revert acc w. induction entries as [|[idx info] l IH]; intros acc w HJ.
  - by intros Hacc [= _ <-].
  - cbn [for_each]. intros Hacc (w1 & acc1 & Hstep & Hrest)%bind_inr_inv.
    eapply IH; [ |  |exact Hrest].
    + intros info' msg category a Hin. apply HJ.
      cbn [fmap list_fmap snd]. by apply list_elem_of_further.
    + apply extract_entry_acc in Hstep
        as [->|(Hd & Hm & Hv & msg & category & ->)]; [done|].
      apply HJ; try done. cbn [fmap list_fmap snd].
      apply list_elem_of_here.
Qed.

(** X4.  The histogram of a returned result counts every warning once: its
    counts add up to the number of warnings. *)
Theorem stream_extract_warnings_counted zip extract_to media_dest
  max_size_mb validate_media progress_callback source_type w w' x :
  stream_extract P zip extract_to media_dest max_size_mb validate_media
    progress_callback source_type w = (w', inr x) →
  total_count (warning_categories x) = Z.of_nat (length (warnings x)).
Proof.
  intros (zipf & w1 & w2 & acc & -> & _ & _ & _ & Hloop & Hfin)
    %stream_extract_returns.
  apply finish_returns in Hfin as (_ & _ & _ & -> & -> & _).
  revert Hloop. apply (extract_entries_acc warnings_counted); [|done].
  intros info msg category a _ _ _ _. unfold warnings_counted.
  cbn [fst snd]. rewrite total_count_bump, length_app. cbn [length].
  lia.
Qed.

(** X5.  Every warning of a returned result is about a media file of the
    archive, and there is none when [validate_media] is off. *)
Theorem stream_extract_warnings_about_media zip extract_to media_dest
  max_size_mb validate_media progress_callback source_type w w' x :
  stream_extract P zip extract_to media_dest max_size_mb validate_media
    progress_callback source_type w = (w', inr x) →
  (validate_media = false →
     warnings x = [] ∧ warning_categories x = ∅)
  ∧ ∃ zipf, zip = inr zipf
    ∧ Forall (λ m, ∃ info msg,
                m = MediaValidationFailed (filename info) msg
                ∧ info ∈ zipf ∧ is_dir info = false
                ∧ is_media P source_type info = true)
        (warnings x).
Proof.
  intros (zipf & w1 & w2 & acc & -> & _ & _ & _ & Hloop & Hfin)
    %stream_extract_returns.
  apply finish_returns in Hfin as (_ & _ & _ & -> & -> & _).
  split.
  - intros ->. revert Hloop.
    apply (extract_entries_acc (λ a, a.1 = [] ∧ a.2 = ∅)); done.
  - exists zipf. split; [done|]. revert Hloop.
    apply (extract_entries_acc
             (λ a, Forall (λ m, ∃ info msg,
                m = MediaValidationFailed (filename info) msg
                ∧ info ∈ zipf ∧ is_dir info = false
                ∧ is_media P source_type info = true) a.1));
      [|by constructor].
    intros info msg category a Hin Hd Hm _ Ha. cbn [fst].
    apply Forall_app. split; [done|]. constructor; [|constructor].
    exists info, msg. rewrite enumerate_snd in Hin. done.
Qed.

End Warnings.

(** ** The progress calls of stream_extract, whatever its outcome *)

Section ProgressAnyOutcome.
Import ZipHandler.
Context (P : Platform).
Implicit Types (w : world) (p q t : list (list N)) (info : ZipInfo)
  (acc : list message * gmap (list N) Z).








End ProgressAnyOutcome.

(** ** validate_zip_structure: what the result says *)

Section Validation.
Import ZipHandler.
Implicit Types (r : validation) (zipf : list ZipInfo).

(** The scan for unsafe paths reports every unsafe name, in archive
    order, and goes on to the end. *)
Lemma unsafe_scan (names : list (list N)) r :
  for_each names
    (λ filename (_ : unit),
       if str_contains filename (lit "..")
          || startswith filename [ch_slash]
       then modify (set_valid false) ;;
            modify (append_error (UnsafePathInZip filename))
       else ret tt) tt r
  = (Validation
       (valid r && forallb (λ f, negb (unsafe_name f)) names)
       (has_data_file r) (has_media r) (v_file_count r) (v_total_size r)
       (errors r
        ++ (UnsafePathInZip <$> filter (λ f, unsafe_name f = true) names)),
     inr tt).
Proof.
  revert r. induction names as [|f names IH]; intros r.
  - cbn. rewrite andb_true_r, app_nil_r. by destruct r.
  - cbn [for_each forallb]. unfold bind at 1. fold (unsafe_name f).
    destruct (unsafe_name f) eqn:Ef.
    + unfold bind at 1, modify at 1 2. cbv beta iota. rewrite IH.
      cbn [valid set_valid append_error has_data_file has_media
           v_file_count v_total_size errors negb andb].
      rewrite filter_cons_True by done. rewrite andb_false_r.
      cbn [fmap list_fmap]. by rewrite <- app_assoc.
    + unfold ret at 1. cbv beta iota. rewrite IH.
      rewrite filter_cons_False by (by rewrite Ef). done.
Qed.


Lemma bind_lift_inr {S A B} (a : A) (k : A → SE S B) s :
  bind (lift (inr a)) k s = k a s.
Proof. done. Qed.

Lemma bind_modify {S B} (f : S → S) (k : unit → SE S B) s :
  bind (modify f) k s = k tt (f s).
Proof. done. Qed.

Ltac vsimpl :=
  unfold initial_result;
  cbn [valid has_data_file has_media v_file_count v_total_size errors
       set_has_media set_has_data_file set_valid append_error
       set_total_size set_file_count andb app].

Lemma validate_zip_checks_sound zipf source_type :
  testzip zipf = inr None →
  ∃ ok media,
    (ok = true ↔ has_data_entry source_type (namelist zipf))
    ∧ validate_zip_checks (inr zipf) source_type initial_result
      = (Validation
          (ok && forallb (λ f, negb (unsafe_name f)) (namelist zipf))
          ok media (Z.of_nat (length zipf)) (sum_sizes zipf)
          ((if ok then [] else [missing_data_error source_type])
           ++ (UnsafePathInZip
                 <$> filter (λ f, unsafe_name f = true) (namelist zipf))),
         inr tt).
Proof.
  intros Htest. unfold validate_zip_checks.
  rewrite bind_lift_inr, Htest, bind_lift_inr. cbv zeta.
  rewrite !bind_modify.
  replace (length (namelist zipf)) with (length zipf)
    by (unfold namelist; by rewrite length_fmap).
  unfold missing_data_error, has_data_entry.
  destruct (is_dayone source_type).
  - case_bool_decide as Hroot; cbn [negb].
    + exists false. eexists. split.
      { split; [done|]. intros (f & Hin & Hj & Hs). exfalso.
        by apply (filter_nil_not_elem_of _ _ f Hroot). }
      rewrite bind_assoc, !bind_modify, unsafe_scan. by vsimpl.
    + exists true. eexists. split.
      { split; [|done]. intros _.
        destruct (filter _ _) as [|f l] eqn:Ef; [done|].
        assert (f ∈ f :: l) as Hf by apply list_elem_of_here.
        rewrite <- Ef in Hf. apply list_elem_of_filter in Hf as [[? ?] ?].
        by exists f. }
      rewrite !bind_modify, unsafe_scan. by vsimpl.
  - case_bool_decide as Hdata.
    + exists true. eexists. split; [done|].
      rewrite !bind_modify, unsafe_scan. by vsimpl.
    + exists false. eexists. split; [done|].
      rewrite bind_assoc, !bind_modify, unsafe_scan. by vsimpl.
Qed.

Lemma validate_zip_structure_sound zipf source_type :
  testzip zipf = inr None →
  ∃ ok media,
    (ok = true ↔ has_data_entry source_type (namelist zipf))
    ∧ (validate_zip_structure (inr zipf) source_type).1
      = Validation
          (ok && forallb (λ f, negb (unsafe_name f)) (namelist zipf))
          ok media (Z.of_nat (length zipf)) (sum_sizes zipf)
          ((if ok then [] else [missing_data_error source_type])
           ++ (UnsafePathInZip
                 <$> filter (λ f, unsafe_name f = true) (namelist zipf))).
Proof.
  intros Htest.
  destruct (validate_zip_checks_sound zipf source_type Htest)
    as (ok & media & Hok & Hrun).
  exists ok, media. split; [done|].
  unfold validate_zip_structure, try_except, bind. by rewrite Hrun.
Qed.

(** X7.  On an archive that passes the integrity test the result counts all
    entries and adds up their declared sizes; [has_data_file] tells
    whether the data file of the source type is there; the errors are
    the missing data file, if it is missing, followed by one error for
    each unsafe name, in archive order; and [valid] holds exactly when
    the data file is there and no name is unsafe. *)
Theorem validate_zip_structure_sound_archive zipf source_type :
  testzip zipf = inr None →
  let v := (validate_zip_structure (inr zipf) source_type).1 in
  v_file_count v = Z.of_nat (length zipf)
  ∧ v_total_size v = sum_sizes zipf
  ∧ (has_data_file v = true ↔ has_data_entry source_type (namelist zipf))
  ∧ errors v
    = (if has_data_file v then [] else [missing_data_error source_type])
      ++ (UnsafePathInZip
            <$> filter (λ f, unsafe_name f = true) (namelist zipf))
  ∧ valid v
    = has_data_file v
      && forallb (λ f, negb (unsafe_name f)) (namelist zipf).
Proof.
  intros Htest v.
  destruct (validate_zip_structure_sound zipf source_type Htest)
    as (ok & media & Hok & Hv).
  subst v. rewrite Hv. cbn. done.
Qed.

Lemma forallb_filter_nil {A} (f : A → bool) (l : list A) :
  forallb (λ x, negb (f x)) l = true ↔ filter (λ x, f x = true) l = [].
Proof.
  induction l as [|x l IH]; [done|]. cbn [forallb].
  destruct (f x) eqn:E.
  - rewrite filter_cons_True by done. done.
  - rewrite filter_cons_False by (by rewrite E). cbn. done.
Qed.

(** The result either is valid and lists no error, or is invalid and
    lists one. *)
Lemma validation_outcomes (zip : archive) (source_type : option (list N)) :
  (valid (validate_zip_structure zip source_type).1 = true
   ∧ errors (validate_zip_structure zip source_type).1 = [])
  ∨ (valid (validate_zip_structure zip source_type).1 = false
     ∧ errors (validate_zip_structure zip source_type).1 ≠ []).
Proof.
  destruct zip as [e0|zipf].
  { unfold validate_zip_structure.
    cbv beta iota delta
      [bind try_except validate_zip_checks lift ret fst snd].
    rewrite validation_handler_result. cbn. by right. }
  destruct (testzip zipf) as [e1|[bad|]] eqn:Etest.
  - unfold validate_zip_structure.
    cbv beta iota delta
      [bind try_except validate_zip_checks lift ret fst snd].
    rewrite Etest. cbv beta iota.
    rewrite validation_handler_result. cbn. by right.
  - unfold validate_zip_structure.
    cbv beta iota delta
      [bind try_except validate_zip_checks lift ret modify fst snd].
    rewrite Etest. cbv beta iota. cbn. by right.
  - destruct (validate_zip_structure_sound zipf source_type Etest)
      as (ok & media & Hok & ->).
    cbn [valid errors].
    destruct ok; cbn [app andb]; [|by right].
    destruct (forallb _ _) eqn:Hall.
    + left. split; [done|].
      apply forallb_filter_nil in Hall. by rewrite Hall.
    + right. split; [done|]. intros Hnil%fmap_nil_inv.
      apply forallb_filter_nil in Hnil. congruence.
Qed.

(** X8.  Whatever the archive, the result is valid exactly when it lists no
    error. *)
Theorem validate_zip_structure_valid_iff_no_error (zip : archive)
  (source_type : option (list N)) :
  let v := (validate_zip_structure zip source_type).1 in
  valid v = true ↔ errors v = [].
Proof.
  cbv zeta.
  destruct (validation_outcomes zip source_type)
    as [[Hv He]|[Hv He]]; rewrite Hv.
  - by rewrite He.
  - split; [done|]. intros Hnil. by destruct He.
Qed.

End Validation.

(** ** Validation, then extraction *)

Section ValidatedRoutes.
Import ZipHandler.
Context (P : Platform).
Implicit Types (info : ZipInfo) (zipf : list ZipInfo).

Lemma split_on_cons_inv sep s : ∃ w ws, split_on sep s = w :: ws.
Proof.
  destruct s as [|c s]; [by eexists _, _|]. cbn [split_on].
  destruct (N.eqb c sep); [by eexists _, _|].
  destruct (split_on sep s); by eexists _, _.
Qed.

Lemma split_on_head_prefix sep s w ws :
  split_on sep s = w :: ws → startswith s w = true.
Proof.
  revert w ws. induction s as [|c s IH]; intros w ws.
  - by intros [= <- _].
  - cbn [split_on]. destruct (N.eqb c sep); [by intros [= <- _]|].
    destruct (split_on_cons_inv sep s) as (w' & ws' & E). rewrite E.
    intros [= <- _]. cbn [startswith]. rewrite N.eqb_refl. by eapply IH.
Qed.

Lemma split_on_contains sep s c :
  c ∈ split_on sep s → str_contains s c = true.
Proof.
  induction s as [|x s IH].
  - cbn. intros ->%list_elem_of_singleton. done.
  - cbn [split_on str_contains]. destruct (N.eqb x sep) eqn:Ex.
    + intros [->|Hin]%elem_of_cons; [done|].
      rewrite IH by done. apply orb_true_r.
    + destruct (split_on_cons_inv sep s) as (w' & ws' & E).
      rewrite E in *. intros [->|Hin]%elem_of_cons.
      * cbn [startswith]. rewrite N.eqb_refl.
        by rewrite (split_on_head_prefix _ _ _ _ E).
      * rewrite IH; [apply orb_true_r|]. by apply list_elem_of_further.
Qed.

Lemma pure_parts_no_dotdot s :
  str_contains s (lit "..") = false → [ch_dot; ch_dot] ∉ pure_parts s.
Proof.
  intros Hs Hin. unfold pure_parts in Hin.
  apply list_elem_of_filter in Hin as [_ Hin].
  apply split_on_contains in Hin.
  change (lit "..") with [ch_dot; ch_dot] in Hs. congruence.
Qed.

Lemma normalize_from (acc comps : list (list N)) :
  [ch_dot; ch_dot] ∉ comps →
  foldl (λ acc c, if bool_decide (c = [ch_dot; ch_dot])
                  then removelast acc else acc ++ [c]) acc comps
  = acc ++ comps.
Proof.
  revert acc. induction comps as [|c comps IH]; intros acc Hno.
  - by rewrite app_nil_r.
  - apply not_elem_of_cons in Hno as [Hc Hno]. cbn [foldl].
    rewrite bool_decide_false by done. rewrite IH by done.
    by rewrite <- app_assoc.
Qed.

Lemma normalize_clean (comps : list (list N)) :
  [ch_dot; ch_dot] ∉ comps → normalize comps = comps.
Proof. intros H. unfold normalize. by rewrite normalize_from. Qed.

(** A relative path without parent-directory components resolves to a
    path below the root it is joined to. *)
Lemma resolve_under_clean (root : list (list N)) (q : path) :
  [ch_dot; ch_dot] ∉ root → is_abs q = false →
  [ch_dot; ch_dot] ∉ parts q →
  resolve_under root q = root ++ parts q.
Proof.
  intros Hroot Hq Hparts. unfold resolve_under, joinpath. rewrite Hq.
  cbn [parts of_apath]. apply normalize_clean.
  intros [?|?]%elem_of_app; done.
Qed.

Lemma startswith_app (s p : list N) :
  startswith s p = true → ∃ r, s = p ++ r.
Proof.
  revert s. induction p as [|b p IH]; intros s; [by exists s|].
  destruct s as [|a s]; [done|]. cbn [startswith].
  destruct (N.eqb_spec a b) as [->|]; [|done].
  intros [r ->]%IH. by exists r.
Qed.

(** A name under [media/] is relative to [media]. *)
Lemma relative_to_media (name : list N) :
  startswith name (lit "media/") = true →
  ∃ rest, pure_parts name = lit "media" :: rest
    ∧ relative_to (parse_path name) (parse_path (lit "media"))
      = Some (Path false rest).
Proof.
  intros [r ->]%startswith_app.
  exists (pure_parts r).
  assert (Hparts : pure_parts (lit "media/" ++ r)
                   = lit "media" :: pure_parts r).
  { unfold pure_parts.
    change (lit "media/") with [109; 101; 100; 105; 97; 47]%N.
    change (lit "media") with [109; 101; 100; 105; 97]%N.
    cbn [app split_on].
    change (N.eqb 109 ch_slash) with false.
    change (N.eqb 101 ch_slash) with false.
    change (N.eqb 100 ch_slash) with false.
    change (N.eqb 105 ch_slash) with false.
    change (N.eqb 97 ch_slash) with false.
    change (N.eqb 47 ch_slash) with true. cbv iota.
    by rewrite filter_cons_True. }
  split; [done|].
  unfold relative_to, parse_path. cbn [is_abs parts]. rewrite Hparts.
  change (pure_parts (lit "media")) with [lit "media"].
  change (startswith (lit "media") [ch_slash]) with false.
  change (lit "media/") with [109; 101; 100; 105; 97; 47]%N.
  cbn [app startswith]. change (N.eqb 109 ch_slash) with false.
  cbv iota.
  rewrite bool_decide_true; [done|]. split; [done|].
  by exists (pure_parts r).
Qed.


Lemma valid_archive_names zip source_type :
  valid (validate_zip_structure zip source_type).1 = true →
  ∃ zipf, zip = inr zipf ∧ testzip zipf = inr None
    ∧ has_data_entry source_type (namelist zipf)
    ∧ Forall (λ f, unsafe_name f = false) (namelist zipf).
Proof.
  destruct zip as [e0|zipf].
  { unfold validate_zip_structure.
    cbv beta iota delta
      [bind try_except validate_zip_checks lift ret fst snd].
    rewrite validation_handler_result. cbn. done. }
  destruct (testzip zipf) as [e1|[bad|]] eqn:Etest.
  - unfold validate_zip_structure.
    cbv beta iota delta
      [bind try_except validate_zip_checks lift ret fst snd].
    rewrite Etest. cbv beta iota.
    rewrite validation_handler_result. cbn. done.
  - unfold validate_zip_structure.
    cbv beta iota delta
      [bind try_except validate_zip_checks lift ret modify fst snd].
    rewrite Etest. cbv beta iota. cbn. done.
  - destruct (validate_zip_structure_sound zipf source_type Etest)
      as (ok & media & Hok & ->).
    cbn [valid]. intros [-> Hall]%andb_true_iff.
    exists zipf. split; [done|]. split; [done|]. split; [by apply Hok|].
    apply Forall_forall. intros f Hf.
    rewrite forallb_forall in Hall.
    apply list_elem_of_In, Hall in Hf. by destruct (unsafe_name f).
Qed.

(** X9.  Validation, then extraction: every entry of an archive that
    [validate_zip_structure] finds valid is routed by [stream_extract]
    to a path below the root chosen for it, so that the path traversal
    check of the extraction passes for it. *)
Theorem validated_archive_routes_inside zip source_type extract_to
  media_dest :
  valid (validate_zip_structure zip source_type).1 = true →
  [ch_dot; ch_dot] ∉ extract_to →
  (∀ m, media_dest = Some m → [ch_dot; ch_dot] ∉ m) →
  ∃ zipf, zip = inr zipf
    ∧ ∀ info, info ∈ zipf →
        ∃ target_dir rel,
          route P extract_to media_dest source_type info
            = inr (target_dir, target_dir ++ rel)
          ∧ (target_dir = extract_to ∨ media_dest = Some target_dir)
          ∧ target_dir `prefix_of` target_dir ++ rel.
Proof.
  intros (zipf & -> & _ & _ & Hnames)%valid_archive_names Hroot Hmedia.
  exists zipf. split; [done|]. intros info Hin.
  assert (Hsafe : unsafe_name (filename info) = false).
  { rewrite Forall_forall in Hnames. apply Hnames.
    unfold namelist. by apply list_elem_of_fmap_2. }
  apply orb_false_iff in Hsafe as [Hdots Hslash].
  pose proof (pure_parts_no_dotdot _ Hdots) as Hparts.
  assert (Hstaging :
    resolve_under extract_to (parse_path (filename info))
    = extract_to ++ pure_parts (filename info)).
  { by apply resolve_under_clean. }
  unfold route.
  destruct (is_media P source_type info) eqn:Emedia;
    [destruct media_dest as [m|]|].
  - unfold is_media in Emedia. destruct (is_dayone source_type).
    + exists m, (pure_parts (filename info)).
      rewrite resolve_under_clean by (try done; by apply Hmedia).
      split; [done|]. split; [by right|]. by apply prefix_app_r.
    + destruct (relative_to_media _ Emedia) as (rest & Hpp & ->).
      exists m, rest.
      rewrite resolve_under_clean; try done.
      * split; [done|]. split; [by right|]. by apply prefix_app_r.
      * by apply Hmedia.
      * cbn [parts]. rewrite Hpp in Hparts.
        by apply not_elem_of_cons in Hparts as [_ ?].
  - exists extract_to, (pure_parts (filename info)). rewrite Hstaging.
    split; [done|]. split; [by left|]. by apply prefix_app_r.
  - exists extract_to, (pure_parts (filename info)). rewrite Hstaging.
    split; [done|]. split; [by left|]. by apply prefix_app_r.
Qed.

End ValidatedRoutes.

(** ** extract_zip *)

Section ExtractZipFacts.
Import ZipHandler ExtractZip.
Context (P : Platform).
Context (extractall : list ZipInfo → list (list N) → SE world unit).
Implicit Types (w : world) (info : ZipInfo) (zipf : list ZipInfo).

(** The scan stops at the first entry that resolves outside
    [extract_to], and it changes nothing. *)
Lemma check_paths_unsafe extract_to pre info post w :
  Forall (λ i, extract_to `prefix_of`
                 resolve_under extract_to (parse_path (filename i))) pre →
  ¬ extract_to `prefix_of`
      resolve_under extract_to (parse_path (filename info)) →
  check_paths extract_to (pre ++ info :: post) w
  = (w, inl (Exn ValueError (UnsafePath (filename info)))).
Proof.
  intros Hpre Hinfo. unfold check_paths.
  induction Hpre as [|i pre Hi Hpre IH].
  - cbn [app for_each]. unfold bind. cbv zeta.
    by rewrite bool_decide_false.
  - cbn [app for_each]. unfold bind at 1. cbv zeta.
    rewrite bool_decide_true by done. cbn [negb]. unfold ret at 1.
    apply IH.
Qed.

Lemma check_paths_safe extract_to zipf w :
  Forall (λ i, extract_to `prefix_of`
                 resolve_under extract_to (parse_path (filename i))) zipf →
  check_paths extract_to zipf w = (w, inr tt).
Proof.
  intros Hall. unfold check_paths.
  induction Hall as [|i l Hi Hall IH]; [done|].
  cbn [for_each]. unfold bind at 1. cbv zeta.
  rewrite bool_decide_true by done. cbn [negb]. unfold ret at 1.
  apply IH.
Qed.

(** X10.  An archive with an entry, directory entries included, that resolves
    outside [extract_to] is refused before [extractall] runs: the call
    fails for the first such entry, and all it has done is to make
    [extract_to]. *)
Theorem extract_zip_unsafe_entry pre info post extract_to max_size_mb
  source_type w w1 :
  let zipf := pre ++ info :: post in
  testzip zipf = inr None →
  sum_sizes zipf ≤ max_size_mb * 1024 * 1024 →
  mkdir_p extract_to w = (w1, inr tt) →
  Forall (λ i, extract_to `prefix_of`
                 resolve_under extract_to (parse_path (filename i))) pre →
  ¬ extract_to `prefix_of`
      resolve_under extract_to (parse_path (filename info)) →
  extract_zip P extractall (inr zipf) extract_to max_size_mb source_type w
  = (w1, inl (Exn IOError (ExtractionFailed (UnsafePath (filename info))))).
Proof.
  intros zipf Htest Hsize Hmk Hpre Hinfo.
  unfold extract_zip, extract_zip_body, try_except.
  unfold bind at 1. unfold lift at 1. cbv beta iota.
  unfold bind at 1. unfold lift at 1. rewrite Htest. cbv beta iota.
  rewrite (bool_decide_false (is_Some None)) by (by intros [? ?]).
  cbv zeta.
  destruct (Z.gtb_spec (sum_sizes zipf) (max_size_mb * 1024 * 1024));
    [lia|].
  unfold bind at 1. rewrite Hmk.
  unfold bind at 1. unfold zipf at 1.
  rewrite check_paths_unsafe by done. done.
Qed.

(** X11.  [extract_zip] and [stream_extract] refuse the same archives in the
    same way: one that does not open, one that fails the integrity
    test, and one whose declared sizes exceed the limit give the same
    exception in both, and neither touches the file system. *)
Theorem extract_zip_refuses_like_stream_extract (zip : archive)
  extract_to media_dest max_size_mb validate_media progress_callback
  source_type w :
  (∀ zipf, zip = inr zipf →
     testzip zipf ≠ inr None
     ∨ sum_sizes zipf > max_size_mb * 1024 * 1024) →
  ∃ e,
    extract_zip P extractall zip extract_to max_size_mb source_type w
      = (w, inl e)
    ∧ stream_extract P zip extract_to media_dest max_size_mb
        validate_media progress_callback source_type w
      = (w, inl e).
Proof.
  intros Hbad.
  destruct zip as [e0|zipf].
  { exists (match exn_cls e0 with
            | BadZipFile => Exn ValueError (InvalidZip (exn_msg e0))
            | _ => Exn IOError (ExtractionFailed (exn_msg e0))
            end).
    unfold extract_zip, extract_zip_body, stream_extract,
      stream_extract_body, try_except, bind, lift, reraise.
    cbv beta iota. by destruct (exn_cls e0). }
  destruct (testzip zipf) as [e1|[bad|]] eqn:Etest.
  - exists (match exn_cls e1 with
            | BadZipFile => Exn ValueError (InvalidZip (exn_msg e1))
            | _ => Exn IOError (ExtractionFailed (exn_msg e1))
            end).
    split.
    + unfold extract_zip, extract_zip_body, try_except.
      unfold bind at 1. unfold lift at 1. cbv beta iota.
      unfold bind at 1. unfold lift at 1. rewrite Etest. cbv beta iota.
      unfold reraise. by destruct (exn_cls e1).
    + unfold stream_extract, stream_extract_body, try_except.
      unfold bind at 1. unfold lift at 1. cbv beta iota.
      unfold bind at 1. unfold lift at 1. rewrite Etest. cbv beta iota.
      unfold reraise. by destruct (exn_cls e1).
  - exists (Exn IOError (ExtractionFailed ZipCorrupted)). split.
    + unfold extract_zip, extract_zip_body, try_except.
      unfold bind at 1. unfold lift at 1. cbv beta iota.
      unfold bind at 1. unfold lift at 1. rewrite Etest. cbv beta iota.
      by rewrite (bool_decide_true (is_Some (Some bad))).
    + unfold stream_extract, stream_extract_body, try_except.
      unfold bind at 1. unfold lift at 1. cbv beta iota.
      unfold bind at 1. unfold lift at 1. rewrite Etest. cbv beta iota.
      by rewrite (bool_decide_true (is_Some (Some bad))).
  - destruct (Hbad zipf eq_refl) as [?|Hsize]; [done|].
    exists (Exn IOError
              (ExtractionFailed (ZipTooLarge (sum_sizes zipf) max_size_mb))).
    split.
    + unfold extract_zip, extract_zip_body, try_except.
      unfold bind at 1. unfold lift at 1. cbv beta iota.
      unfold bind at 1. unfold lift at 1. rewrite Etest. cbv beta iota.
      rewrite (bool_decide_false (is_Some None)) by (by intros [? ?]).
      cbv zeta.
      by destruct (Z.gtb_spec (sum_sizes zipf)
                     (max_size_mb * 1024 * 1024)); [|lia].
    + unfold stream_extract, stream_extract_body, try_except.
      unfold bind at 1. unfold lift at 1. cbv beta iota.
      unfold bind at 1. unfold lift at 1. rewrite Etest. cbv beta iota.
      rewrite (bool_decide_false (is_Some None)) by (by intros [? ?]).
      cbv zeta.
      by destruct (Z.gtb_spec (sum_sizes zipf)
                     (max_size_mb * 1024 * 1024)); [|lia].
Qed.

(** X12.  Validation, then [extract_zip]: the scan for path traversal finds
    nothing in an archive that [validate_zip_structure] finds valid. *)
Theorem validated_archive_passes_scan zip source_type extract_to w :
  valid (validate_zip_structure zip source_type).1 = true →
  [ch_dot; ch_dot] ∉ extract_to →
  ∃ zipf, zip = inr zipf
    ∧ check_paths extract_to zipf w = (w, inr tt).
Proof.
  intros (zipf & -> & _ & _ & Hnames)%valid_archive_names Hroot.
  exists zipf. split; [done|]. apply check_paths_safe.
  apply Forall_forall. intros info Hin.
  assert (Hsafe : unsafe_name (filename info) = false).
  { rewrite Forall_forall in Hnames. apply Hnames.
    unfold namelist. by apply list_elem_of_fmap_2. }
  apply orb_false_iff in Hsafe as [Hdots Hslash].
  rewrite resolve_under_clean; try done.
  - by apply prefix_app_r.
  - by apply pure_parts_no_dotdot.
Qed.

End ExtractZipFacts.

(** ** process_upload *)

Section SaveChunks.
Import UploadManager.

(** The loop saves the rest of the stream unless the count passes the
    limit; what it saves is a prefix of the stream within the limit. *)
Lemma save_chunks_spec (size : nat) max_size_mb written total_size f :
  (0 < size)%nat →
  let rest := drop (pos f) (buf f) in
  ∃ saved total too_large,
    save_chunks size max_size_mb written total_size f
      = (written ++ saved, total, too_large)
    ∧ saved `prefix_of` rest
    ∧ (saved = []
       ∨ total_size + Z.of_nat (length saved) ≤ max_size_mb * 1024 * 1024)
    ∧ (too_large = false →
         saved = rest ∧ total = total_size + Z.of_nat (length rest))
    ∧ (too_large = true ↔
         rest ≠ []
         ∧ total_size + Z.of_nat (length rest) > max_size_mb * 1024 * 1024).
Proof.
  intros Hsize. funelim (save_chunks size max_size_mb written total_size f).
  - (* the read returned nothing *)
    clear Heqcall.
    match goal with E : fst (read _ _) = [] |- _ => rename E into Hread end.
    unfold read in *. cbn [fst snd] in *.
    assert (Hd : drop (pos f) (buf f) = []).
    { destruct (drop (pos f) (buf f)) eqn:Ed; [done|].
      destruct size; [lia|]. discriminate Hread. }
    cbv zeta. rewrite Hd. exists [], total_size, false.
    rewrite app_nil_r. repeat split; try done; try (by left).
    + cbn [length]. lia.
    + by intros [? _].
  - (* a chunk was read *)
    clear Heqcall.
    match goal with
    | E : fst (read _ _) = _ :: _ |- _ => rename E into Hread
    end.
    unfold read in Hread. cbn [fst] in Hread.
    set (rest := drop (pos f) (buf f)) in *.
    assert (Hrest : rest = (c :: cs) ++ drop (length (c :: cs)) rest).
    { rewrite <- Hread. symmetry. apply take_drop_length. }
    assert (Hnext : drop (pos (read size f).2) (buf (read size f).2)
                    = drop (length (c :: cs)) rest).
    { unfold read. cbn [snd buf pos]. fold rest. rewrite Hread.
      unfold rest. by rewrite drop_drop. }
    pose proof (f_equal length Hrest) as Hlen.
    rewrite length_app in Hlen.
    assert (Hne : rest ≠ []).
    { intros Hnil. rewrite Hnil in Hlen. cbn [length] in Hlen. lia. }
    set (rest' := drop (length (c :: cs)) rest) in *.
    cbv zeta. unfold MediaHandler.validate_file_size. cbv zeta.
    destruct (Z.leb_spec (total_size + Z.of_nat (length (c :: cs)))
                (max_size_mb * 1024 * 1024)) as [Hle|Hgt]; cbn [negb].
    + match goal with
      | IH : _ → ∃ _ _ _, _ |- _ =>
          destruct (IH Hsize)
            as (saved & total & too & -> & Hpre & Hlim & Hdone & Htoo);
          clear IH
      end.
      rewrite Hnext in *.
      exists ((c :: cs) ++ saved), total, too.
      split; [by rewrite <- app_assoc|]. split.
      { rewrite Hrest. by apply prefix_app. }
      split.
      { right. rewrite length_app. destruct Hlim as [->|Hlim].
        - cbn [length] in *. lia.
        - lia. }
      split.
      { intros Hf. destruct (Hdone Hf) as [-> ->]. split; [done|lia]. }
      rewrite Htoo. split.
      * intros [_ Hbig]. split; [done|lia].
      * intros [_ Hbig]. split; [|lia].
        intros Hnil. rewrite Hnil in Hlen. cbn [length] in *. lia.
    + exists [], (total_size + Z.of_nat (length (c :: cs))), true.
      rewrite app_nil_r. split; [done|]. split; [apply prefix_nil|].
      split; [by left|]. split; [done|]. split; [intros _|done].
      split; [done|lia].
Qed.

Lemma upload_chunk_size_pos : (0 < upload_chunk_size)%nat.
Proof. unfold upload_chunk_size. lia. Qed.

End SaveChunks.

Section ProcessUpload.
Import ZipHandler UploadManager.
Context (P : Platform).
Context (import_temp_dir : list (list N)).
Context (import_export_max_file_size_mb : Z).
Context (file_id : list N).
Context (zipfile : list Byte.byte → archive).
Implicit Types (w : world) (p : list (list N)) (file : UploadFile).

Lemma sanitize_filename_no_slash s :
  ch_slash ∉ MediaHandler.sanitize_filename s.
Proof.
  rewrite sanitize_filename_unfold.
  destruct (cleaned_name_props s) as (Hne & Hsafe & Htrim).
  destruct (limit_length_props _ Hne Hsafe Htrim) as [_ Hall].
  intros Hin. rewrite Forall_forall in Hall.
  apply (Hall _ Hin), slash_dangerous.
Qed.

Lemma startswith_head (s : list N) (c : N) :
  startswith s [c] = true → c ∈ s.
Proof.
  destruct s as [|a s]; [done|]. cbn [startswith].
  destruct (N.eqb_spec a c) as [->|]; [|done]. intros _.
  apply list_elem_of_here.
Qed.

(** A string without slash that is neither empty nor a dot is a single
    relative path component. *)
Lemma parse_path_component (s : list N) :
  ch_slash ∉ s → s ≠ [] → s ≠ [ch_dot] → parse_path s = Path false [s].
Proof.
  intros Hs Hne Hdot. unfold parse_path, pure_parts. f_equal.
  - destruct (startswith s [ch_slash]) eqn:E; [|done].
    by apply startswith_head in E.
  - rewrite split_on_id by done. by rewrite filter_cons_True.
Qed.

(** X13.  Whatever name the client sends, the upload is saved directly in the
    upload directory, under a name without slash that starts with the
    identifier drawn for it. *)
Theorem upload_path_in_upload_dir (filename : list N) :
  ch_slash ∉ file_id →
  ∃ name,
    upload_path import_temp_dir file_id filename
      = upload_dir import_temp_dir ++ [name]
    ∧ (file_id `prefix_of` name)
    ∧ (ch_slash ∉ name) ∧ name ≠ [ch_dot; ch_dot].
Proof.
  intros Hid. unfold UploadManager.upload_path. cbv zeta.
  set (safe := MediaHandler.sanitize_filename _).
  exists (file_id ++ lit "_" ++ safe).
  assert (Hslash : ch_slash ∉ file_id ++ lit "_" ++ safe).
  { rewrite !elem_of_app. intros [?|[Hu|Hs]]; [done| |].
    - change (lit "_") with [ch_underscore] in Hu.
      by apply list_elem_of_singleton in Hu.
    - by apply sanitize_filename_no_slash in Hs. }
  assert (Hunder : ch_underscore ∈ file_id ++ lit "_" ++ safe).
  { rewrite !elem_of_app. right. left. apply list_elem_of_here. }
  rewrite parse_path_component; try done.
  - unfold joinpath. cbn [is_abs parts of_apath].
    split; [done|]. split; [by apply prefix_app_r|]. split; [done|].
    intros Heq. rewrite Heq in Hunder.
    apply elem_of_cons in Hunder as [?|Hunder]; [done|].
    by apply list_elem_of_singleton in Hunder.
  - intros Heq. rewrite Heq in Hunder. by apply elem_of_nil in Hunder.
  - intros Heq. rewrite Heq in Hunder.
    by apply list_elem_of_singleton in Hunder.
Qed.

Lemma unlink_missing_ok_absent p w w' :
  unlink_missing_ok P p w = (w', inr tt) → node_at (fs w') p = None.
Proof.
  unfold unlink_missing_ok, bind, get_state. cbv beta iota.
  destruct (unlink_fault P p); [done|].
  destruct (node_at (fs w) p) as [[d|]|] eqn:En; [|done|].
  - intros [= <-]. destruct p as [|c p]; [done|].
    cbn [node_at fs set_fs]. apply lookup_delete_eq.
  - by intros [= <-].
Qed.


(** The [try] block, read off a run that ends without exception. *)
Lemma save_and_validate_returns file source_type p w w' r :
  save_and_validate P import_export_max_file_size_mb zipfile file
    source_type p w = (w', inr r) →
  let content := drop (pos (upload_file file)) (buf (upload_file file)) in
  let limit := import_export_max_file_size_mb * 1024 * 1024 in
  let validation :=
    (validate_zip_structure (zipfile content)
       (Some (str_lower P source_type))).1 in
  match r with
  | inr q =>
      q = p ∧ node_at (fs w') p = Some (File content)
      ∧ (content = [] ∨ Z.of_nat (length content) ≤ limit)
      ∧ valid validation = true
  | inl (HTTP status (FileTooLarge m)) =>
      status = 413 ∧ m = import_export_max_file_size_mb
      ∧ Z.of_nat (length content) > limit
      ∧ node_at (fs w') p = None
  | inl (HTTP status (InvalidZipFile errs)) =>
      status = 400 ∧ errs = errors validation ∧ valid validation = false
      ∧ (content = [] ∨ Z.of_nat (length content) ≤ limit)
      ∧ node_at (fs w') p = None
  | inl _ => False
  end.
Proof.
  unfold UploadManager.save_and_validate. cbv zeta.
  intros (w1 & [] & Hopen & Hrun)%bind_inr_inv. revert Hrun.
  destruct (save_chunks_spec upload_chunk_size
              import_export_max_file_size_mb [] 0 (upload_file file)
              upload_chunk_size_pos)
    as (saved & total & too & -> & Hpre & Hlim & Hdone & Htoo).
  cbn [app].
  intros (w2 & [] & Hclose & Hrun)%bind_inr_inv.
  apply write_file_written in Hclose.
  destruct too.
  - apply bind_inr_inv in Hrun as (w3 & [] & Hrm & Hret).
    injection Hret as <- <-. apply unlink_missing_ok_absent in Hrm.
    destruct Htoo as [Htoo _]. destruct (Htoo eq_refl) as [_ Hbig].
    repeat split; try done; lia.
  - destruct (Hdone eq_refl) as [-> _].
    apply bind_inr_inv in Hrun as (w3 & ws & Hget & Hrun).
    injection Hget as <- <-.
    unfold open_zip in Hrun. rewrite Hclose in Hrun.
    assert (Hsize :
      drop (pos (upload_file file)) (buf (upload_file file)) = []
      ∨ Z.of_nat (length (drop (pos (upload_file file))
                            (buf (upload_file file))))
        ≤ import_export_max_file_size_mb * 1024 * 1024).
    { destruct Hlim as [?|?]; [by left|right; lia]. }
    destruct (valid _) eqn:Evalid; cbn [negb] in Hrun.
    + injection Hrun as <- <-. done.
    + apply bind_inr_inv in Hrun as (w3 & [] & Hrm & Hret).
      injection Hret as <- <-. apply unlink_missing_ok_absent in Hrm.
      done.
Qed.

(** X14.  When [process_upload] returns a path, the file there holds the whole
    upload, the upload is within the size limit, its name ends in
    [.zip] whatever the case of the letters, and the archive read from
    it passed [validate_zip_structure]. *)
Theorem process_upload_returns file source_type w w' p :
  process_upload P import_temp_dir import_export_max_file_size_mb file_id
    zipfile file source_type w = (w', inr (inr p)) →
  let content := drop (pos (upload_file file)) (buf (upload_file file)) in
  ∃ filename,
    upload_filename file = Some filename
    ∧ endswith (str_lower P filename) (lit ".zip") = true
    ∧ p = upload_path import_temp_dir file_id filename
    ∧ node_at (fs w') p = Some (File content)
    ∧ (content = []
       ∨ Z.of_nat (length content)
         ≤ import_export_max_file_size_mb * 1024 * 1024)
    ∧ valid (validate_zip_structure (zipfile content)
               (Some (str_lower P source_type))).1 = true.
Proof.
  unfold UploadManager.process_upload.
  destruct (upload_filename file) as [filename|]; [|by intros [= _ ?]].
  destruct (bool_decide (filename = [])); cbn [orb]; [by intros [= _ ?]|].
  destruct (endswith _ _) eqn:Ezip; cbn [negb]; [|by intros [= _ ?]].
  intros (w1 & [] & Hmk & Hrun)%bind_inr_inv. revert Hrun.
  unfold try_except.
  destruct (UploadManager.save_and_validate _ _ _ _ _ _ _)
    as [w2 [e|r]] eqn:Ebody.
  - intros (w3 & ex & _ & Hrun)%bind_inr_inv.
    by apply bind_inr_inv in Hrun as (w4 & [] & _ & [= _ ?]).
  - intros [= <- ->]. apply save_and_validate_returns in Ebody.
    destruct Ebody as (-> & Hfile & Hsize & Hvalid).
    by exists filename.
Qed.

(** X15.  When [process_upload] raises an [HTTPException], no uploaded file is
    left behind.  A name that is missing, empty or without [.zip] gives
    status 400 before anything is touched; an upload over the size limit
    gives 413; one within the limit whose archive fails the validation
    gives 400 with the errors of the validation; every other failure
    gives 500.  In the last three cases nothing is at the upload path
    afterwards. *)
Theorem process_upload_http_error file source_type w w' h :
  process_upload P import_temp_dir import_export_max_file_size_mb file_id
    zipfile file source_type w = (w', inr (inl h)) →
  let content := drop (pos (upload_file file)) (buf (upload_file file)) in
  let limit := import_export_max_file_size_mb * 1024 * 1024 in
  let validation :=
    (validate_zip_structure (zipfile content)
       (Some (str_lower P source_type))).1 in
  let gone :=
    ∃ filename, upload_filename file = Some filename
      ∧ node_at (fs w') (upload_path import_temp_dir file_id filename)
        = None in
  match http_detail h with
  | MustBeZip =>
      status_code h = 400 ∧ w' = w
      ∧ ¬ ∃ filename, upload_filename file = Some filename
            ∧ filename ≠ []
            ∧ endswith (str_lower P filename) (lit ".zip") = true
  | FileTooLarge m =>
      status_code h = 413 ∧ m = import_export_max_file_size_mb
      ∧ Z.of_nat (length content) > limit ∧ gone
  | InvalidZipFile errs =>
      status_code h = 400 ∧ errs = errors validation ∧ errs ≠ []
      ∧ (content = [] ∨ Z.of_nat (length content) ≤ limit) ∧ gone
  | ProcessingError => status_code h = 500 ∧ gone
  end.
Proof.
  unfold UploadManager.process_upload. cbv zeta.
  destruct (upload_filename file) as [filename|] eqn:Ename.
  2:{ intros [= <- <-]. cbn [http_detail status_code]. split; [done|]. split; [done|].
      by intros (? & ? & _). }
  case_bool_decide as Hempty; cbn [orb].
  { intros [= <- <-]. cbn [http_detail status_code]. split; [done|]. split; [done|].
    intros (? & [= <-] & ? & _). done. }
  destruct (endswith _ _) eqn:Ezip; cbn [negb].
  2:{ intros [= <- <-]. cbn [http_detail status_code]. split; [done|]. split; [done|].
      intros (? & [= <-] & _ & ?). congruence. }
  intros (w1 & [] & Hmk & Hrun)%bind_inr_inv. revert Hrun.
  unfold try_except.
  destruct (UploadManager.save_and_validate _ _ _ _ _ _ _)
    as [w2 [e|r]] eqn:Ebody.
  - intros (w3 & ex & Hex & Hrun)%bind_inr_inv.
    apply bind_inr_inv in Hrun as (w4 & [] & Hrm & Hret).
    injection Hret as <- <-. cbn [http_detail status_code]. split; [done|].
    exists filename. split; [done|].
    apply path_exists_inr in Hex as [-> ->].
    case_bool_decide as Hthere.
    + by apply unlink_missing_ok_absent in Hrm.
    + injection Hrm as <-.
      destruct (node_at (fs w2) _) eqn:En; [|done].
      exfalso. apply Hthere. by eexists.
  - intros [= <- ->]. apply save_and_validate_returns in Ebody.
    destruct h as [status [|m|errs|]]; cbn [http_detail status_code];
      try done.
    + destruct Ebody as (-> & -> & Hbig & Hgone).
      repeat split; try done. by exists filename.
    + destruct Ebody as (-> & -> & Hinvalid & Hsize & Hgone).
      split; [done|]. split; [done|]. split.
      * destruct (validation_outcomes
                    (zipfile (drop (pos (upload_file file))
                                (buf (upload_file file))))
                    (Some (str_lower P source_type)))
          as [[Hv _]|[_ He]]; [congruence|done].
      * split; [done|]. by exists filename.
Qed.

End ProcessUpload.

(** ** Supported media types *)

Section SupportedTypes.
Import MediaTypes.
Context (P : Platform).

(** X17.  A type that [is_supported_media_type] accepts is, in lower case,
    accepted by [validate_media_type] under every policy that allows
    the three wildcards for images, videos and audio. *)
Theorem supported_type_is_allowed (mime_type : list N)
  (allowed_types : list (list N)) :
  is_supported_media_type P (Some mime_type) = true →
  lit "image/*" ∈ allowed_types → lit "video/*" ∈ allowed_types →
  lit "audio/*" ∈ allowed_types →
  MediaHandler.validate_media_type (str_lower P mime_type) allowed_types
  = true.
Proof.
  unfold is_supported_media_type.
  case_bool_decide; [done|]. cbv zeta.
  intros Hin%bool_decide_eq_true Himage Hvideo Haudio.
  set (m := str_lower P mime_type) in *. clearbody m.
  unfold MediaHandler.validate_media_type.
  assert (Hcat : m ≠ []
    ∧ (List.hd [] (split_on ch_slash m) ++ lit "/*" = lit "image/*"
       ∨ List.hd [] (split_on ch_slash m) ++ lit "/*" = lit "video/*"
       ∨ List.hd [] (split_on ch_slash m) ++ lit "/*" = lit "audio/*")).
  { unfold get_supported_mime_types, MIME_TYPE_MAP in Hin.
    cbn [fmap list_fmap snd] in Hin.
    repeat (apply elem_of_cons in Hin as [->|Hin];
            [split; [done|vm_compute; tauto]|]).
    by apply elem_of_nil in Hin. }
  destruct Hcat as [Hne Hcat].
  rewrite bool_decide_false by done.
  case_bool_decide; [done|]. cbv zeta.
  apply bool_decide_eq_true.
  destruct Hcat as [-> |[-> | ->]]; done.
Qed.

End SupportedTypes.

(** ** validate_media: what a positive verdict means *)

Section ValidVerdict.
Import MediaHandler.
Context (P : Platform).

(** X16.  A file is reported valid only if every check passed: it could be
    examined, something is there, its size is within the limit, the
    detected type is allowed and so is the extension; the verdict then
    carries the detected type and the category [none]. *)
Theorem validate_media_valid_only_if file_path (max_size_mb : Z)
  (allowed_types allowed_extensions : list (list N)) w mime_type category
  error_msg :
  validate_media P file_path max_size_mb allowed_types allowed_extensions w
  = (true, mime_type, category, error_msg) →
  stat_fault P file_path = None
  ∧ (∃ n, node_at (fs w) file_path = Some n
          ∧ node_size P n ≤ max_size_mb * 1024 * 1024)
  ∧ mime_type = detect_mime P file_path w
  ∧ validate_media_type mime_type allowed_types = true
  ∧ (allowed_extensions = []
     ∨ str_lower P (name_suffix (List.last file_path []))
         ∈ allowed_extensions)
  ∧ category = lit "none" ∧ error_msg = FileIsValid.
Proof.
  unfold validate_media. rewrite validate_media_checks_unfold.
  destruct (stat_fault P file_path); [done|].
  destruct (node_at (fs w) file_path) as [n|]; [|done].
  unfold validate_file_size. cbv zeta.
  destruct (Z.leb_spec (node_size P n) (max_size_mb * 1024 * 1024));
    cbn [negb]; [|done].
  destruct (validate_media_type _ _) eqn:Etype; cbn [negb]; [|done].
  case_bool_decide as Hnil; cbn [negb andb].
  - intros [= <- <- <-]. repeat split; try done; [by exists n|by left].
  - case_bool_decide as Hext; cbn [negb]; [|done].
    intros [= <- <- <-]. repeat split; try done; [by exists n|by right].
Qed.

End ValidVerdict.

(** ** stream_file *)

Section StreamFile.
Implicit Types (w : world) (f : BinaryIO).




End StreamFile.

(** ** Quill Delta payloads *)

Section QuillDeltaFacts.
Import QuillDelta.
Implicit Types (delta op : pyval) (id_map : gmap (list N) (list N))
  (u : gmap (list N) pyval).

(** X19.  Wrapping a text and extracting it again gives the text back; no
    text and the empty text both give the empty text. *)
Theorem extract_wrap_plain_text (text : option (list N)) :
  extract_plain_text (wrap_plain_text text) = default [] text.
Proof.
  unfold wrap_plain_text, extract_plain_text. cbv zeta.
  case_bool_decide as Hne.
  - rewrite lookup_singleton_eq. cbn [omap list_omap inserted_text].
    rewrite lookup_singleton_eq. cbn [concat]. apply app_nil_r.
  - rewrite lookup_singleton_eq. cbn.
    destruct (decide (default [] text = [])) as [->|?]; done.
Qed.

Lemma inserted_text_update_op id_map op :
  inserted_text (update_op id_map op) = inserted_text op.
Proof.
  destruct op as [|?|?|?|?|o]; try done. unfold update_op.
  destruct (o !! lit "insert") as [[|?|?|?|?|i]|] eqn:Ei; try done.
  cbn [inserted_text]. by rewrite lookup_insert_eq, Ei.
Qed.

Lemma extract_plain_text_no_ops :
  extract_plain_text (PDict {[ lit "ops" := PList [] ]}) = [].
Proof. unfold extract_plain_text. by rewrite lookup_singleton_eq. Qed.

(** X20.  Replacing media identifiers leaves the text of a delta as it is. *)
Theorem replace_media_ids_keeps_text delta id_map :
  extract_plain_text (replace_media_ids delta id_map)
  = extract_plain_text delta.
Proof.
  unfold replace_media_ids.
  destruct delta as [|?|?|?|?|d]; try apply extract_plain_text_no_ops.
  destruct (d !! lit "ops") as [[|?|?|?|ops|?]|] eqn:Eops;
    try (rewrite extract_plain_text_no_ops; cbn [extract_plain_text];
         by rewrite Eops).
  cbn [extract_plain_text]. rewrite lookup_singleton_eq, Eops. f_equal.
  clear Eops. induction ops as [|op ops IH]; [done|].
  cbn [fmap list_fmap omap list_omap].
  rewrite inserted_text_update_op.
  destruct (inserted_text op); by rewrite IH.
Qed.

Lemma first_media_spec u keys :
  match first_media u keys with
  | Some sanitized =>
      ∃ before key after v,
        keys = before ++ key :: after
        ∧ Forall (λ k, u !! k = None) before
        ∧ u !! key = Some v ∧ sanitized = {[ key := v ]}
  | None => Forall (λ k, u !! k = None) keys
  end.
Proof.
  induction keys as [|key keys IH]; cbn [first_media]; [constructor|].
  destruct (u !! key) as [v|] eqn:Ek.
  - exists [], key, keys, v. by repeat split.
  - destruct (first_media u keys) as [s|].
    + destruct IH as (before & k & after & v & -> & Hbefore & Hk & ->).
      exists (key :: before), k, after, v. repeat split; try done.
      by constructor.
    + by constructor.
Qed.

(** A sanitized embed has at most one key, unless it has no media key at
    all and is the embed it was. *)
Lemma sanitize_embed_spec u :
  (size (sanitize_embed u) ≤ 1)%nat
  ∨ (sanitize_embed u = u
     ∧ Forall (λ k, u !! k = None) media_keys).
Proof.
  unfold sanitize_embed. case_bool_decide as Hsize; [|left; lia].
  pose proof (first_media_spec u media_keys) as Hfirst.
  destruct (first_media u media_keys) as [s|].
  - destruct Hfirst as (before & k & after & v & _ & _ & _ & ->).
    left. by rewrite map_size_singleton.
  - by right.
Qed.

(** X21.  The result of [replace_media_ids] is a dictionary with the one key
    [ops], holding a list: as many ops as the delta given has, and none
    if what is given is not a delta (not a dictionary, or one without a
    list under [ops]).  Every embed in the result has at most one key,
    unless it has none of the keys image, video and audio. *)
Theorem replace_media_ids_sanitized delta id_map :
  ∃ ops',
    replace_media_ids delta id_map = PDict {[ lit "ops" := PList ops' ]}
    ∧ (∀ d ops, delta = PDict d → d !! lit "ops" = Some (PList ops) →
         length ops' = length ops)
    ∧ ((¬ ∃ d ops, delta = PDict d ∧ d !! lit "ops" = Some (PList ops)) →
         ops' = [])
    ∧ Forall (λ op', ∀ o u,
                op' = PDict o → o !! lit "insert" = Some (PDict u) →
                (size u ≤ 1)%nat
                ∨ Forall (λ k, u !! k = None) media_keys) ops'.
Proof.
  unfold replace_media_ids.
  destruct delta as [|?|?|?|?|d];
    try (exists []; split; [done|]; split; [done|]; split;
         [done|constructor]).
  destruct (d !! lit "ops") as [[|?|?|?|ops|?]|] eqn:Eops;
    try (exists []; split; [done|]; split;
         [intros d' ops' [= <-]; by rewrite Eops|];
         split; [done|constructor]).
  exists (update_op id_map <$> ops). split; [done|]. split.
  { intros d' ops' [= <-]. rewrite Eops. intros [= <-].
    apply length_fmap. }
  split.
  { intros Hnot. exfalso. apply Hnot. by exists d, ops. }
  apply Forall_fmap, Forall_forall. intros op _ o' u' Hop Hins.
  cbn [compose] in Hop. unfold update_op in Hop.
  destruct op as [|?|?|?|?|o]; try done.
  destruct (o !! lit "insert") as [[|?|?|?|?|i]|] eqn:Ei;
    try (injection Hop as <-; congruence).
  injection Hop as <-. rewrite lookup_insert_eq in Hins.
  injection Hins as <-.
  destruct (sanitize_embed_spec (replace_ids id_map i)) as [?|[-> ?]];
    [by left|by right].
Qed.

End QuillDeltaFacts.

(** ** The throttled progress callback *)

Section ThrottledProgress.
Import ProgressUtils.
Context (set_progress : Z → Job → Job).
Context (scaled : Z → Z → Z → Z).
Implicit Types (t : tracker) (calls : list (Z * Z)).

Lemma handle_all_app start_progress end_progress commit_interval
  percentage_threshold calls1 calls2 t :
  handle_all set_progress scaled start_progress end_progress
    commit_interval percentage_threshold (calls1 ++ calls2) t
  = handle_all set_progress scaled start_progress end_progress
      commit_interval percentage_threshold calls2
      (handle_all set_progress scaled start_progress end_progress
         commit_interval percentage_threshold calls1 t).
Proof. apply foldl_app. Qed.

(** One call, for a setter that stores what it is given. *)
Lemma handle_progress_step start_progress end_progress commit_interval
  percentage_threshold processed total t :
  (∀ n j, progress (set_progress n j) = Some n) →
  0 ≤ start_progress ≤ end_progress →
  default 0 (progress (job t)) ≤ end_progress →
  let t' := handle_progress set_progress scaled start_progress
              end_progress commit_interval percentage_threshold
              processed total t in
  default 0 (progress (job t)) ≤ default 0 (progress (job t'))
  ∧ default 0 (progress (job t')) ≤ end_progress.
Proof.
  intros Hset Hrange Hend. cbv zeta. unfold handle_progress. cbv zeta.
  unfold progress_or. cbn [progress].
  destruct (0 <? total).
  - assert (Hnew :
      ∀ c, default 0 (progress (job t))
           ≤ Z.min (Z.max
                (match progress (job t) with
                 | Some p => if p =? 0 then start_progress else p
                 | None => start_progress
                 end) c) end_progress ≤ end_progress).
    { intros c. destruct (progress (job t)) as [p|]; cbn [default] in *; unfold id in *.
      - destruct (Z.eqb_spec p 0); cbv iota; lia.
      - lia. }
    destruct (_ || _); cbn [job]; rewrite Hset; cbn [default]; unfold id;
      apply Hnew.
  - destruct (negb _); cbn [job]; [|cbn [progress]; lia].
    destruct (Z.ltb_spec
                (match progress (job t) with
                 | Some p => if p =? 0 then start_progress else p
                 | None => start_progress
                 end) start_progress) as [Hlt|Hge].
    + rewrite Hset. cbn [default]. unfold id.
      destruct (progress (job t)) as [p|]; cbn [default] in *; unfold id in *.
      * destruct (Z.eqb_spec p 0); cbv iota; lia.
      * lia.
    + cbn [progress]. lia.
Qed.

(** X22.  For a setter that stores what it is given, a range with
    [0 ≤ start_progress ≤ end_progress] and a job whose progress is not
    beyond [end_progress], the progress of the job never decreases and
    never passes [end_progress], whatever calls the callback receives. *)
Theorem progress_never_decreases start_progress end_progress
  commit_interval percentage_threshold calls1 calls2 t :
  (∀ n j, progress (set_progress n j) = Some n) →
  0 ≤ start_progress ≤ end_progress →
  default 0 (progress (job t)) ≤ end_progress →
  let run calls :=
    handle_all set_progress scaled start_progress end_progress
      commit_interval percentage_threshold calls t in
  default 0 (progress (job (run calls1)))
    ≤ default 0 (progress (job (run (calls1 ++ calls2))))
  ∧ default 0 (progress (job (run (calls1 ++ calls2)))) ≤ end_progress.
Proof.
  intros Hset Hrange Hend. cbv beta zeta.
  assert (Hall : ∀ cs t0,
    default 0 (progress (job t0)) ≤ end_progress →
    default 0 (progress (job t0))
      ≤ default 0 (progress (job
          (handle_all set_progress scaled start_progress end_progress
             commit_interval percentage_threshold cs t0)))
    ∧ default 0 (progress (job
          (handle_all set_progress scaled start_progress end_progress
             commit_interval percentage_threshold cs t0)))
      ≤ end_progress).
  { induction cs as [|[processed total] cs IH]; intros t0 Ht0.
    - cbn. lia.
    - unfold handle_all. cbn [foldl fst snd].
      destruct (handle_progress_step start_progress end_progress
                  commit_interval percentage_threshold processed total t0
                  Hset Hrange Ht0) as [Hup Hle].
      destruct (IH _ Hle) as [Hup' Hle']. unfold handle_all in *.
      split; [lia|done]. }
  rewrite handle_all_app.
  apply Hall. by apply (Hall calls1 t).
Qed.

(** X23.  Calls without a total commit once: however many calls with a total
    of zero (or less) a new callback receives, the database sees one
    commit, made by the first of them. *)
Theorem zero_total_commits_once start_progress end_progress
  commit_interval percentage_threshold calls j db :
  calls ≠ [] → Forall (λ c, c.2 ≤ 0) calls →
  ∃ snapshot,
    committed
      (handle_all set_progress scaled start_progress end_progress
         commit_interval percentage_threshold calls
         (create_throttled_progress_callback j db start_progress))
    = db ++ [snapshot].
Proof.
  intros Hne Hall. destruct calls as [|[processed total] calls]; [done|].
  apply Forall_cons in Hall as [Hfirst Hall]. cbn [snd] in Hfirst.
  unfold handle_all. cbn [foldl fst snd].
  unfold handle_progress at 2. cbv zeta.
  destruct (Z.ltb_spec 0 total) as [?|_]; [lia|].
  cbn [create_throttled_progress_callback zero_total_committed negb
       committed job last_committed_progress last_committed_percentage].
  eexists.
  match goal with
  | |- committed (foldl _ ?t0 _) = _ =>
      assert (Hrest : ∀ t1, zero_total_committed t1 = true →
        committed (foldl (λ t c, handle_progress set_progress scaled
                     start_progress end_progress commit_interval
                     percentage_threshold c.1 c.2 t) t1 calls)
        = committed t1);
      [|rewrite Hrest by done; reflexivity]
  end.
  clear Hne. induction Hall as [|[p tl] calls Hc Hall IH]; intros t1 Ht1; [done|].
  cbn [foldl fst snd]. cbn [snd] in Hc. rewrite IH.
  - unfold handle_progress. cbv zeta.
    destruct (Z.ltb_spec 0 tl) as [?|_]; [lia|]. by rewrite Ht1.
  - unfold handle_progress. cbv zeta.
    destruct (Z.ltb_spec 0 tl) as [?|_]; [lia|]. by rewrite Ht1.
Qed.

End ThrottledProgress.

(** ** The extraction and validation properties on sample archives *)

Section StreamExtractSamples.
Import ZipHandler Sample.

Lemma stream_extract_confined_witness :
  let zipf := [member "data.json" json; member "media/a.jpg" jpeg] in
  let media_dest := Some [lit "srv"; lit "media"] in
  let p := [lit "etc"; lit "passwd"] in
  let w' := (stream_extract platform (inr zipf) staging media_dest 10
               true true None empty_world).1 in
  fs w' !! p = fs empty_world !! p
  ∨ (fs empty_world !! p = None ∧ fs w' !! p = Some Dir
     ∧ above_root staging media_dest p).
Proof.
  intros zipf media_dest p w'.
  apply (stream_extract_confined platform (inr zipf) staging media_dest 10
           true true None p empty_world w'
           (stream_extract platform (inr zipf) staging media_dest 10
              true true None empty_world).2).
  - intros [k Hk]. vm_compute in Hk. discriminate Hk.
  - intros m [= <-] [k Hk]. vm_compute in Hk. discriminate Hk.
  - subst w'. by destruct (stream_extract _ _ _ _ _ _ _ _ _).
Defined.

Lemma stream_extract_totals_witness :
  let zipf := [member "data.json" json; member "media/a.jpg" jpeg] in
  let run := stream_extract platform (inr zipf) staging None 10 true true
               None empty_world in
  let x := match run.2 with
           | inr x => x
           | inl _ => Extraction [] None 0 0 [] ∅
           end in
  ∃ z, (inr zipf : archive) = inr z
    ∧ total_size x = sum_sizes z
    ∧ total_size x ≤ 10 * 1024 * 1024
    ∧ file_count x = Z.of_nat (length z).
Proof.
  intros zipf run x.
  apply (stream_extract_totals platform (inr zipf) staging None 10 true
           true None empty_world run.1 x).
  vm_compute. reflexivity.
Defined.


Lemma stream_extract_result_exists_witness :
  let zipf := [member "data.json" json; member "media/a.jpg" jpeg] in
  let run := stream_extract platform (inr zipf) staging None 10 true true
               None empty_world in
  let x := match run.2 with
           | inr x => x
           | inl _ => Extraction [] None 0 0 [] ∅
           end in
  is_Some (node_at (fs run.1) (data_file x))
  ∧ (if is_dayone None
     then data_file x ≠ [] ∧ parent (data_file x) = staging
          ∧ endswith (List.last (data_file x) []) (lit ".json") = true
     else data_file x = staging ++ [lit "data.json"])
  ∧ (∀ d, media_dir x = Some d →
       is_Some (node_at (fs run.1) d)
       ∧ ((None : option (list (list N))) = Some d
          ∨ d = (if is_dayone None then staging
                 else staging ++ [lit "media"]))).
Proof.
  intros zipf run x.
  apply (stream_extract_result_exists platform (inr zipf) staging None 10
           true true None empty_world run.1 x).
  vm_compute. reflexivity.
Defined.

Lemma stream_extract_warnings_counted_witness :
  let zipf := [member "data.json" json; member "media/a.txt" text;
               member "media/b.jpg" text] in
  let run := stream_extract platform (inr zipf) staging None 10 true true
               None empty_world in
  let x := match run.2 with
           | inr x => x
           | inl _ => Extraction [] None 0 0 [] ∅
           end in
  length (warnings x) = 2%nat
  ∧ total_count (warning_categories x) = Z.of_nat (length (warnings x)).
Proof.
  intros zipf run x. split; [vm_compute; reflexivity|].
  apply (stream_extract_warnings_counted platform (inr zipf) staging None
           10 true true None empty_world run.1 x).
  vm_compute. reflexivity.
Defined.

Lemma stream_extract_warnings_about_media_witness :
  let zipf := [member "data.json" json; member "media/a.txt" text] in
  let run := stream_extract platform (inr zipf) staging None 10 true true
               None empty_world in
  let x := match run.2 with
           | inr x => x
           | inl _ => Extraction [] None 0 0 [] ∅
           end in
  (true = false → warnings x = [] ∧ warning_categories x = ∅)
  ∧ ∃ z, (inr zipf : archive) = inr z
    ∧ Forall (λ m, ∃ info msg,
                m = MediaValidationFailed (filename info) msg
                ∧ info ∈ z ∧ is_dir info = false
                ∧ is_media platform None info = true)
        (warnings x).
Proof.
  intros zipf run x.
  apply (stream_extract_warnings_about_media platform (inr zipf) staging
           None 10 true true None empty_world run.1 x).
  vm_compute. reflexivity.
Defined.


(** In that run the first entry is done and reported, and the second
    one raises. *)
Example stream_extract_progress_stopped :
  let zipf := [member "data.json" json;
               member "../../../etc/passwd" text;
               member "media/a.jpg" jpeg] in
  calls (stream_extract platform (inr zipf) staging None 10 true true
           None empty_world).1 = [(1, 3)].
Proof. vm_compute. reflexivity. Qed.

End StreamExtractSamples.

Section ValidationSamples.
Import ZipHandler Sample.

Lemma validate_zip_structure_sound_archive_witness :
  let zipf := [member "media/a.jpg" jpeg; member "../x" text;
               member "/etc/passwd" text] in
  let v := (validate_zip_structure (inr zipf) None).1 in
  v_file_count v = Z.of_nat (length zipf)
  ∧ v_total_size v = sum_sizes zipf
  ∧ (has_data_file v = true ↔ has_data_entry None (namelist zipf))
  ∧ errors v
    = (if has_data_file v then [] else [missing_data_error None])
      ++ (UnsafePathInZip
            <$> filter (λ f, unsafe_name f = true) (namelist zipf))
  ∧ valid v
    = has_data_file v
      && forallb (λ f, negb (unsafe_name f)) (namelist zipf).
Proof.
  intros zipf.
  apply (validate_zip_structure_sound_archive zipf None).
  vm_compute. reflexivity.
Defined.

Lemma validated_archive_routes_inside_witness :
  let zipf := [member "data.json" json; member "media/a/b.jpg" jpeg] in
  let media_dest := Some [lit "srv"; lit "media"] in
  ∃ z, (inr zipf : archive) = inr z
    ∧ ∀ info, info ∈ z →
        ∃ target_dir rel,
          route platform staging media_dest None info
            = inr (target_dir, target_dir ++ rel)
          ∧ (target_dir = staging ∨ media_dest = Some target_dir)
          ∧ target_dir `prefix_of` target_dir ++ rel.
Proof.
  intros zipf media_dest.
  apply (validated_archive_routes_inside platform (inr zipf) None staging
           media_dest).
  - vm_compute. reflexivity.
  - intros Hin. vm_compute in Hin.
    repeat (apply elem_of_cons in Hin as [Hin|Hin]; [discriminate Hin|]).
    by apply elem_of_nil in Hin.
  - intros m [= <-] Hin. vm_compute in Hin.
    repeat (apply elem_of_cons in Hin as [Hin|Hin]; [discriminate Hin|]).
    by apply elem_of_nil in Hin.
Defined.

End ValidationSamples.

Section ExtractZipSamples.
Import ZipHandler ExtractZip Sample Fixtures.

Lemma extract_zip_unsafe_entry_witness :
  let pre := [member "data.json" json] in
  let info := member "../../../etc/passwd" text in
  let w1 := (mkdir_p staging empty_world).1 in
  extract_zip platform no_extractall (inr (pre ++ [info])) staging 10 None
    empty_world
  = (w1, inl (Exn IOError (ExtractionFailed (UnsafePath (filename info))))).
Proof.
  intros pre info w1.
  apply (extract_zip_unsafe_entry platform no_extractall pre info []
           staging 10 None empty_world w1).
  - vm_compute. reflexivity.
  - by vm_compute.
  - vm_compute. reflexivity.
  - repeat constructor. apply (bool_decide_unpack _). vm_compute. exact I.
  - apply (bool_decide_unpack _). vm_compute. exact I.
Defined.

Lemma extract_zip_refuses_like_stream_extract_witness :
  let zipf := [ {| filename := lit "data.json"; file_size := 2;
                   data := json; check := MemberBad |} ] in
  ∃ e,
    extract_zip platform no_extractall (inr zipf) staging 10 None
      empty_world = (empty_world, inl e)
    ∧ stream_extract platform (inr zipf) staging None 10 true true None
        empty_world = (empty_world, inl e).
Proof.
  intros zipf.
  apply (extract_zip_refuses_like_stream_extract platform no_extractall
           (inr zipf) staging None 10 true true None empty_world).
  intros z [= <-]. left. vm_compute. discriminate.
Defined.

Lemma validated_archive_passes_scan_witness :
  let zipf := [member "data.json" json; member "media/a/b.jpg" jpeg] in
  ∃ z, (inr zipf : archive) = inr z
    ∧ check_paths staging z empty_world = (empty_world, inr tt).
Proof.
  intros zipf.
  apply (validated_archive_passes_scan (inr zipf) None staging empty_world).
  - vm_compute. reflexivity.
  - intros Hin. vm_compute in Hin.
    repeat (apply elem_of_cons in Hin as [Hin|Hin]; [discriminate Hin|]).
    by apply elem_of_nil in Hin.
Defined.

End ExtractZipSamples.

Section UploadSamples.
Import ZipHandler UploadManager Sample Fixtures.

Lemma upload_path_in_upload_dir_witness :
  ∃ name,
    upload_path [lit "tmp"] (lit "3f2a") (lit "../../etc/x.zip")
      = upload_dir [lit "tmp"] ++ [name]
    ∧ (lit "3f2a" `prefix_of` name)
    ∧ (ch_slash ∉ name) ∧ name ≠ [ch_dot; ch_dot].
Proof.
  apply (upload_path_in_upload_dir [lit "tmp"] (lit "3f2a")
           (lit "../../etc/x.zip")).
  intros Hin. vm_compute in Hin.
  repeat (apply elem_of_cons in Hin as [Hin|Hin]; [discriminate Hin|]).
  by apply elem_of_nil in Hin.
Defined.

Lemma process_upload_returns_witness :
  let file := upload "Export.ZIP" json in
  let run := process_upload platform [lit "tmp"] 1 (lit "3f2a") one_member
               file (lit "Journiv") empty_world in
  let p := upload_path [lit "tmp"] (lit "3f2a") (lit "Export.ZIP") in
  let content := drop (pos (upload_file file)) (buf (upload_file file)) in
  ∃ filename,
    upload_filename file = Some filename
    ∧ endswith (str_lower platform filename) (lit ".zip") = true
    ∧ p = upload_path [lit "tmp"] (lit "3f2a") filename
    ∧ node_at (fs run.1) p = Some (File content)
    ∧ (content = [] ∨ Z.of_nat (length content) ≤ 1 * 1024 * 1024)
    ∧ valid (validate_zip_structure (one_member content)
               (Some (str_lower platform (lit "Journiv")))).1 = true.
Proof.
  intros file run p content.
  apply (process_upload_returns platform [lit "tmp"] 1 (lit "3f2a")
           one_member file (lit "Journiv") empty_world run.1 p).
  vm_compute. reflexivity.
Defined.

Lemma process_upload_http_error_witness :
  let file := upload "export.zip" json in
  let run := process_upload platform [lit "tmp"] 1 (lit "3f2a") no_archive
               file (lit "journiv") empty_world in
  let h := match run.2 with
           | inr (inl h) => h
           | _ => HTTP 0 ProcessingError
           end in
  let content := drop (pos (upload_file file)) (buf (upload_file file)) in
  let limit := 1 * 1024 * 1024 in
  let validation :=
    (validate_zip_structure (no_archive content)
       (Some (str_lower platform (lit "journiv")))).1 in
  let gone :=
    ∃ filename, upload_filename file = Some filename
      ∧ node_at (fs run.1) (upload_path [lit "tmp"] (lit "3f2a") filename)
        = None in
  match http_detail h with
  | MustBeZip =>
      status_code h = 400 ∧ run.1 = empty_world
      ∧ ¬ ∃ filename, upload_filename file = Some filename
            ∧ filename ≠ []
            ∧ endswith (str_lower platform filename) (lit ".zip") = true
  | FileTooLarge m =>
      status_code h = 413 ∧ m = 1
      ∧ Z.of_nat (length content) > limit ∧ gone
  | InvalidZipFile errs =>
      status_code h = 400 ∧ errs = errors validation ∧ errs ≠ []
      ∧ (content = [] ∨ Z.of_nat (length content) ≤ limit) ∧ gone
  | ProcessingError => status_code h = 500 ∧ gone
  end.
Proof.
  intros file run h.
  apply (process_upload_http_error platform [lit "tmp"] 1 (lit "3f2a")
           no_archive file (lit "journiv") empty_world run.1 h).
  vm_compute. reflexivity.
Defined.

End UploadSamples.

Section OtherSamples.
Import Sample Fixtures ProgressUtils MediaTypes.


(** A file of four bytes read three at a time, to the end, and with a
    length that [read] refuses. *)
Example stream_file_by_three :
  (stream_file [lit "a.bin"] 3
     (World {[ [lit "a.bin"] := File jpeg ]} [])).2
  = inr [[Byte.xff; Byte.xd8; Byte.xff]; [Byte.xe0]].
Proof. vm_compute. reflexivity. Qed.

Example stream_file_to_the_end :
  (stream_file [lit "a.bin"] (-1)
     (World {[ [lit "a.bin"] := File jpeg ]} [])).2
  = inr [jpeg].
Proof. vm_compute. reflexivity. Qed.

Example stream_file_refused :
  (stream_file [lit "a.bin"] (-2)
     (World {[ [lit "a.bin"] := File jpeg ]} [])).2
  = inl (Exn ValueError
           (Text (lit "read length must be non-negative or -1"))).
Proof. vm_compute. reflexivity. Qed.

Lemma progress_never_decreases_witness :
  let run calls :=
    handle_all store_progress scaled_floor 10 90 10 5 calls
      (create_throttled_progress_callback new_job [] 10) in
  let calls1 := [(0, 0); (3, 4)] in
  let calls2 := [(1, 4); (4, 4)] in
  default 0 (progress (job (run calls1)))
    ≤ default 0 (progress (job (run (calls1 ++ calls2))))
  ∧ default 0 (progress (job (run (calls1 ++ calls2)))) ≤ 90.
Proof.
  intros run calls1 calls2.
  apply (progress_never_decreases store_progress scaled_floor 10 90 10 5
           calls1 calls2 (create_throttled_progress_callback new_job [] 10)).
  - reflexivity.
  - lia.
  - vm_compute. discriminate.
Defined.

Lemma zero_total_commits_once_witness :
  ∃ snapshot,
    committed
      (handle_all store_progress scaled_floor 10 90 10 5
         [(0, 0); (0, 0); (1, 0)]
         (create_throttled_progress_callback new_job [] 10))
    = [] ++ [snapshot].
Proof.
  apply (zero_total_commits_once store_progress scaled_floor 10 90 10 5
           [(0, 0); (0, 0); (1, 0)] new_job []).
  - discriminate.
  - repeat constructor; vm_compute; discriminate.
Defined.

Lemma supported_type_is_allowed_witness :
  MediaHandler.validate_media_type
    (str_lower platform (lit "Image/PNG")) (allowed_media_types platform)
  = true.
Proof.
  apply (supported_type_is_allowed platform (lit "Image/PNG")
           (allowed_media_types platform)).
  - vm_compute. reflexivity.
  - apply (bool_decide_unpack _). vm_compute. exact I.
  - apply (bool_decide_unpack _). vm_compute. exact I.
  - apply (bool_decide_unpack _). vm_compute. exact I.
Defined.

Lemma validate_media_valid_only_if_witness :
  let p := [lit "srv"; lit "a.jpg"] in
  let w := World {[ p := File jpeg ]} [] in
  stat_fault platform p = None
  ∧ (∃ n, node_at (fs w) p = Some n
          ∧ node_size platform n ≤ 1 * 1024 * 1024)
  ∧ lit "image/jpeg" = MediaHandler.detect_mime platform p w
  ∧ MediaHandler.validate_media_type (lit "image/jpeg")
      (allowed_media_types platform) = true
  ∧ (allowed_file_extensions platform = []
     ∨ str_lower platform (name_suffix (List.last p []))
         ∈ allowed_file_extensions platform)
  ∧ lit "none" = lit "none" ∧ FileIsValid = FileIsValid.
Proof.
  intros p w.
  apply (validate_media_valid_only_if platform p 1
           (allowed_media_types platform) (allowed_file_extensions platform)
           w (lit "image/jpeg") (lit "none") FileIsValid).
  vm_compute. reflexivity.
Defined.

End OtherSamples.
